(** * asyncgui core: tasks, the suspension protocol and events

    A shallow embedding of [asyncgui/_core.py].  Python objects live in a
    store (tasks and events are referred to by their identity), a coroutine
    object is a residual program waiting at a suspension point, and every
    function of the module is a state-passing function over the store that
    may raise.  Calls that re-enter the module (a callback resuming another
    task, a computation cancelling a task, ...) go through one interpreter,
    [exec], which is bounded by a fuel argument.

    The file has three parts: the embedding of the module, the vocabulary in
    which its properties are stated (assertions about computations, the
    atomic steps of the module, traces), and the properties with their
    proofs, first in general and then on a small concrete program. *)

From Stdlib Require Import ZArith String List Lia.
From stdpp Require Import base option list gmap strings pretty.

Set Warnings "-register-all".

Local Open Scope Z_scope.
Local Open Scope string_scope.
Local Open Scope list_scope.

(** ** Values and exceptions *)

(** [class TaskState(enum.Flag)] *)
Inductive TaskState := CREATED | STARTED | CANCELLED | DONE.

(** [ENDED = CANCELLED | DONE] *)
Definition ENDED (s : TaskState) : bool :=
  match s with CANCELLED | DONE => true | _ => false end.

(** [inspect.getcoroutinestate] *)
Inductive CoroState := CORO_CREATED | CORO_RUNNING | CORO_SUSPENDED | CORO_CLOSED.

(** Callables that are passed around as resume callbacks: the bound method
    [task._step_coro] of the task with identity [t], or any other function
    of the embedding program, named by a number. *)
Inductive callable :=
| StepCoro (t : nat)
| Fn (f : nat).

(** The Python values the module handles.  [VPair args kwargs] is the tuple
    [(args, kwargs)] that [_step_coro] sends into a coroutine and that
    [Event.set] stores. *)
Inductive value :=
| VNone
| VBool (b : bool)
| VInt (z : Z)
| VStr (s : string)
| VState (s : TaskState)
| VTask (t : nat)
| VEvent (e : nat)
| VCallable (c : callable)
| VPair (args : list value) (kwargs : list (string * value)).

(** The arguments of a call [f( *args, **kwargs)]. *)
Abbreviation arguments := (list value * list (string * value))%type.

Definition no_arguments : arguments := ([], []).

Definition pair_of (a : arguments) : value := VPair (fst a) (snd a).

(** Exceptions.  [GeneratorExit] and [BaseError] derive from [BaseException]
    only; all the others derive from [Exception]. *)
Inductive exn :=
| ValueError (msg : string)
| InvalidStateError (msg : string)
| RuntimeError (msg : string)
| TypeError (msg : string)
| AttributeError (msg : string)
| IndexError (msg : string)
| UserError (n : nat)
| GeneratorExit
| BaseError (n : nat).

(** [isinstance(e, Exception)] *)
Definition is_Exception (e : exn) : bool :=
  match e with
  | GeneratorExit | BaseError _ => false
  | _ => true
  end.

Global Instance TaskState_eq_dec : EqDecision TaskState.
Proof. solve_decision. Defined.

Global Instance CoroState_eq_dec : EqDecision CoroState.
Proof. solve_decision. Defined.

Global Instance callable_eq_dec : EqDecision callable.
Proof. solve_decision. Defined.

Global Instance exn_eq_dec : EqDecision exn.
Proof. solve_decision. Defined.

(** ** Programs *)

(** What a computation can ask of the module while it runs.  Each is a
    function, a method or an attribute access of [_core.py]. *)
Inductive call :=
| CStart (t : nat)                            (* start(task) *)
| CCancel (t : nat)                           (* task.cancel() *)
| CCall (c : callable) (a : arguments)        (* c( *args, **kwargs) *)
| CResult (t : nat)                           (* task.result *)
| CState (t : nat)                            (* task.state *)
| CProtection (t : nat) (d : Z)               (* task._cancel_protection += d *)
| CSuppress (t : nat) (b : bool)              (* task._suppresses_exception = b *)
| CEventSet (e : nat) (a : arguments)         (* event.set( *args, **kwargs) *)
| CEventClear (e : nat)                       (* event.clear() *)
| CEventIsSet (e : nat)                       (* event.is_set() / event._flag *)
| CEventValue (e : nat)                       (* event._value *)
| CEventAddCallback (e : nat) (c : callable). (* event.add_callback(c) *)

(** A registration request: what a suspension point yields.  The driver calls
    it with the resume callback. *)
Inductive registration :=
| RegNone                (* lambda step_coro: None *)
| RegCall                (* lambda step_coro: step_coro() *)
| RegSelf                (* lambda step_coro: step_coro(step_coro) *)
| RegAppend (e : nat)    (* event._step_coro_list.append *)
| RegFn (f : nat).       (* any other function taking the resume callback *)

(** How a call ends for its caller, and how a suspended generator is resumed
    ([send] or [throw]). *)
Inductive result := Val (v : value) | Err (e : exn).
Inductive resume := Sent (v : value) | Thrown (e : exn).

(** Code as a tree: it returns, raises, calls the module and goes on with
    the result (a [try] around the call is a continuation that looks at
    [Err]), or yields.  [prog registration] is a suspendable computation;
    [prog Empty_set] is a plain function body, which cannot yield. *)
Inductive prog (Y : Type) :=
| Ret (v : value)
| Raise (e : exn)
| Do (c : call) (k : result -> prog Y)
| Yield (y : Y) (k : resume -> prog Y).

Arguments Ret {Y} v.
Arguments Raise {Y} e.
Arguments Do {Y} c k.
Arguments Yield {Y} y k.

Abbreviation coro := (prog registration).
Abbreviation code := (prog Empty_set).

(** A call whose exception is not handled propagates. *)
Definition propagate {Y} (k : value -> prog Y) (r : result) : prog Y :=
  match r with Val v => k v | Err e => Raise e end.

(** [v = await p; k v] *)
Fixpoint await {Y} (p : prog Y) (k : value -> prog Y) : prog Y :=
  match p with
  | Ret v => k v
  | Raise e => Raise e
  | Do c k' => Do c (fun r => await (k' r) k)
  | Yield y k' => Yield y (fun i => await (k' i) k)
  end.

(** [try: p finally: fin].  An exception raised by [fin] replaces the
    pending one. *)
Fixpoint try_finally {Y} (p : prog Y) (fin : prog Y) : prog Y :=
  match p with
  | Ret v => await fin (fun _ => Ret v)
  | Raise e => await fin (fun _ => Raise e)
  | Do c k => Do c (fun r => try_finally (k r) fin)
  | Yield y k => Yield y (fun i => try_finally (k i) fin)
  end.

(** ** Objects *)

(** A coroutine object: the state reported by [getcoroutinestate] together
    with what remains to run.  The coroutine of a task is always
    [Task._wrapper(awaitable)]; the frame kept here is the awaitable's, the
    wrapper around it is [wrapper_enter] and [wrapper_exit] below. *)
Inductive coroutine :=
| CoroCreated (awaitable : coro)
| CoroRunning
| CoroSuspended (k : resume -> coro)
| CoroClosed.

Definition getcoroutinestate (c : coroutine) : CoroState :=
  match c with
  | CoroCreated _ => CORO_CREATED
  | CoroRunning => CORO_RUNNING
  | CoroSuspended _ => CORO_SUSPENDED
  | CoroClosed => CORO_CLOSED
  end.

(** [class Event], [__slots__ = ('_value', '_flag', '_step_coro_list')] *)
Record Event := mkEvent {
  _value : option arguments;
  _flag : bool;
  _step_coro_list : list callable;
}.

(** [class Task].  [_result] is a slot that is unset until the computation
    returns; [_event] is the identity of the task's completion event. *)
Record Task := mkTask {
  name : string;
  _uid : nat;
  _root_coro : coroutine;
  _state : TaskState;
  _result : option value;
  _event : nat;
  _cancel_called : bool;
  userdata : value;
  _exception : option exn;
  _suppresses_exception : bool;
  _cancel_protection : Z;
}.

Definition set_root_coro (c : coroutine) (T : Task) : Task :=
  mkTask (name T) (_uid T) c (_state T) (_result T) (_event T) (_cancel_called T)
    (userdata T) (_exception T) (_suppresses_exception T) (_cancel_protection T).

Definition set_state (s : TaskState) (T : Task) : Task :=
  mkTask (name T) (_uid T) (_root_coro T) s (_result T) (_event T) (_cancel_called T)
    (userdata T) (_exception T) (_suppresses_exception T) (_cancel_protection T).

Definition set_result (v : value) (T : Task) : Task :=
  mkTask (name T) (_uid T) (_root_coro T) (_state T) (Some v) (_event T) (_cancel_called T)
    (userdata T) (_exception T) (_suppresses_exception T) (_cancel_protection T).

Definition set_cancel_called (b : bool) (T : Task) : Task :=
  mkTask (name T) (_uid T) (_root_coro T) (_state T) (_result T) (_event T) b
    (userdata T) (_exception T) (_suppresses_exception T) (_cancel_protection T).

Definition set_exception (e : exn) (T : Task) : Task :=
  mkTask (name T) (_uid T) (_root_coro T) (_state T) (_result T) (_event T) (_cancel_called T)
    (userdata T) (Some e) (_suppresses_exception T) (_cancel_protection T).

Definition set_suppresses_exception (b : bool) (T : Task) : Task :=
  mkTask (name T) (_uid T) (_root_coro T) (_state T) (_result T) (_event T) (_cancel_called T)
    (userdata T) (_exception T) b (_cancel_protection T).

Definition set_cancel_protection (d : Z) (T : Task) : Task :=
  mkTask (name T) (_uid T) (_root_coro T) (_state T) (_result T) (_event T) (_cancel_called T)
    (userdata T) (_exception T) (_suppresses_exception T) d.

(** What an outside observer can see happen, in the order it happens.  The
    trace is not part of the Python program; the interpreter records in it
    the steps that the properties below speak about. *)
Inductive obs :=
| ObsState (t : nat) (s : TaskState)                    (* t._state = s *)
| ObsProtection (t : nat) (d : Z)                       (* t._cancel_protection became d *)
| ObsClose (t : nat)                                    (* t._actual_cancel() *)
| ObsNotify (e : nat) (c : callable) (a : arguments)    (* e.set called the waiter c *)
| ObsClear (e : nat)                                    (* e.clear() *)
| ObsCalled (f : nat) (a : arguments).                  (* the function f was called *)

(** The store: every task by its identity (which is its [uid]), every event
    by its identity, the class attribute [Task._uid_iter], the next free
    event identity, and the trace. *)
Record world := mkWorld {
  tasks : gmap nat Task;
  events : gmap nat Event;
  _uid_iter : nat;
  next_event : nat;
  trace : list obs;
}.

Definition empty_world : world := mkWorld ∅ ∅ 0%nat 0%nat [].

Definition set_tasks (m : gmap nat Task) (w : world) : world :=
  mkWorld m (events w) (_uid_iter w) (next_event w) (trace w).

Definition set_events (m : gmap nat Event) (w : world) : world :=
  mkWorld (tasks w) m (_uid_iter w) (next_event w) (trace w).

Definition add_trace (o : obs) (w : world) : world :=
  mkWorld (tasks w) (events w) (_uid_iter w) (next_event w) (trace w ++ [o]).

(** ** The monad of the module: a store, exceptions, and running out of fuel *)

(** A function of the module returns, raises, or does not finish within the
    fuel.  [Abort] also stands for a reference to an object that does not
    exist, which no Python program can hold.  The store survives an
    exception. *)
Inductive outcome (A : Type) :=
| Ok (a : A)
| Exc (e : exn)
| Abort.

Arguments Ok {A} a.
Arguments Exc {A} e.
Arguments Abort {A}.

Definition M (A : Type) : Type := world -> outcome A * world.

Definition ret {A} (a : A) : M A := fun w => (Ok a, w).
Definition raise {A} (e : exn) : M A := fun w => (Exc e, w).
Definition abort {A} : M A := fun w => (Abort, w).

Definition bind {A B} (m : M A) (k : A -> M B) : M B :=
  fun w =>
    match m w with
    | (Ok a, w') => k a w'
    | (Exc e, w') => (Exc e, w')
    | (Abort, w') => (Abort, w')
    end.

Notation "'let*' x ':=' m 'in' k" := (bind m (fun x => k))
  (at level 10, x name, m at level 100, k at level 200).

(** [try: m except BaseException as e: ...]: the exception becomes a value. *)
Definition attempt {A} (m : M A) : M (A + exn) :=
  fun w =>
    match m w with
    | (Ok a, w') => (Ok (inl a), w')
    | (Exc e, w') => (Ok (inr e), w')
    | (Abort, w') => (Abort, w')
    end.

Definition get_world : M world := fun w => (Ok w, w).
Definition modify (f : world -> world) : M unit := fun w => (Ok tt, f w).
Definition observe (o : obs) : M unit := modify (add_trace o).

Definition get_task (t : nat) : M Task :=
  fun w => match tasks w !! t with Some T => (Ok T, w) | None => (Abort, w) end.

Definition get_event (e : nat) : M Event :=
  fun w => match events w !! e with Some E => (Ok E, w) | None => (Abort, w) end.

Definition update_task (t : nat) (f : Task -> Task) : M unit :=
  let* T := get_task t in modify (fun w => set_tasks (<[t := f T]> (tasks w)) w).

Definition update_event (e : nat) (f : Event -> Event) : M unit :=
  let* E := get_event e in modify (fun w => set_events (<[e := f E]> (events w)) w).

(** ** The module *)

(** What [start] and [Task] accept: an awaitable, a Task, anything else. *)
Inductive pyarg :=
| Awaitable (p : coro)
| TaskObj (t : nat)
| Other (v : value).

(** How a piece of code stops running: it returned, raised, or is suspended
    at a yield with the rest of it. *)
Inductive stop (Y : Type) :=
| Returned (v : value)
| Raised (e : exn)
| Yielded (y : Y) (k : resume -> prog Y).

Arguments Returned {Y} v.
Arguments Raised {Y} e.
Arguments Yielded {Y} y k.

(** How [coro.send] and [coro.throw] end when they do not raise an error:
    with the yielded registration request, or with [StopIteration]. *)
Inductive sent :=
| Suspends (r : registration)
| StopIteration (v : value).

Section Core.

(** Python built-ins that the module calls and the bodies of the functions
    of the embedding program. *)
Variable py_repr : string -> string.
Variable py_str : value -> string.
Variable fn_body : nat -> arguments -> code.

(** [Task.__str__]: [f'Task(uid={self._uid}, name={self.name!r})'] *)
Definition Task_str (T : Task) : string :=
  "Task(uid=" +:+ pretty (_uid T) +:+ ", name=" +:+ py_repr (name T) +:+ ")".

(** [Task.result] *)
Definition Task_result (T : Task) : outcome value :=
  match _state T with
  | DONE =>
      match _result T with
      | Some v => Ok v
      | None => Exc (AttributeError "_result")
      end
  | CANCELLED => Exc (InvalidStateError (Task_str T +:+ " was cancelled"))
  | _ => Exc (InvalidStateError ("Result of " +:+ Task_str T +:+ " is not ready"))
  end.

(** [Task._is_cancellable] *)
Definition _is_cancellable (T : Task) : bool :=
  (_cancel_protection T =? 0)%Z
  && match getcoroutinestate (_root_coro T) with
     | CORO_RUNNING => false
     | _ => true
     end.

(** [Task.__init__] *)
Definition Task_init (x : pyarg) (name : string) (userdata : value) : M nat :=
  match x with
  | Awaitable p =>
      fun w =>
        let uid := _uid_iter w in
        let e := next_event w in
        let T := mkTask name uid (CoroCreated p) CREATED None e false userdata
                   None false 0 in
        (Ok uid,
         mkWorld (<[uid := T]> (tasks w)) (<[e := mkEvent None false []]> (events w))
           (S uid) (S e) (trace w))
  | TaskObj t =>
      let* T := get_task t in
      raise (ValueError (Task_str T +:+ " is not awaitable."))
  | Other v => raise (ValueError (py_str v +:+ " is not awaitable."))
  end.

(** [Event.__init__] *)
Definition Event_init : M nat :=
  fun w =>
    let e := next_event w in
    (Ok e,
     mkWorld (tasks w) (<[e := mkEvent None false []]> (events w))
       (_uid_iter w) (S e) (trace w)).

Definition write_state (t : nat) (s : TaskState) : M unit :=
  let* _ := update_task t (set_state s) in observe (ObsState t s).

Section Step.

(** Calls made from inside the module go back to the interpreter. *)
Variable recur : call -> M value.

(** Run code until it returns, raises or yields. *)
Fixpoint run_prog {Y} (p : prog Y) : M (stop Y) :=
  match p with
  | Ret v => ret (Returned v)
  | Raise e => ret (Raised e)
  | Do c k =>
      fun w =>
        match recur c w with
        | (Ok v, w') => run_prog (k (Val v)) w'
        | (Exc e, w') => run_prog (k (Err e)) w'
        | (Abort, w') => (Abort, w')
        end
  | Yield y k => ret (Yielded y k)
  end.

(** The loop of [Event.set]: [for step_coro in step_coro_list]. *)
Fixpoint notify (e : nat) (l : list callable) (a : arguments) : M value :=
  match l with
  | [] => ret VNone
  | c :: l' =>
      let* _ := observe (ObsNotify e c a) in
      let* _ := recur (CCall c a) in
      notify e l' a
  end.

(** [Event.set] *)
Definition Event_set (e : nat) (a : arguments) : M value :=
  let* E := get_event e in
  if _flag E then ret VNone
  else
    let* _ := update_event e (fun _ => mkEvent (Some a) true []) in
    notify e (_step_coro_list E) a.

(** [Event.clear] *)
Definition Event_clear (e : nat) : M value :=
  let* _ := update_event e (fun E => mkEvent (_value E) false (_step_coro_list E)) in
  let* _ := observe (ObsClear e) in
  ret VNone.

(** [Event.add_callback] *)
Definition Event_add_callback (e : nat) (c : callable) : M value :=
  let* E := get_event e in
  if _flag E then
    match _value E with
    | Some a => let* _ := recur (CCall c a) in ret VNone
    | None => raise (TypeError "cannot unpack non-iterable NoneType object")
    end
  else
    let* _ := update_event e
                (fun E => mkEvent (_value E) (_flag E) (_step_coro_list E ++ [c])) in
    ret VNone.

(** [Task._wrapper], after the frame of the awaitable is left for good:
    [finally: self._event.set(self)], and the coroutine is closed.  An
    error raised by a waiter replaces what was about to leave the
    coroutine. *)
Definition wrapper_finally (t : nat) (leave : M sent) : M sent :=
  let* T := get_task t in
  let* r := attempt (Event_set (_event T) ([VTask t], [])) in
  let* _ := update_task t (set_root_coro CoroClosed) in
  match r with
  | inl _ => leave
  | inr e => raise e
  end.

(** [Task._wrapper], from the moment [await awaitable] stops: the
    computation is suspended again, or one of the [except] and [else]
    clauses runs and then the [finally] clause. *)
Definition wrapper_exit (t : nat) (s : stop registration) : M sent :=
  match s with
  | Yielded r k =>
      let* _ := update_task t (set_root_coro (CoroSuspended k)) in
      ret (Suspends r)
  | Returned v =>
      let* _ := update_task t (set_result v) in
      let* _ := write_state t DONE in
      wrapper_finally t (ret (StopIteration VNone))
  | Raised e =>
      if is_Exception e then
        let* _ := write_state t CANCELLED in
        let* T := get_task t in
        if _suppresses_exception T then
          let* _ := update_task t (set_exception e) in
          wrapper_finally t (ret (StopIteration VNone))
        else wrapper_finally t (raise e)
      else
        let* _ := write_state t CANCELLED in
        wrapper_finally t (raise e)
  end.

(** Resuming the suspended coroutine of [t] at its [yield]: the
    computation goes on from there and the wrapper takes what it does. *)
Definition coro_resume (t : nat) (k : resume -> coro) (i : resume) : M sent :=
  let* _ := update_task t (set_root_coro CoroRunning) in
  let* s := run_prog (k i) in
  wrapper_exit t s.

(** [self._root_coro.send(v)] *)
Definition coro_send (t : nat) (v : value) : M sent :=
  let* T := get_task t in
  match _root_coro T with
  | CoroCreated p =>
      match v with
      | VNone =>
          let* _ := update_task t (set_root_coro CoroRunning) in
          let* _ := write_state t STARTED in
          let* s := run_prog p in
          wrapper_exit t s
      | _ => raise (TypeError "can't send non-None value to a just-started coroutine")
      end
  | CoroRunning => raise (ValueError "coroutine already executing")
  | CoroSuspended k => coro_resume t k (Sent v)
  | CoroClosed => raise (RuntimeError "cannot reuse already awaited coroutine")
  end.

(** What [close()] raises at the [await] of the wrapper.  The awaitable is
    closed first, with [GeneratorExit] thrown in at its [yield]: if it
    returns, or lets [GeneratorExit] out, its [close()] returns and
    [GeneratorExit] is raised in the wrapper; if it raises another
    exception, that one is raised in the wrapper; if it yields again, its
    [close()] raises [RuntimeError]. *)
Definition close_signal (s : stop registration) : exn :=
  match s with
  | Returned _ => GeneratorExit
  | Raised e => e
  | Yielded _ _ => RuntimeError "generator ignored GeneratorExit"
  end.

(** The part of [self._root_coro.close()] that runs the suspended
    coroutine of [t]: the awaitable is closed, and the wrapper goes on
    from its [await] with the exception that this leaves. *)
Definition coro_throw (t : nat) (k : resume -> coro) : M sent :=
  let* _ := update_task t (set_root_coro CoroRunning) in
  let* s := run_prog (k (Thrown GeneratorExit)) in
  wrapper_exit t (Raised (close_signal s)).

(** [self._root_coro.close()]: a coroutine that was never entered is
    closed without running; a suspended one is run as [coro_throw] says,
    and [close] returns if [GeneratorExit] (or a return) comes out of the
    wrapper. *)
Definition coro_close (t : nat) : M value :=
  let* T := get_task t in
  match _root_coro T with
  | CoroCreated _ =>
      let* _ := update_task t (set_root_coro CoroClosed) in ret VNone
  | CoroRunning => raise (ValueError "coroutine already executing")
  | CoroSuspended k =>
      let* r := attempt (coro_throw t k) in
      match r with
      | inl (Suspends _) => raise (RuntimeError "coroutine ignored GeneratorExit")
      | inl (StopIteration _) => ret VNone
      | inr GeneratorExit => ret VNone
      | inr e => raise e
      end
  | CoroClosed => ret VNone
  end.

(** [Task._actual_cancel] *)
Definition _actual_cancel (t : nat) : M value :=
  let* _ := observe (ObsClose t) in
  coro_close t.

(** [if self._cancel_called and self._is_cancellable: self._actual_cancel()] *)
Definition cancel_check (t : nat) : M value :=
  let* T := get_task t in
  if _cancel_called T && _is_cancellable T then _actual_cancel t else ret VNone.

(** [Task.cancel] *)
Definition Task_cancel (t : nat) : M value :=
  let* _ := update_task t (set_cancel_called true) in
  let* T := get_task t in
  if _is_cancellable T then _actual_cancel t else ret VNone.

(** Calling a registration request with the resume callback [c]. *)
Definition register (r : registration) (c : callable) : M value :=
  match r with
  | RegNone => ret VNone
  | RegCall => recur (CCall c no_arguments)
  | RegSelf => recur (CCall c ([VCallable c], []))
  | RegAppend e =>
      let* _ := update_event e
                  (fun E => mkEvent (_value E) (_flag E) (_step_coro_list E ++ [c])) in
      ret VNone
  | RegFn f => recur (CCall (Fn f) ([VCallable c], []))
  end.

(** The statement shared by [start] and [Task._step_coro]:
    [try: coro.send(v)(step_coro)], [except StopIteration: pass],
    [else:] the cancellation check. *)
Definition drive (t : nat) (v : value) : M value :=
  let* s := coro_send t v in
  match s with
  | StopIteration _ => ret VNone
  | Suspends r =>
      let* _ := register r (StepCoro t) in
      cancel_check t
  end.

(** [Task._step_coro] *)
Definition Task_step_coro (t : nat) (a : arguments) : M value :=
  let* T := get_task t in
  match getcoroutinestate (_root_coro T) with
  | CORO_CLOSED => cancel_check t
  | _ => drive t (pair_of a)
  end.

(** [start] *)
Definition start (x : pyarg) : M value :=
  let* t := match x with
            | Awaitable _ => Task_init x "" VNone
            | TaskObj t =>
                let* T := get_task t in
                match _state T with
                | CREATED => ret t
                | _ => raise (ValueError (Task_str T +:+ " was already started"))
                end
            | Other _ =>
                raise (ValueError "Argument must be either of a Task or an awaitable.")
            end in
  let* _ := drive t VNone in
  ret (VTask t).

(** Calling a function of the embedding program. *)
Definition call_fn (f : nat) (a : arguments) : M value :=
  let* _ := observe (ObsCalled f a) in
  let* s := run_prog (fn_body f a) in
  match s with
  | Returned v => ret v
  | Raised e => raise e
  | Yielded y _ => match y with end
  end.

Definition lift {A} (o : outcome A) : M A := fun w => (o, w).

Definition dispatch (c : call) : M value :=
  match c with
  | CStart t => start (TaskObj t)
  | CCancel t => Task_cancel t
  | CCall (StepCoro t) a => Task_step_coro t a
  | CCall (Fn f) a => call_fn f a
  | CResult t => let* T := get_task t in lift (Task_result T)
  | CState t => let* T := get_task t in ret (VState (_state T))
  | CProtection t d =>
      let* T := get_task t in
      let* _ := update_task t (set_cancel_protection (_cancel_protection T + d)) in
      let* _ := observe (ObsProtection t (_cancel_protection T + d)) in
      ret VNone
  | CSuppress t b =>
      let* _ := update_task t (set_suppresses_exception b) in ret VNone
  | CEventSet e a => Event_set e a
  | CEventClear e => Event_clear e
  | CEventIsSet e => let* E := get_event e in ret (VBool (_flag E))
  | CEventValue e =>
      let* E := get_event e in
      ret (match _value E with Some a => pair_of a | None => VNone end)
  | CEventAddCallback e c => Event_add_callback e c
  end.

End Step.

(** The interpreter: [fuel] bounds the depth of calls that re-enter the
    module. *)
Fixpoint exec (fuel : nat) (c : call) : M value :=
  match fuel with
  | O => abort
  | S fuel' => dispatch (exec fuel') c
  end.

(** What the embedding program (the driver) does at top level. *)
Inductive op :=
| OTask (x : pyarg) (name : string) (userdata : value)   (* Task(x, name=, userdata=) *)
| OStart (x : pyarg)                                     (* start(x) *)
| OEvent                                                 (* Event() *)
| OCall (c : call).

Definition run_op (fuel : nat) (o : op) : M value :=
  match o with
  | OTask x name userdata => let* t := Task_init x name userdata in ret (VTask t)
  | OStart x => start (exec fuel) x
  | OEvent => let* e := Event_init in ret (VEvent e)
  | OCall c => exec fuel c
  end.

(** The stores that the driver can bring about. *)
Inductive reachable : world -> Prop :=
| reachable_empty : reachable empty_world
| reachable_step w fuel o :
    reachable w -> reachable (snd (run_op fuel o w)).

End Core.

(** ** Suspension points and scopes of the module *)

(** What a generator does at a [yield] that is not inside a [try]: it goes on
    with the value sent, and an exception thrown in propagates. *)
Definition resumed {Y} (k : value -> prog Y) (i : resume) : prog Y :=
  match i with Sent v => k v | Thrown e => Raise e end.

(** [sleep_forever]: [yield lambda step_coro: None] *)
Definition sleep_forever : coro :=
  Yield RegNone (resumed (fun _ => Ret VNone)).

(** [x[0][0]] for the [(args, kwargs)] pair [x] *)
Definition first_argument {Y} (x : value) : prog Y :=
  match x with
  | VPair (v :: _) _ => Ret v
  | VPair [] _ => Raise (IndexError "tuple index out of range")
  | _ => Raise (TypeError "object is not subscriptable")
  end.

(** [get_step_coro]: [return (yield lambda step_coro: step_coro(step_coro))[0][0]] *)
Definition get_step_coro : coro :=
  Yield RegSelf (resumed first_argument).

(** [getattr(x, '__self__', None)] *)
Definition getattr_self (x : value) : value :=
  match x with
  | VCallable (StepCoro t) => VTask t
  | _ => VNone
  end.

(** [get_current_task] *)
Definition get_current_task : coro :=
  await get_step_coro (fun x => Ret (getattr_self x)).

(** [task._cancel_protection += d] for the value [task] *)
Definition add_protection (task : value) (d : Z) : coro :=
  match task with
  | VTask t => Do (CProtection t d) (propagate Ret)
  | _ => Raise (AttributeError "'NoneType' object has no attribute '_cancel_protection'")
  end.

(** [async with cancel_protection(): body] *)
Definition cancel_protection (body : coro) : coro :=
  await get_current_task (fun task =>
  await (add_protection task 1) (fun _ =>
  try_finally body (add_protection task (-1)))).

(** [Event.wait] *)
Definition Event_wait (e : nat) : coro :=
  Do (CEventIsSet e) (propagate (fun flag =>
    match flag with
    | VBool true =>
        Yield RegCall (resumed (fun _ => Do (CEventValue e) (propagate Ret)))
    | _ => Yield (RegAppend e) (resumed Ret)
    end)).


(** * The vocabulary of the properties *)

(** ** Assertions about computations *)

(** [hoare P m Q E]: from a store in [P], [m] ends in [Q] when it returns and
    in [E] when it raises or is cut short. *)
Definition hoare {A} (P : world -> Prop) (m : M A) (Q : A -> world -> Prop)
    (E : world -> Prop) : Prop :=
  forall w, P w ->
    match m w with
    | (Ok a, w') => Q a w'
    | (Exc _, w') => E w'
    | (Abort, w') => E w'
    end.

(** [m] keeps the invariant [I], however it ends. *)
Definition preserves {A} (I : world -> Prop) (m : M A) : Prop :=
  hoare I m (fun _ => I) I.

(** ** Running tasks *)

(** Properties of a task that [cancel], the suppression switch and the
    protection scope do not touch. *)
Definition soft_stable (phi : Task -> Prop) : Prop :=
  forall T, phi T ->
    (forall b, phi (set_cancel_called b T))
    /\ (forall b, phi (set_suppresses_exception b T))
    /\ (forall d, phi (set_cancel_protection d T)).

(** The coroutine of task [t] is executing and the task satisfies [phi]. *)
Definition running_sat (t : nat) (phi : Task -> Prop) (w : world) : Prop :=
  exists T, tasks w !! t = Some T /\ _root_coro T = CoroRunning /\ phi T.

(** The coroutine of task [t] is executing and the task's state is [s]. *)
Definition running_as (t : nat) (s : TaskState) : world -> Prop :=
  running_sat t (fun T => _state T = s).

(** ** The atomic steps of the module *)

(** Every change that the module makes to the store, with what the code has
    checked when it makes it.  A run of the interpreter is a sequence of
    these ([exec_steps] below), so a property kept by every step holds
    throughout every run. *)

(** The assignments to [_state] in [Task._wrapper]. *)
Inductive forward : TaskState -> TaskState -> Prop :=
| forward_start : forward CREATED STARTED
| forward_done : forward STARTED DONE
| forward_cancel : forward STARTED CANCELLED.

(** How the state of a coroutine object changes. *)
Definition coro_move (T : Task) (c : coroutine) : Prop :=
  match _root_coro T, c with
  | CoroCreated _, CoroRunning => True
  | CoroCreated _, CoroClosed => True
  | CoroSuspended _, CoroRunning => True
  | CoroRunning, CoroSuspended _ => _state T = STARTED
  | CoroRunning, CoroClosed => ENDED (_state T) = true
  | _, _ => False
  end.

(** One change of the store. *)
Inductive step : world -> world -> Prop :=
| step_new_task w p nm ud :
    step w
      (mkWorld
         (<[_uid_iter w := mkTask nm (_uid_iter w) (CoroCreated p) CREATED None
                             (next_event w) false ud None false 0]> (tasks w))
         (<[next_event w := mkEvent None false []]> (events w))
         (S (_uid_iter w)) (S (next_event w)) (trace w))
| step_new_event w :
    step w
      (mkWorld (tasks w) (<[next_event w := mkEvent None false []]> (events w))
         (_uid_iter w) (S (next_event w)) (trace w))
| step_notify w e c a : step w (add_trace (ObsNotify e c a) w)
| step_called w f a : step w (add_trace (ObsCalled f a) w)
| step_close w t T :
    tasks w !! t = Some T -> _cancel_protection T = 0 ->
    step w (add_trace (ObsClose t) w)
| step_cancel_called w t T b :
    tasks w !! t = Some T ->
    step w (set_tasks (<[t := set_cancel_called b T]> (tasks w)) w)
| step_suppress w t T b :
    tasks w !! t = Some T ->
    step w (set_tasks (<[t := set_suppresses_exception b T]> (tasks w)) w)
| step_protection w t T d :
    tasks w !! t = Some T ->
    step w (add_trace (ObsProtection t d)
              (set_tasks (<[t := set_cancel_protection d T]> (tasks w)) w))
| step_coro w t T c :
    tasks w !! t = Some T -> coro_move T c ->
    step w (set_tasks (<[t := set_root_coro c T]> (tasks w)) w)
| step_state w t T s :
    tasks w !! t = Some T -> _root_coro T = CoroRunning -> forward (_state T) s ->
    (s = DONE -> is_Some (_result T)) ->
    step w (add_trace (ObsState t s) (set_tasks (<[t := set_state s T]> (tasks w)) w))
| step_result w t T v :
    tasks w !! t = Some T -> _root_coro T = CoroRunning -> _state T = STARTED ->
    step w (set_tasks (<[t := set_result v T]> (tasks w)) w)
| step_exception w t T e :
    tasks w !! t = Some T -> _root_coro T = CoroRunning -> _state T = CANCELLED ->
    is_Exception e = true -> _suppresses_exception T = true ->
    step w (set_tasks (<[t := set_exception e T]> (tasks w)) w)
| step_fire w e ev a :
    events w !! e = Some ev -> _flag ev = false ->
    step w (set_events (<[e := mkEvent (Some a) true []]> (events w)) w)
| step_clear w e ev :
    events w !! e = Some ev ->
    step w (add_trace (ObsClear e)
              (set_events (<[e := mkEvent (_value ev) false (_step_coro_list ev)]>
                             (events w)) w))
| step_append w e ev c :
    events w !! e = Some ev ->
    step w (set_events (<[e := mkEvent (_value ev) (_flag ev) (_step_coro_list ev ++ [c])]>
                          (events w)) w).

Definition steps : world -> world -> Prop := rtc step.

(** ** Well-formed stores *)

(** What holds of every task in every store that a run of the module passes
    through ([step_wf], [exec_steps], [reachable_wf] below): its identity is
    its [uid], the coroutine state and the task state agree, a finished task
    has a result, and [_exception] holds ordinary errors of cancelled tasks
    only. *)
Record task_ok (w : world) (t : nat) (T : Task) : Prop := {
  ok_uid : _uid T = t;
  ok_fresh : (t < _uid_iter w)%nat;
  ok_event : is_Some (events w !! _event T);
  ok_created : forall p, _root_coro T = CoroCreated p -> _state T = CREATED;
  ok_suspended : forall k, _root_coro T = CoroSuspended k -> _state T = STARTED;
  ok_closed : _root_coro T = CoroClosed -> _state T <> STARTED;
  ok_result : _state T = DONE -> is_Some (_result T);
  ok_exception : forall e, _exception T = Some e ->
                   is_Exception e = true /\ _state T = CANCELLED;
}.

Record event_ok (w : world) (e : nat) (ev : Event) : Prop := {
  ok_event_fresh : (e < next_event w)%nat;
  ok_payload : _flag ev = true -> is_Some (_value ev);
}.

Record wf (w : world) : Prop := {
  wf_tasks : forall t T, tasks w !! t = Some T -> task_ok w t T;
  wf_events : forall e ev, events w !! e = Some ev -> event_ok w e ev;
}.

(** ** What the trace says *)

(** The states that were assigned to [t._state], in order. *)
Definition state_written (t : nat) (o : obs) : option TaskState :=
  match o with
  | ObsState t' s => if decide (t' = t) then Some s else None
  | _ => None
  end.

(** The history of [t._state] that the trace records. *)
Definition history (t : nat) (tr : list obs) : list TaskState :=
  omap (state_written t) tr.

Arguments history : simpl never.

(** [walk s l s']: the states [l], taken one after the other from [s], each
    move along [forward], and end in [s']. *)
Inductive walk : TaskState -> list TaskState -> TaskState -> Prop :=
| walk_nil s : walk s [] s
| walk_cons s s1 l s' : forward s s1 -> walk s1 l s' -> walk s (s1 :: l) s'.

(** The protection depth of [t] after the trace [tr], from depth [d]. *)
Fixpoint depth_after (t : nat) (d : Z) (tr : list obs) : Z :=
  match tr with
  | [] => d
  | ObsProtection t' d' :: tr' => depth_after t (if decide (t' = t) then d' else d) tr'
  | _ :: tr' => depth_after t d tr'
  end.

(** The trace as the store has it: the state of every task is where its
    history leads, and its protection depth is the last one recorded. *)
Definition trace_ok (w : world) : Prop :=
  forall t,
    match tasks w !! t with
    | Some T =>
        walk CREATED (history t (trace w)) (_state T)
        /\ depth_after t 0 (trace w) = _cancel_protection T
    | None => history t (trace w) = [] /\ depth_after t 0 (trace w) = 0
    end.


(** ** Events in the trace *)

(** The waiters that [Event.set] of event [e] called, with the arguments. *)
Definition notified_by (e : nat) (o : obs) : option (callable * arguments) :=
  match o with
  | ObsNotify e' c a => if decide (e' = e) then Some (c, a) else None
  | _ => None
  end.

(** The calls that [e.set] made to waiters, in order. *)
Definition notified (e : nat) (tr : list obs) : list (callable * arguments) :=
  omap (notified_by e) tr.

Arguments notified : simpl never.

(** Event [e] is fired with payload [a]. *)
Definition fired (e : nat) (a : arguments) (w : world) : Prop :=
  exists ev, events w !! e = Some ev /\ _flag ev = true /\ _value ev = Some a.

(** Since the trace was [tr0]: [e.clear()] has been called, or (when [K])
    [e] is still fired with payload [a] and [e.set] has called no waiter. *)
Definition kept (e : nat) (a : arguments) (tr0 : list obs) (K : Prop) (w : world) : Prop :=
  exists l, trace w = tr0 ++ l
    /\ (ObsClear e ∈ l \/ (K /\ notified e l = [] /\ fired e a w)).

(** ** How calls end *)

(** [triple P m Q X]: from a store in [P], [m] ends in [Q] when it returns
    and in [X] when it raises; nothing is said of a run that is cut short. *)
Definition triple {A} (P : world -> Prop) (m : M A) (Q : A -> world -> Prop)
    (X : exn -> world -> Prop) : Prop :=
  forall w, P w ->
    match m w with
    | (Ok a, w') => Q a w'
    | (Exc x, w') => X x w'
    | (Abort, _) => True
    end.




(** ** Sleep and protection *)

(** A started task that sleeps: it is suspended at the [yield] of
    [sleep_forever]. *)
Definition sleeping (T : Task) : Prop :=
  _root_coro T = CoroSuspended (resumed (fun _ => Ret VNone)).

(** The store after [task._cancel_protection += d]. *)
Definition protect (t : nat) (d : Z) (T : Task) (w : world) : world :=
  add_trace (ObsProtection t (_cancel_protection T + d))
    (set_tasks (<[t := set_cancel_protection (_cancel_protection T + d) T]> (tasks w)) w).

(** ** The except clauses of the wrapper *)



(** ** Closing a suspended coroutine *)




(** ** The calls of one set *)

(** Since the trace was [tr0]: [E.clear()] has been called, or [E] is fired
    with payload [a] and the calls that [E.set] has made to waiters are [n],
    in this order. *)
Definition set_so_far (E : nat) (a : arguments) (tr0 : list obs)
    (n : list (callable * arguments)) (w : world) : Prop :=
  exists d, trace w = tr0 ++ d
    /\ (ObsClear E ∈ d \/ (notified E d = n /\ fired E a w)).

(** ** Calling the waiters *)

(** The store when [E.set(a)] has marked the event as set, stored the
    payload and taken the waiters away, and has not called anybody yet. *)
Definition fire (E : nat) (a : arguments) (w : world) : world :=
  set_events (<[E := mkEvent (Some a) true []]> (events w)) w.

(** [called_in_order recur e a l w o w' cs]: from the store [w], the waiters
    [l] of the event [e] are called with the arguments [a], one after the
    other, each in the store that the one before left, until one of them
    does not return.  Every call is recorded in the trace just before it
    is made; [cs] are the waiters that were called, [o] is how the last call
    ended ([Ok VNone] when there was nobody to call), and [w'] is the
    store then. *)
Inductive called_in_order (recur : call -> M value) (e : nat) (a : arguments) :
    list callable -> world -> outcome value -> world -> list callable -> Prop :=
| called_none w : called_in_order recur e a [] w (Ok VNone) w []
| called_next c l w v w1 o w' cs :
    recur (CCall c a) (add_trace (ObsNotify e c a) w) = (Ok v, w1) ->
    called_in_order recur e a l w1 o w' cs ->
    called_in_order recur e a (c :: l) w o w' (c :: cs)
| called_last c l w o w' :
    recur (CCall c a) (add_trace (ObsNotify e c a) w) = (o, w') ->
    (forall v, o <> Ok v) ->
    called_in_order recur e a (c :: l) w o w' [c].

(** ** A concrete embedding program *)

(** [repr] of a string without quotes or escapes in it. *)
Definition example_repr (s : string) : string := "'" +:+ s +:+ "'".

(** [str] of a value that is neither a task nor awaitable. *)
Definition example_str (v : value) : string :=
  match v with
  | VNone => "None"
  | VStr s => s
  | _ => "<object>"
  end.

(** The functions of the program: function 1 raises, the others return. *)
Definition example_fn (f : nat) (a : arguments) : code :=
  match f with
  | 0%nat => Ret VNone
  | 1%nat => Raise (UserError 7)
  | _ => Ret (pair_of a)
  end.

(** The driver runs the operations [l], one after the other. *)
Definition run_ops (fuel : nat) (l : list op) (w : world) : world :=
  fold_left (fun w o => snd (run_op example_repr example_str example_fn fuel o w)) l w.

(** [B = Task(sleep_forever(), name='B')] *)
Definition created_world : world :=
  run_ops 4 [OTask (Awaitable sleep_forever) "B" VNone] empty_world.

(** [B = Task(sleep_forever(), name='B'); start(B)] *)
Definition sleeping_world : world :=
  run_ops 4 [OStart (TaskObj 0)] created_world.

(** [B] as the store has it then. *)
Definition sleeper : Task :=
  mkTask "B" 0 (CoroSuspended (resumed (fun _ => Ret VNone))) STARTED None 0 false VNone
    None false 0.


(** The store while the wrapper of [B] runs: [B._root_coro] is executing. *)
Definition running_world : world :=
  snd (update_task 0 (set_root_coro CoroRunning) sleeping_world).

(** [start(returns_42())] *)
Definition done_world : world :=
  run_ops 4 [OStart (Awaitable (Ret (VInt 42)))] empty_world.

(** The finished task as the store has it then. *)
Definition finished : Task :=
  mkTask "" 0 CoroClosed DONE (Some (VInt 42)) 0 false VNone None false 0.

(** A task that sleeps inside a protection scope and once more after it:
    [async with cancel_protection(): await sleep_forever()] and then
    [await sleep_forever()]. *)
Definition protected_sleeper : coro :=
  await (cancel_protection sleep_forever) (fun _ => sleep_forever).

(** [start(protected_sleeper())] *)
Definition protected_world : world :=
  run_ops 4 [OStart (Awaitable protected_sleeper)] empty_world.

(** [E = Event(); E.add_callback(f0); E.add_callback(f2)] *)
Definition event_world : world :=
  run_ops 4 [OEvent; OCall (CEventAddCallback 0 (Fn 0)); OCall (CEventAddCallback 0 (Fn 2))]
    empty_world.

(** [E = Event(); E.set(1)] *)
Definition fired_world : world :=
  run_ops 4 [OEvent; OCall (CEventSet 0 ([VInt 1], []))] empty_world.

(** The task [B] before it is started. *)
Definition newborn : Task :=
  mkTask "B" 0 (CoroCreated sleep_forever) CREATED None 0 false VNone None false 0.

(** [B.cancel()] in a protection scope, and then the step that ends the sleep
    in the scope. *)
Definition deferred_world : world :=
  run_ops 4 [OCall (CCancel 0); OCall (CCall (StepCoro 0) no_arguments)] protected_world.





(** A computation that returns when it is closed:
    [try: await sleep_forever()] with [except GeneratorExit: return 5]. *)
Definition returns_on_close : coro :=
  Yield RegNone (fun i => match i with
                          | Sent _ => Ret VNone
                          | Thrown GeneratorExit => Ret (VInt 5)
                          | Thrown e => Raise e
                          end).

(** A computation that yields again when it is closed:
    [try: await sleep_forever()] with [except GeneratorExit: await sleep_forever()]. *)
Definition yields_on_close : coro :=
  Yield RegNone (fun i => match i with
                          | Sent _ => Ret VNone
                          | Thrown GeneratorExit => sleep_forever
                          | Thrown e => Raise e
                          end).

(** [E = Event(); E.add_callback(f1); E.add_callback(f2)]: the first waiter
    raises when it is called. *)
Definition failing_event_world : world :=
  run_ops 4 [OEvent; OCall (CEventAddCallback 0 (Fn 1)); OCall (CEventAddCallback 0 (Fn 2))]
    empty_world.

(** * The vocabulary of the further properties *)

(** ** The else clause of the wrapper *)

(** The store after the [else] clause of [Task._wrapper] has run: the
    result [v] is stored and the state is Done. *)
Definition else_clause (t : nat) (T : Task) (v : value) (w : world) : world :=
  add_trace (ObsState t DONE)
    (set_tasks (<[t := set_state DONE (set_result v T)]>
                  (tasks (set_tasks (<[t := set_result v T]> (tasks w)) w)))
       (set_tasks (<[t := set_result v T]> (tasks w)) w)).

(** ** What never changes *)

(** [T'] is the task [T] later on: the attributes given at construction are
    the same. *)
Definition same_task (T T' : Task) : Prop :=
  _uid T' = _uid T /\ name T' = name T /\ userdata T' = userdata T /\ _event T' = _event T.

(** [T'] has the closed coroutine, the state, the result and the captured
    exception of [T]. *)
Definition settled (T T' : Task) : Prop :=
  _root_coro T' = CoroClosed /\ _state T' = _state T /\ _result T' = _result T
  /\ _exception T' = _exception T.

(** ** Coroutines that are executing *)

(** [keeps I m]: [m] keeps the invariant [I] when it returns and when it
    raises; nothing is said of a run that is cut short. *)
Definition keeps {A} (I : world -> Prop) (m : M A) : Prop :=
  triple I m (fun _ => I) (fun _ => I).

(** The coroutine of task [t] is executing. *)
Definition is_running (w : world) (t : nat) : Prop :=
  exists T, tasks w !! t = Some T /\ _root_coro T = CoroRunning.

(** The tasks whose coroutine is executing are those in [R] (and the uids in
    use are below the counter). *)
Definition runs (R : nat -> Prop) (w : world) : Prop :=
  (forall t T, tasks w !! t = Some T -> (t < _uid_iter w)%nat)
  /\ forall t, is_running w t <-> R t.

(** No coroutine is executing. *)
Definition quiet (w : world) : Prop :=
  forall t T, tasks w !! t = Some T -> getcoroutinestate (_root_coro T) <> CORO_RUNNING.

(** The stores that the driver brings about by operations that come to an
    end (none is cut short for lack of fuel). *)
Inductive completed (py_repr : string -> string) (py_str : value -> string)
    (fn_body : nat -> arguments -> code) : world -> Prop :=
| completed_empty : completed py_repr py_str fn_body empty_world
| completed_step w fuel o :
    completed py_repr py_str fn_body w ->
    fst (run_op py_repr py_str fn_body fuel o w) <> Abort ->
    completed py_repr py_str fn_body (snd (run_op py_repr py_str fn_body fuel o w)).

(** ** More stores of the concrete program *)

(** [B = Task(sleep_forever(), name='B'); start(B); B.cancel()] *)
Definition cancelled_world : world :=
  run_ops 4 [OCall (CCancel 0)] sleeping_world.

(** [B] as the store has it then. *)
Definition cancelled_sleeper : Task :=
  mkTask "B" 0 CoroClosed CANCELLED None 0 true VNone None false 0.

(** [B = Task(sleep_forever(), name='B'); B.cancel()] *)
Definition closed_created_world : world :=
  run_ops 4 [OCall (CCancel 0)] created_world.

(** [E = Event()] *)
Definition one_event_world : world :=
  run_ops 4 [OEvent] empty_world.

(** The sleeping task [B] with the function [f2] waiting for it to end:
    [B._event.add_callback(f2)]. *)
Definition observed_world : world :=
  run_ops 4 [OCall (CEventAddCallback 0 (Fn 2))] sleeping_world.

(** The same while the wrapper of [B] runs. *)
Definition observed_running_world : world :=
  snd (update_task 0 (set_root_coro CoroRunning) observed_world).

(** * The properties *)

(** ** A program logic for the monad *)

Lemma hoare_ret {A} (P : world -> Prop) (a : A) Q E :
  (forall w, P w -> Q a w) -> hoare P (ret a) Q E.
Proof. intros H w Hw. simpl. auto. Qed.

Lemma hoare_raise {A} (P : world -> Prop) e (Q : A -> world -> Prop) (E : world -> Prop) :
  (forall w, P w -> E w) -> hoare P (raise e) Q E.
Proof. intros H w Hw. simpl. auto. Qed.

Lemma hoare_abort {A} (P : world -> Prop) (Q : A -> world -> Prop) (E : world -> Prop) :
  (forall w, P w -> E w) -> hoare P abort Q E.
Proof. intros H w Hw. simpl. auto. Qed.

Lemma hoare_lift {A} (P : world -> Prop) (o : outcome A) (Q : A -> world -> Prop)
    (E : world -> Prop) :
  (forall w, P w -> E w) -> (forall a w, P w -> Q a w) -> hoare P (lift o) Q E.
Proof. intros HE HQ w Hw. unfold lift. destruct o; auto. Qed.

Lemma hoare_bind {A B} (P : world -> Prop) (m : M A) (k : A -> M B) R Q E :
  hoare P m R E -> (forall a, hoare (R a) (k a) Q E) -> hoare P (bind m k) Q E.
Proof.
  intros Hm Hk w Hw. unfold bind. specialize (Hm w Hw).
  destruct (m w) as [[a|e|] w']; auto. apply (Hk a w' Hm).
Qed.

Lemma hoare_conseq {A} (P P' : world -> Prop) (m : M A) (Q Q' : A -> world -> Prop)
    (E E' : world -> Prop) :
  hoare P' m Q' E' -> (forall w, P w -> P' w) -> (forall a w, Q' a w -> Q a w) ->
  (forall w, E' w -> E w) -> hoare P m Q E.
Proof.
  intros H HP HQ HE w Hw. specialize (H w (HP w Hw)).
  destruct (m w) as [[a|e|] w']; auto.
Qed.

Lemma hoare_pre {A} (P P' : world -> Prop) (m : M A) Q E :
  hoare P' m Q E -> (forall w, P w -> P' w) -> hoare P m Q E.
Proof. intros H HP. eapply hoare_conseq; eauto. Qed.

(** A fact that does not speak about the store can be taken out of the
    precondition. *)
Lemma hoare_pure {A} (phi : Prop) (P : world -> Prop) (m : M A) Q E :
  (forall w, P w -> phi) -> (phi -> hoare P m Q E) -> hoare P m Q E.
Proof. intros Hphi H w Hw. exact (H (Hphi w Hw) w Hw). Qed.

Lemma hoare_and {A} (P1 P2 : world -> Prop) (m : M A) (Q1 Q2 : A -> world -> Prop)
    (E1 E2 : world -> Prop) :
  hoare P1 m Q1 E1 -> hoare P2 m Q2 E2 ->
  hoare (fun w => P1 w /\ P2 w) m (fun a w => Q1 a w /\ Q2 a w) (fun w => E1 w /\ E2 w).
Proof.
  intros H1 H2 w [Hw1 Hw2]. specialize (H1 w Hw1). specialize (H2 w Hw2).
  destruct (m w) as [[a|e|] w']; auto.
Qed.

Lemma hoare_attempt {A} (P : world -> Prop) (m : M A) (Q : A -> world -> Prop)
    (E : world -> Prop) :
  hoare P m Q E ->
  hoare P (attempt m) (fun r w => match r with inl a => Q a w | inr _ => E w end) E.
Proof.
  intros H w Hw. unfold attempt. specialize (H w Hw).
  destruct (m w) as [[a|e|] w']; auto.
Qed.

Lemma hoare_get_task (P : world -> Prop) t E :
  (forall w, P w -> E w) ->
  hoare P (get_task t) (fun T w => P w /\ tasks w !! t = Some T) E.
Proof.
  intros HE w Hw. unfold get_task. destruct (tasks w !! t) eqn:Ht; auto.
Qed.

Lemma hoare_get_event (P : world -> Prop) e E :
  (forall w, P w -> E w) ->
  hoare P (get_event e) (fun ev w => P w /\ events w !! e = Some ev) E.
Proof.
  intros HE w Hw. unfold get_event. destruct (events w !! e) eqn:He; auto.
Qed.

Lemma hoare_modify (P : world -> Prop) f (Q : unit -> world -> Prop) E :
  (forall w, P w -> Q tt (f w)) -> hoare P (modify f) Q E.
Proof. intros H w Hw. simpl. auto. Qed.

Lemma hoare_update_task (P : world -> Prop) t f (Q : unit -> world -> Prop)
    (E : world -> Prop) :
  (forall w, P w -> E w) ->
  (forall w T, P w -> tasks w !! t = Some T -> Q tt (set_tasks (<[t := f T]> (tasks w)) w)) ->
  hoare P (update_task t f) Q E.
Proof.
  intros HE H w Hw. unfold update_task, bind, get_task, modify.
  destruct (tasks w !! t) eqn:Ht; simpl; auto.
Qed.

Lemma hoare_update_event (P : world -> Prop) e f (Q : unit -> world -> Prop)
    (E : world -> Prop) :
  (forall w, P w -> E w) ->
  (forall w ev, P w -> events w !! e = Some ev ->
     Q tt (set_events (<[e := f ev]> (events w)) w)) ->
  hoare P (update_event e f) Q E.
Proof.
  intros HE H w Hw. unfold update_event, bind, get_event, modify.
  destruct (events w !! e) eqn:He; simpl; auto.
Qed.

Lemma hoare_observe (P : world -> Prop) o (Q : unit -> world -> Prop) E :
  (forall w, P w -> Q tt (add_trace o w)) -> hoare P (observe o) Q E.
Proof. intros H. apply hoare_modify. exact H. Qed.

(** ** Keeping an invariant *)

Lemma preserves_ret {A} (I : world -> Prop) (a : A) : preserves I (ret a).
Proof. by apply hoare_ret. Qed.

Lemma preserves_raise {A} (I : world -> Prop) e : preserves I (@raise A e).
Proof. by apply hoare_raise. Qed.

Lemma preserves_abort {A} (I : world -> Prop) : preserves I (@abort A).
Proof. by apply hoare_abort. Qed.

Lemma preserves_lift {A} (I : world -> Prop) (o : outcome A) : preserves I (lift o).
Proof. by apply hoare_lift. Qed.

Lemma preserves_bind {A B} (I : world -> Prop) (m : M A) (k : A -> M B) :
  preserves I m -> (forall a, preserves I (k a)) -> preserves I (bind m k).
Proof. intros Hm Hk. eapply hoare_bind; [exact Hm|exact Hk]. Qed.

Lemma preserves_attempt {A} (I : world -> Prop) (m : M A) :
  preserves I m -> preserves I (attempt m).
Proof.
  intros H. eapply hoare_conseq; [apply hoare_attempt, H|auto..].
  intros [a|e] w; auto.
Qed.

Lemma preserves_observe (I : world -> Prop) o :
  (forall w, I w -> I (add_trace o w)) -> preserves I (observe o).
Proof. intros H. by apply hoare_observe. Qed.

(** After [get_task], what follows may use any fact about the task that
    holds in some store of the invariant. *)
Lemma preserves_get_task {B} (I : world -> Prop) t (k : Task -> M B) :
  (forall T, (exists w, I w /\ tasks w !! t = Some T) -> preserves I (k T)) ->
  preserves I (bind (get_task t) k).
Proof.
  intros H w Hw. unfold bind, get_task.
  destruct (tasks w !! t) as [T|] eqn:HT; [|done].
  apply (H T); eauto.
Qed.

Lemma preserves_get_event {B} (I : world -> Prop) e (k : Event -> M B) :
  (forall ev, (exists w, I w /\ events w !! e = Some ev) -> preserves I (k ev)) ->
  preserves I (bind (get_event e) k).
Proof.
  intros H w Hw. unfold bind, get_event.
  destruct (events w !! e) as [ev|] eqn:He; [|done].
  apply (H ev); eauto.
Qed.

Lemma preserves_update_task (I : world -> Prop) t f :
  (forall w T, I w -> tasks w !! t = Some T -> I (set_tasks (<[t := f T]> (tasks w)) w)) ->
  preserves I (update_task t f).
Proof. intros H. apply hoare_update_task; auto. Qed.

Lemma preserves_update_event (I : world -> Prop) e f :
  (forall w ev, I w -> events w !! e = Some ev ->
     I (set_events (<[e := f ev]> (events w)) w)) ->
  preserves I (update_event e f).
Proof. intros H. apply hoare_update_event; auto. Qed.

(** ** Frame: a running coroutine is left alone *)

Lemma soft_stable_state s : soft_stable (fun T => _state T = s).
Proof. intros T HT. auto. Qed.

#[global] Hint Resolve soft_stable_state : core.

Lemma running_sat_trace t phi o w : running_sat t phi w -> running_sat t phi (add_trace o w).
Proof. intros H. exact H. Qed.

Lemma running_sat_events t phi m w :
  running_sat t phi w -> running_sat t phi (set_events m w).
Proof. intros H. exact H. Qed.

Lemma running_sat_other t phi t' T' w :
  t' <> t -> running_sat t phi w ->
  running_sat t phi (set_tasks (<[t' := T']> (tasks w)) w).
Proof.
  intros Hne (T & HT & Hc & Hs). exists T. simpl.
  rewrite lookup_insert_ne by done. auto.
Qed.

Lemma running_sat_soft t phi t' T' w :
  soft_stable phi ->
  running_sat t phi w -> tasks w !! t' = Some T' ->
  (forall b, running_sat t phi (set_tasks (<[t' := set_cancel_called b T']> (tasks w)) w))
  /\ (forall b, running_sat t phi
                  (set_tasks (<[t' := set_suppresses_exception b T']> (tasks w)) w))
  /\ (forall d, running_sat t phi
                  (set_tasks (<[t' := set_cancel_protection d T']> (tasks w)) w)).
Proof.
  intros Hphi H HT'. destruct (decide (t' = t)) as [->|Hne].
  - destruct H as (T & HT & HcT & HsT). simplify_eq.
    destruct (Hphi _ HsT) as (H1 & H2 & H3).
    repeat split; intros x; eexists; (split; [apply lookup_insert_eq|]); cbn; auto.
  - repeat split; intros; by apply running_sat_other.
Qed.

Lemma running_sat_neq t phi t' T' :
  (exists w, running_sat t phi w /\ tasks w !! t' = Some T') ->
  _root_coro T' <> CoroRunning -> t' <> t.
Proof. intros (w & (T & HT & Hc & _) & HT') Hn ->. simplify_eq. Qed.

Create HintDb frame.

#[global] Hint Resolve preserves_ret preserves_raise preserves_abort : frame.

Section Frame.

Variable py_repr : string -> string.
Variable py_str : value -> string.
Variable fn_body : nat -> arguments -> code.
Variables (t : nat) (phi : Task -> Prop).
Hypothesis Hphi : soft_stable phi.

Local Abbreviation I := (running_sat t phi).

Local Ltac frame :=
  repeat
    lazymatch goal with
    | |- preserves _ (ret _) => apply preserves_ret
    | |- preserves _ (raise _) => apply preserves_raise
    | |- preserves _ abort => apply preserves_abort
    | |- preserves _ (lift _) => apply preserves_lift
    | |- preserves _ (observe _) =>
        apply preserves_observe; intros ? ?; by apply running_sat_trace
    | |- preserves _ (update_event _ _) =>
        apply preserves_update_event; intros ? ? ? ?; by apply running_sat_events
    | |- preserves _ (update_task _ _) =>
        apply preserves_update_task; intros ? ? ? ?;
        first [ by apply running_sat_other
              | by eapply running_sat_soft ]
    | |- preserves _ (attempt _) => apply preserves_attempt
    | |- preserves _ (bind (get_task _) _) => apply preserves_get_task; intros ? ?
    | |- preserves _ (bind (get_event _) _) => apply preserves_get_event; intros ? ?
    | |- preserves _ (bind _ _) => apply preserves_bind; [|intros ?]
    | |- preserves _ (match ?x with _ => _ end) => destruct x eqn:?
    | |- preserves _ _ => solve [eauto with frame]
    end.

Lemma write_state_running t' s' : t' <> t -> preserves I (write_state t' s').
Proof. intros Hne. unfold write_state. frame. Qed.

Local Hint Resolve write_state_running : frame.

Section FrameHelpers.

Variable recur : call -> M value.
Hypothesis Hrec : forall c, preserves I (recur c).

Lemma run_prog_running {Y} (p : prog Y) : preserves I (run_prog recur p).
Proof.
  induction p as [v|e|c k IH|y k IH]; cbn [run_prog]; [frame..| |frame].
  intros w Hw. specialize (Hrec c w Hw).
  destruct (recur c w) as [[v|e|] w']; [apply IH|apply IH|]; done.
Qed.

Lemma notify_running e l a : preserves I (notify recur e l a).
Proof. induction l as [|c l IH]; cbn [notify]; frame. Qed.

Local Hint Resolve run_prog_running notify_running : frame.

Lemma Event_set_running e a : preserves I (Event_set recur e a).
Proof. unfold Event_set. frame. Qed.

Lemma Event_clear_running e : preserves I (Event_clear e).
Proof. unfold Event_clear. frame. Qed.

Lemma Event_add_callback_running e c : preserves I (Event_add_callback recur e c).
Proof. unfold Event_add_callback. frame. Qed.

Local Hint Resolve Event_set_running Event_clear_running
  Event_add_callback_running : frame.

Lemma wrapper_finally_running t' leave :
  t' <> t -> preserves I leave -> preserves I (wrapper_finally recur t' leave).
Proof. intros Hne Hl. unfold wrapper_finally. frame. Qed.

Local Hint Resolve wrapper_finally_running : frame.

Lemma wrapper_exit_running t' st :
  t' <> t -> preserves I (wrapper_exit recur t' st).
Proof. intros Hne. unfold wrapper_exit. frame. Qed.

Local Hint Resolve wrapper_exit_running : frame.

Lemma coro_resume_running t' k i :
  t' <> t -> preserves I (coro_resume recur t' k i).
Proof. intros Hne. unfold coro_resume. frame. Qed.

Lemma coro_throw_running t' k :
  t' <> t -> preserves I (coro_throw recur t' k).
Proof. intros Hne. unfold coro_throw. frame. Qed.

Local Hint Resolve coro_resume_running coro_throw_running : frame.

Lemma coro_send_running t' v : preserves I (coro_send recur t' v).
Proof.
  unfold coro_send. apply preserves_get_task. intros T HT.
  destruct (_root_coro T) as [p| |k|] eqn:Hc; [|frame| |frame];
    (assert (t' <> t) by (eapply running_sat_neq; [done|congruence])); frame.
Qed.

Lemma coro_close_running t' : preserves I (coro_close recur t').
Proof.
  unfold coro_close. apply preserves_get_task. intros T HT.
  destruct (_root_coro T) as [p| |k|] eqn:Hc; [|frame| |frame];
    (assert (t' <> t) by (eapply running_sat_neq; [done|congruence])); frame.
Qed.

Local Hint Resolve coro_send_running coro_close_running : frame.

Lemma _actual_cancel_running t' : preserves I (_actual_cancel recur t').
Proof. unfold _actual_cancel. frame. Qed.

Local Hint Resolve _actual_cancel_running : frame.

Lemma cancel_check_running t' : preserves I (cancel_check recur t').
Proof. unfold cancel_check. frame. Qed.

Lemma Task_cancel_running t' : preserves I (Task_cancel recur t').
Proof. unfold Task_cancel. frame. Qed.

Lemma register_running r c : preserves I (register recur r c).
Proof. unfold register. frame. Qed.

Local Hint Resolve cancel_check_running Task_cancel_running register_running : frame.

Lemma drive_running t' v : preserves I (drive recur t' v).
Proof. unfold drive. frame. Qed.

Local Hint Resolve drive_running : frame.

Lemma Task_step_coro_running t' a : preserves I (Task_step_coro recur t' a).
Proof. unfold Task_step_coro. frame. Qed.

Lemma call_fn_running f a : preserves I (call_fn fn_body recur f a).
Proof. unfold call_fn. frame. Qed.

Lemma start_task_running t' : preserves I (start py_repr py_str recur (TaskObj t')).
Proof. unfold start. frame. Qed.

Local Hint Resolve Task_step_coro_running call_fn_running start_task_running : frame.

Lemma dispatch_running c : preserves I (dispatch py_repr py_str fn_body recur c).
Proof. unfold dispatch. frame. Qed.

End FrameHelpers.

Lemma exec_running fuel c : preserves I (exec py_repr py_str fn_body fuel c).
Proof.
  revert c. induction fuel as [|fuel IH]; intros c; cbn [exec].
  - apply preserves_abort.
  - by apply dispatch_running.
Qed.

End Frame.

(** ** Every step keeps the store well formed *)

Lemma wf_empty : wf empty_world.
Proof. split; intros ? ?; simpl; rewrite lookup_empty; done. Qed.

Lemma forward_not_created s s' : forward s s' -> s' <> CREATED.
Proof. by destruct 1. Qed.

Lemma step_wf w w' : step w w' -> wf w -> wf w'.
Proof.
  intros Hstep [Ht He].
  destruct Hstep; split; simpl; intros x X HX;
    repeat match goal with
    | H : <[_ := _]> _ !! _ = Some _ |- _ =>
        apply lookup_insert_Some in H; destruct H as [[<- <-]|[? H]]
    end;
    try match goal with
    | H : tasks _ !! _ = Some _ |- task_ok _ _ _ => pose proof (Ht _ _ H) as []
    | H : events _ !! _ = Some _ |- event_ok _ _ _ => pose proof (He _ _ H) as []
    end;
    try match goal with
    | H : tasks _ !! _ = Some ?T |- task_ok _ _ (_ ?T) => pose proof (Ht _ _ H) as []
    end.
  all: try (split; simpl in *; eauto; try lia; try done;
            try (rewrite lookup_insert_is_Some'; by eauto)).
  all: intros; unfold coro_move in *;
    repeat match goal with
    | H : forall e, _exception ?T = Some e -> _, H' : _exception ?T = Some _ |- _ =>
        destruct (H _ H'); clear H
    | H : forward _ _ |- _ => destruct H
    | H : context [match _root_coro ?T with _ => _ end] |- _ =>
        destruct (_root_coro T) eqn:?
    | H : context [match ?c with CoroCreated _ => _ | _ => _ end] |- _ =>
        is_var c; destruct c
    end;
    simplify_eq; try done; try congruence; eauto.
  all: repeat match goal with
       | H : forall p, CoroCreated _ = CoroCreated p -> _ |- _ =>
           specialize (H _ eq_refl)
       end;
       destruct (_state T); simplify_eq; done.
Qed.

Lemma steps_wf w w' : steps w w' -> wf w -> wf w'.
Proof. induction 1; eauto using step_wf. Qed.

(** ** Every run is a sequence of atomic steps *)

Lemma lookup_upd t T w : tasks (set_tasks (<[t := T]> (tasks w)) w) !! t = Some T.
Proof. cbn. apply lookup_insert_eq. Qed.

Lemma steps_r w0 w w' : steps w0 w -> step w w' -> steps w0 w'.
Proof. intros H1 H2. eapply rtc_r; eauto. Qed.

Lemma hoare_get_task_bind {B} (P : world -> Prop) t (k : Task -> M B) Q (E : world -> Prop) :
  (forall w, P w -> E w) ->
  (forall T, hoare (fun w => P w /\ tasks w !! t = Some T) (k T) Q E) ->
  hoare P (bind (get_task t) k) Q E.
Proof.
  intros HE H. eapply hoare_bind; [apply hoare_get_task, HE|]. exact H.
Qed.

Lemma hoare_get_event_bind {B} (P : world -> Prop) e (k : Event -> M B) Q
    (E : world -> Prop) :
  (forall w, P w -> E w) ->
  (forall ev, hoare (fun w => P w /\ events w !! e = Some ev) (k ev) Q E) ->
  hoare P (bind (get_event e) k) Q E.
Proof.
  intros HE H. eapply hoare_bind; [apply hoare_get_event, HE|]. exact H.
Qed.

(** Sequencing through an explicit intermediate assertion. *)
Lemma hoare_seq {A B} (R : world -> Prop) (P : world -> Prop) (m : M A) (k : A -> M B) Q
    (E : world -> Prop) :
  hoare P m (fun _ => R) E -> (forall a, hoare R (k a) Q E) -> hoare P (bind m k) Q E.
Proof. intros Hm Hk. eapply hoare_bind; [exact Hm|exact Hk]. Qed.

Lemma with_frame {A} (I : world -> Prop) t s (m : M A) :
  preserves I m -> preserves (running_as t s) m ->
  preserves (fun w => I w /\ running_as t s w) m.
Proof.
  intros H1 H2. eapply hoare_conseq; [apply (hoare_and _ _ _ _ _ _ _ H1 H2)|..]; simpl;
    intuition.
Qed.

Lemma hoare_weaken_exc {A} (P : world -> Prop) (m : M A) Q (E E' : world -> Prop) :
  hoare P m Q E' -> (forall w, E' w -> E w) -> hoare P m Q E.
Proof. intros H HE. eapply hoare_conseq; eauto. Qed.

Lemma hoare_attempt_inv {A} (P I : world -> Prop) (m : M A) :
  hoare P m (fun _ => I) I -> hoare P (attempt m) (fun _ => I) I.
Proof.
  intros H. eapply hoare_conseq; [apply hoare_attempt, H|auto..].
  intros [a|e] w; auto.
Qed.

Create HintDb refine.

#[global] Hint Resolve preserves_ret preserves_raise preserves_abort : refine.

Section Refine.

Variable py_repr : string -> string.
Variable py_str : value -> string.
Variable fn_body : nat -> arguments -> code.
Variable w0 : world.
Hypothesis Hwf0 : wf w0.

Local Abbreviation St := (steps w0).

Local Ltac refine_steps :=
  repeat
    lazymatch goal with
    | |- preserves _ (ret _) => apply preserves_ret
    | |- preserves _ (raise _) => apply preserves_raise
    | |- preserves _ abort => apply preserves_abort
    | |- preserves _ (lift _) => apply preserves_lift
    | |- preserves _ (observe _) =>
        apply preserves_observe; intros ? ?; (eapply steps_r; [eassumption|]);
        solve [econstructor; eauto]
    | |- preserves _ (update_event _ _) =>
        apply preserves_update_event; intros ? ? ? ?; (eapply steps_r; [eassumption|]);
        solve [econstructor; eauto]
    | |- preserves _ (update_task _ _) =>
        apply preserves_update_task; intros ? ? ? ?; (eapply steps_r; [eassumption|]);
        solve [econstructor; eauto]
    | |- preserves _ (attempt _) => apply preserves_attempt
    | |- preserves _ (bind (get_task _) _) => apply preserves_get_task; intros ? ?
    | |- preserves _ (bind (get_event _) _) => apply preserves_get_event; intros ? ?
    | |- preserves _ (bind _ _) => apply preserves_bind; [|intros ?]
    | |- preserves _ (match ?x with _ => _ end) => destruct x eqn:?
    | |- preserves _ _ => solve [eauto with refine]
    end.

(** [t._state = s] while the coroutine of [t] runs. *)
Lemma write_state_steps t s0 s :
  forward s0 s ->
  hoare (fun w => St w /\ exists T, tasks w !! t = Some T /\ _root_coro T = CoroRunning
                    /\ _state T = s0 /\ (s = DONE -> is_Some (_result T)))
    (write_state t s) (fun _ w => St w /\ running_as t s w) St.
Proof.
  intros Hf w (HS & T & HT & Hc & Hs & Hr).
  unfold write_state, bind, update_task, get_task, observe, modify, bind. rewrite HT.
  split.
  - eapply steps_r; [done|]. apply step_state; auto. by rewrite Hs.
  - eexists. split; [apply lookup_upd|]. cbn; eauto.
Qed.

Section RefineHelpers.

Variable recur : call -> M value.
Hypothesis Hrec : forall c, preserves St (recur c).
Hypothesis HrecR :
  forall t phi, soft_stable phi -> forall c, preserves (running_sat t phi) (recur c).

Lemma run_prog_steps {Y} (p : prog Y) : preserves St (run_prog recur p).
Proof.
  induction p as [v|e|c k IH|y k IH]; cbn [run_prog]; [refine_steps..| |refine_steps].
  intros w Hw. specialize (Hrec c w Hw).
  destruct (recur c w) as [[v|e|] w']; [apply IH|apply IH|]; done.
Qed.

Lemma notify_steps e l a : preserves St (notify recur e l a).
Proof. induction l as [|c l IH]; cbn [notify]; refine_steps. Qed.

Local Hint Resolve run_prog_steps notify_steps : refine.

Lemma Event_set_steps e a : preserves St (Event_set recur e a).
Proof.
  unfold Event_set. apply hoare_get_event_bind; [done|]. intros ev.
  destruct (_flag ev) eqn:Hflag.
  - apply hoare_ret. tauto.
  - eapply (hoare_seq St).
    + apply hoare_update_event; [tauto|]. intros w ev' [HS Hev] Hev'. simplify_eq.
      eapply steps_r; [done|]. by eapply step_fire.
    + intros ?. apply notify_steps.
Qed.

Lemma Event_clear_steps e : preserves St (Event_clear e).
Proof.
  intros w HS. unfold Event_clear, bind, update_event, get_event, observe, modify, bind.
  destruct (events w !! e) as [ev|] eqn:Hev; simpl; [|done].
  eapply steps_r; [done|]. by apply step_clear.
Qed.

Lemma Event_add_callback_steps e c : preserves St (Event_add_callback recur e c).
Proof. unfold Event_add_callback. refine_steps. Qed.

Local Hint Resolve Event_set_steps Event_clear_steps Event_add_callback_steps : refine.

Lemma wrapper_finally_steps t s leave :
  ENDED s = true -> preserves St leave ->
  hoare (fun w => St w /\ running_as t s w) (wrapper_finally recur t leave) (fun _ => St) St.
Proof.
  intros Hs Hl. unfold wrapper_finally.
  apply hoare_get_task_bind; [tauto|]. intros T.
  eapply hoare_pre with (P' := fun w => St w /\ running_as t s w); [|tauto].
  eapply hoare_bind with (R := fun _ w => St w /\ running_as t s w).
  { eapply hoare_conseq;
      [apply hoare_attempt, (with_frame St t s);
         [apply Event_set_steps|apply Event_set_running; auto]|..]; simpl.
    - done.
    - intros [a|e] w; done.
    - tauto. }
  intros r. eapply (hoare_seq St).
  - apply hoare_update_task; [tauto|].
    intros w T' [HS (T'' & HT'' & Hc & Hst)] HT'. simplify_eq.
    eapply steps_r; [done|]. apply step_coro; [done|].
    unfold coro_move. rewrite Hc. done.
  - intros ?. destruct r; [done|]. by apply hoare_raise.
Qed.

Lemma wrapper_exit_steps t st :
  hoare (fun w => St w /\ running_as t STARTED w) (wrapper_exit recur t st)
    (fun _ => St) St.
Proof.
  destruct st as [v|e|r k]; cbn [wrapper_exit].
  - eapply hoare_seq with (R := fun w => St w /\ exists T, tasks w !! t = Some T
        /\ _root_coro T = CoroRunning /\ _state T = STARTED
        /\ (DONE = DONE -> is_Some (_result T))).
    { apply hoare_update_task; [tauto|].
      intros w T [HS (T' & HT' & Hc & Hst)] HT. simplify_eq. split.
      - eapply steps_r; [done|]. by apply step_result.
      - eexists. split; [apply lookup_upd|]. cbn; eauto. }
    intros ?. eapply hoare_bind; [apply write_state_steps; constructor|].
    intros ?. apply wrapper_finally_steps; [done|]. apply preserves_ret.
  - assert (Hcancel : hoare (fun w => St w /\ running_as t STARTED w)
              (write_state t CANCELLED) (fun _ w => St w /\ running_as t CANCELLED w) St).
    { eapply hoare_pre; [apply (write_state_steps t STARTED); constructor|].
      intros w [HS (T & HT & Hc & Hst)]. split; [done|]. exists T. done. }
    destruct (is_Exception e) eqn:Hexn.
    + eapply hoare_bind; [apply Hcancel|]. intros ?.
      apply hoare_get_task_bind; [tauto|]. intros T.
      destruct (_suppresses_exception T) eqn:Hsup.
      * eapply hoare_seq with (R := fun w => St w /\ running_as t CANCELLED w).
        { apply hoare_update_task; [tauto|].
          intros w T' [[HS (T'' & HT'' & Hc & Hst)] HT] HT'. simplify_eq. split.
          - eapply steps_r; [done|]. by apply step_exception.
          - eexists. split; [apply lookup_upd|]. cbn; eauto. }
        intros ?. apply wrapper_finally_steps; [done|]. apply preserves_ret.
      * eapply hoare_pre; [apply (wrapper_finally_steps t CANCELLED); [done|]|tauto].
        apply preserves_raise.
    + eapply hoare_bind; [apply Hcancel|]. intros ?.
      apply wrapper_finally_steps; [done|]. apply preserves_raise.
  - eapply (hoare_seq St).
    + apply hoare_update_task; [tauto|].
      intros w T [HS (T' & HT' & Hc & Hst)] HT. simplify_eq.
      eapply steps_r; [done|]. apply step_coro; [done|].
      unfold coro_move. rewrite Hc. done.
    + intros ?. by apply hoare_ret.
Qed.

(** Entering the coroutine of [t]: it is marked as running. *)
Lemma enter_steps t T s :
  _state T = s -> (_root_coro T <> CoroRunning) -> _root_coro T <> CoroClosed ->
  hoare (fun w => St w /\ tasks w !! t = Some T)
    (update_task t (set_root_coro CoroRunning))
    (fun _ w => St w /\ running_as t s w
                /\ tasks w !! t = Some (set_root_coro CoroRunning T)) St.
Proof.
  intros Hs Hr Hc. apply hoare_update_task; [tauto|].
  intros w T' [HS HT] HT'. assert (T' = T) as -> by congruence. split; [|split].
  - eapply steps_r; [done|]. apply step_coro; [done|].
    unfold coro_move. by destruct (_root_coro T).
  - eexists. split; [apply lookup_upd|]. cbn; eauto.
  - apply lookup_upd.
Qed.

Lemma steps_task_ok w t T : St w -> tasks w !! t = Some T -> task_ok w t T.
Proof. intros HS HT. eapply wf_tasks; [|done]. by eapply steps_wf. Qed.

Lemma coro_resume_steps t T k i :
  _root_coro T = CoroSuspended k ->
  hoare (fun w => St w /\ tasks w !! t = Some T) (coro_resume recur t k i)
    (fun _ => St) St.
Proof.
  intros Hc. unfold coro_resume.
  apply (hoare_pure (_state T = STARTED)).
  { intros w [HS HT]. eapply ok_suspended; [by eapply steps_task_ok|done]. }
  intros Hst.
  eapply hoare_bind; [apply (enter_steps t T STARTED); congruence|]. intros ?.
  eapply hoare_bind; [|intros st; apply wrapper_exit_steps].
  eapply hoare_conseq; [apply (with_frame St t STARTED)|..]; simpl;
    [apply run_prog_steps|apply run_prog_running; auto|tauto..].
Qed.

Lemma coro_throw_steps t T k :
  _root_coro T = CoroSuspended k ->
  hoare (fun w => St w /\ tasks w !! t = Some T) (coro_throw recur t k)
    (fun _ => St) St.
Proof.
  intros Hc. unfold coro_throw.
  apply (hoare_pure (_state T = STARTED)).
  { intros w [HS HT]. eapply ok_suspended; [by eapply steps_task_ok|done]. }
  intros Hst.
  eapply hoare_bind; [apply (enter_steps t T STARTED); congruence|]. intros ?.
  eapply hoare_bind; [|intros st; apply wrapper_exit_steps].
  eapply hoare_conseq; [apply (with_frame St t STARTED)|..]; simpl;
    [apply run_prog_steps|apply run_prog_running; auto|tauto..].
Qed.

Lemma coro_send_steps t v : preserves St (coro_send recur t v).
Proof.
  unfold coro_send. apply hoare_get_task_bind; [done|]. intros T.
  destruct (_root_coro T) as [p| |k|] eqn:Hc.
  - destruct v; try (apply hoare_raise; tauto).
    apply (hoare_pure (_state T = CREATED)).
    { intros w [HS HT]. eapply ok_created; [by eapply steps_task_ok|done]. }
    intros Hst.
    eapply hoare_bind; [apply (enter_steps t T CREATED); congruence|]. intros ?.
    eapply hoare_bind.
    { eapply hoare_pre; [apply (write_state_steps t CREATED STARTED); constructor|].
      intros w (HS & _ & HT). split; [done|].
      exists (set_root_coro CoroRunning T). done. }
    intros ?. eapply hoare_bind; [|intros st; apply wrapper_exit_steps].
    eapply hoare_weaken_exc; [apply (with_frame St)|]; simpl;
      [apply run_prog_steps|apply run_prog_running; auto|tauto].
  - apply hoare_raise. tauto.
  - by apply coro_resume_steps.
  - apply hoare_raise. tauto.
Qed.

Lemma coro_close_steps t : preserves St (coro_close recur t).
Proof.
  unfold coro_close. apply hoare_get_task_bind; [done|]. intros T.
  destruct (_root_coro T) as [p| |k|] eqn:Hc.
  - eapply (hoare_seq St); [|intros ?; by apply hoare_ret].
    apply hoare_update_task; [tauto|].
    intros w T' [HS HT] HT'. simplify_eq.
    eapply steps_r; [done|]. apply step_coro; [done|].
    unfold coro_move. by rewrite Hc.
  - apply hoare_raise. tauto.
  - eapply (hoare_bind _ _ _ (fun _ => St)).
    { apply hoare_attempt_inv. by apply coro_throw_steps. }
    intros [[r|v]|e]; [by apply hoare_raise|by apply hoare_ret|].
    destruct e; first [by apply hoare_raise|by apply hoare_ret].
  - apply hoare_ret. tauto.
Qed.

Local Hint Resolve coro_send_steps coro_close_steps : refine.

Lemma _actual_cancel_steps t :
  hoare (fun w => St w /\ exists T, tasks w !! t = Some T /\ _is_cancellable T = true)
    (_actual_cancel recur t) (fun _ => St) St.
Proof.
  unfold _actual_cancel. eapply (hoare_seq St); [|intros ?; apply coro_close_steps].
  apply hoare_observe. intros w (HS & T & HT & Hcan).
  eapply steps_r; [done|]. eapply step_close; [done|].
  unfold _is_cancellable in Hcan. apply andb_true_iff in Hcan as [Hz _].
  by apply Z.eqb_eq in Hz.
Qed.

Lemma cancel_check_steps t : preserves St (cancel_check recur t).
Proof.
  unfold cancel_check. apply hoare_get_task_bind; [done|]. intros T.
  destruct (_cancel_called T && _is_cancellable T) eqn:Hcan.
  - eapply hoare_pre; [apply _actual_cancel_steps|]. intros w [HS HT].
    apply andb_true_iff in Hcan as [_ Hcan]. eauto.
  - apply hoare_ret. tauto.
Qed.

Lemma Task_cancel_steps t : preserves St (Task_cancel recur t).
Proof.
  unfold Task_cancel. apply preserves_bind; [refine_steps|]. intros ?.
  apply hoare_get_task_bind; [done|]. intros T.
  destruct (_is_cancellable T) eqn:Hcan.
  - eapply hoare_pre; [apply _actual_cancel_steps|]. intros w [HS HT]. eauto.
  - apply hoare_ret. tauto.
Qed.

Lemma register_steps r c : preserves St (register recur r c).
Proof. unfold register. refine_steps. Qed.

Local Hint Resolve cancel_check_steps Task_cancel_steps register_steps : refine.

Lemma drive_steps t v : preserves St (drive recur t v).
Proof. unfold drive. refine_steps. Qed.

Local Hint Resolve drive_steps : refine.

Lemma Task_step_coro_steps t a : preserves St (Task_step_coro recur t a).
Proof. unfold Task_step_coro. refine_steps. Qed.

Lemma call_fn_steps f a : preserves St (call_fn fn_body recur f a).
Proof. unfold call_fn. refine_steps. Qed.

Lemma Task_init_steps x nm ud : preserves St (Task_init py_repr py_str x nm ud).
Proof.
  destruct x as [p|t|v]; cbn [Task_init]; [|refine_steps..].
  intros w HS. cbn. eapply steps_r; [done|]. apply step_new_task.
Qed.

Lemma Event_init_steps : preserves St Event_init.
Proof. intros w HS. cbn. eapply steps_r; [done|]. apply step_new_event. Qed.

Local Hint Resolve Task_init_steps Event_init_steps : refine.

Lemma start_steps x : preserves St (start py_repr py_str recur x).
Proof. unfold start. refine_steps. Qed.

Lemma protection_steps t d :
  preserves St
    (let* T := get_task t in
     let* _ := update_task t (set_cancel_protection (_cancel_protection T + d)) in
     let* _ := observe (ObsProtection t (_cancel_protection T + d)) in
     ret VNone).
Proof.
  intros w HS. unfold bind, update_task, get_task, observe, modify, bind, ret.
  destruct (tasks w !! t) as [T|] eqn:HT; [|done]. cbn. rewrite HT. cbn.
  eapply steps_r; [done|]. by apply step_protection.
Qed.

Local Hint Resolve Task_step_coro_steps call_fn_steps start_steps protection_steps : refine.

Lemma dispatch_steps c : preserves St (dispatch py_repr py_str fn_body recur c).
Proof.
  destruct c; cbn [dispatch]; try solve [refine_steps]. apply protection_steps.
Qed.

End RefineHelpers.

Lemma exec_steps fuel c : preserves St (exec py_repr py_str fn_body fuel c).
Proof.
  revert c. induction fuel as [|fuel IH]; intros c; cbn [exec].
  - apply preserves_abort.
  - apply dispatch_steps; [done|]. intros t phi Hphi c'. by apply exec_running.
Qed.

Lemma run_op_steps fuel o : preserves St (run_op py_repr py_str fn_body fuel o).
Proof.
  destruct o; cbn [run_op].
  - apply preserves_bind; [apply Task_init_steps|]. intros. apply preserves_ret.
  - apply start_steps; [apply exec_steps|]. intros t phi Hphi c'. by apply exec_running.
  - apply preserves_bind; [apply Event_init_steps|]. intros. apply preserves_ret.
  - apply exec_steps.
Qed.

End Refine.

(** ** Every step keeps the trace in line with the store *)

Lemma walk_snoc s l s' s'' : walk s l s' -> forward s' s'' -> walk s (l ++ [s'']) s''.
Proof.
  induction 1 as [s|s s1 l s' Hf Hw IH]; intros Hf'; simpl.
  - apply walk_cons; [done|apply walk_nil].
  - apply walk_cons; auto.
Qed.

Lemma walk_app s l1 s1 l2 s2 : walk s l1 s1 -> walk s1 l2 s2 -> walk s (l1 ++ l2) s2.
Proof. induction 1; simpl; intros; [done|]. apply walk_cons; auto. Qed.

Lemma walk_app_inv s l1 l2 s2 :
  walk s (l1 ++ l2) s2 -> exists s1, walk s l1 s1 /\ walk s1 l2 s2.
Proof.
  revert s. induction l1 as [|x l1 IH]; simpl; intros s H.
  - exists s. split; [apply walk_nil|done].
  - inversion H; subst. destruct (IH _ H5) as (s1 & H1 & H2).
    exists s1. split; [by apply walk_cons|done].
Qed.

Lemma walk_functional s l s1 s2 : walk s l s1 -> walk s l s2 -> s1 = s2.
Proof.
  intros H. revert s2. induction H; intros s2 H2; inversion H2; subst; auto.
Qed.

Lemma walk_rtc s l s' : walk s l s' -> rtc forward s s'.
Proof. induction 1; [apply rtc_refl|]. eapply rtc_l; eauto. Qed.

Lemma history_app t l1 l2 : history t (l1 ++ l2) = history t l1 ++ history t l2.
Proof. apply omap_app. Qed.

Lemma depth_after_app t d l1 l2 :
  depth_after t d (l1 ++ l2) = depth_after t (depth_after t d l1) l2.
Proof.
  revert d. induction l1 as [|o l1 IH]; intros d; simpl; [done|].
  destruct o; auto.
Qed.

Lemma step_trace w w' : step w w' -> exists l, trace w' = trace w ++ l.
Proof.
  destruct 1; simpl; eauto; exists []; by rewrite app_nil_r.
Qed.

Lemma steps_trace w w' : steps w w' -> exists l, trace w' = trace w ++ l.
Proof.
  induction 1 as [w|w w1 w2 H1 H2 (l2 & IH)].
  - exists []. by rewrite app_nil_r.
  - destruct (step_trace _ _ H1) as (l1 & Hl1). exists (l1 ++ l2).
    by rewrite IH, Hl1, app_assoc.
Qed.

Lemma history_snoc t l o :
  history t (l ++ [o])
  = history t l ++ match state_written t o with Some s => [s] | None => [] end.
Proof. rewrite history_app. unfold history at 2. cbn. by destruct (state_written t o). Qed.

Lemma depth_after_snoc t l o :
  depth_after t 0 (l ++ [o])
  = match o with
    | ObsProtection t' d' => if decide (t' = t) then d' else depth_after t 0 l
    | _ => depth_after t 0 l
    end.
Proof. rewrite depth_after_app. by destruct o. Qed.

Lemma step_trace_ok w w' : step w w' -> wf w -> trace_ok w -> trace_ok w'.
Proof.
  intros Hstep Hwf Hok t'. specialize (Hok t').
  destruct Hstep; cbn [tasks trace add_trace set_tasks set_events];
    rewrite ?history_snoc, ?depth_after_snoc; cbn [state_written];
    rewrite ?app_nil_r; try done;
    try (destruct (decide (t = t')) as [->|Hne];
         [rewrite lookup_insert_eq; rewrite H in Hok
         |rewrite lookup_insert_ne by done];
         rewrite ?decide_True, ?decide_False by done; rewrite ?app_nil_r;
         cbn; try done).
  - destruct (decide (_uid_iter w = t')) as [<-|Hne].
    + rewrite lookup_insert_eq. cbn.
      destruct (tasks w !! _uid_iter w) as [T|] eqn:HT.
      { apply (wf_tasks _ Hwf) in HT as []. lia. }
      destruct Hok as [-> ->]. split; [apply walk_nil|done].
    + by rewrite lookup_insert_ne.
  - destruct Hok. done.
  - destruct Hok as [Hw Hd]. split; [|done]. eapply walk_snoc; done.
Qed.



(** Along steps a task stays, and its state only moves forward. *)
Lemma step_task w w' t T :
  step w w' -> wf w -> tasks w !! t = Some T ->
  exists T', tasks w' !! t = Some T'
    /\ (_state T' = _state T \/ forward (_state T) (_state T')).
Proof.
  intros Hstep Hwf HT.
  destruct Hstep; cbn; eauto;
    try (destruct (decide (t0 = t)) as [->|Hne];
         [rewrite lookup_insert_eq; simplify_eq; eexists; split; [done|]; cbn; eauto
         |rewrite lookup_insert_ne by done; eauto]).
  destruct (decide (_uid_iter w = t)) as [<-|Hne].
  - apply (wf_tasks _ Hwf) in HT as []. lia.
  - rewrite lookup_insert_ne by done. eauto.
Qed.

Lemma steps_task w w' t T :
  steps w w' -> wf w -> tasks w !! t = Some T ->
  exists T', tasks w' !! t = Some T' /\ rtc forward (_state T) (_state T').
Proof.
  intros Hsteps. revert T. induction Hsteps as [w|w w1 w2 H1 H2 IH]; intros T Hwf HT.
  - exists T. split; [done|apply rtc_refl].
  - destruct (step_task _ _ _ _ H1 Hwf HT) as (T1 & HT1 & Hs).
    destruct (IH T1 (step_wf _ _ H1 Hwf) HT1) as (T2 & HT2 & Hrtc).
    exists T2. split; [done|]. destruct Hs as [<-|Hf]; [done|]. by eapply rtc_l.
Qed.

Lemma steps_trace_ok w w' : steps w w' -> wf w -> trace_ok w -> trace_ok w'.
Proof.
  induction 1; intros; [done|]. eauto using step_wf, step_trace_ok.
Qed.


(** ** Frame: a fired event stays fired until it is cleared *)

Lemma notified_app e l1 l2 : notified e (l1 ++ l2) = notified e l1 ++ notified e l2.
Proof. apply omap_app. Qed.

Lemma kept_mono e a tr0 (K : Prop) w : kept e a tr0 False w -> kept e a tr0 K w.
Proof. intros (l & Hl & [H|[[] _]]). exists l. auto. Qed.

Lemma kept_tasks e a tr0 K m w : kept e a tr0 K w -> kept e a tr0 K (set_tasks m w).
Proof. intros H. exact H. Qed.

Lemma kept_obs e a tr0 (K : Prop) o w :
  (K -> notified_by e o = None) ->
  kept e a tr0 K w -> kept e a tr0 K (add_trace o w).
Proof.
  intros Ho (l & Hl & H). exists (l ++ [o]). cbn. rewrite Hl, app_assoc. split; [done|].
  destruct H as [H|(HK & Hn & Hf)].
  - left. apply elem_of_app. auto.
  - right. split; [done|]. split; [|done].
    rewrite notified_app, Hn. unfold notified. cbn. by rewrite Ho.
Qed.

Lemma kept_clear e a tr0 K m w :
  kept e a tr0 K w -> kept e a tr0 K (add_trace (ObsClear e) (set_events m w)).
Proof.
  intros (l & Hl & H). exists (l ++ [ObsClear e]). cbn. rewrite Hl, app_assoc.
  split; [done|]. left. apply elem_of_app. right. by apply list_elem_of_singleton.
Qed.

Lemma kept_event e a tr0 (K : Prop) e' ev ev' w :
  events w !! e' = Some ev ->
  (K -> e' = e -> _flag ev' = _flag ev /\ _value ev' = _value ev) ->
  kept e a tr0 K w -> kept e a tr0 K (set_events (<[e' := ev']> (events w)) w).
Proof.
  intros Hev Hsame (l & Hl & H). exists l. split; [done|].
  destruct H as [H|(HK & Hn & (ev0 & Hev0 & Hfl & Hval))]; [by left|right].
  split; [done|]. split; [done|]. unfold fired. cbn.
  destruct (decide (e' = e)) as [->|Hne].
  - exists ev'. rewrite lookup_insert_eq. simplify_eq.
    destruct (Hsame HK eq_refl) as [-> ->]. done.
  - exists ev0. by rewrite lookup_insert_ne.
Qed.

Create HintDb kept.

#[global] Hint Resolve preserves_ret preserves_raise preserves_abort : kept.

Section EventFrame.

Variable py_repr : string -> string.
Variable py_str : value -> string.
Variable fn_body : nat -> arguments -> code.
Variables (e : nat) (a : arguments) (tr0 : list obs).

Local Abbreviation G := (kept e a tr0).

Local Ltac keep :=
  repeat
    lazymatch goal with
    | |- preserves _ (ret _) => apply preserves_ret
    | |- preserves _ (raise _) => apply preserves_raise
    | |- preserves _ abort => apply preserves_abort
    | |- preserves _ (lift _) => apply preserves_lift
    | |- preserves _ (observe _) =>
        apply preserves_observe; intros ? ?; by apply kept_obs
    | |- preserves _ (update_event _ _) =>
        apply preserves_update_event; intros ? ? ? ?; by eapply kept_event
    | |- preserves _ (update_task _ _) =>
        apply preserves_update_task; intros ? ? ? ?; by apply kept_tasks
    | |- preserves _ (attempt _) => apply preserves_attempt
    | |- preserves _ (bind (get_task _) _) => apply preserves_get_task; intros ? ?
    | |- preserves _ (bind (get_event _) _) => apply preserves_get_event; intros ? ?
    | |- preserves _ (bind _ _) => apply preserves_bind; [|intros ?]
    | |- preserves _ (match ?x with _ => _ end) => destruct x eqn:?
    | |- preserves _ _ => solve [eauto with kept]
    end.

Lemma write_state_kept K t s : preserves (G K) (write_state t s).
Proof. unfold write_state. keep. Qed.

Local Hint Resolve write_state_kept : kept.

Section EventHelpers.

Variable recur : call -> M value.
Hypothesis Hrec : forall K c, preserves (G K) (recur c).

Lemma run_prog_kept K {Y} (p : prog Y) : preserves (G K) (run_prog recur p).
Proof.
  induction p as [v|x|c k IH|y k IH]; cbn [run_prog]; [keep..| |keep].
  intros w Hw. specialize (Hrec K c w Hw).
  destruct (recur c w) as [[v|x|] w']; [apply IH|apply IH|]; done.
Qed.

Lemma notify_kept (K : Prop) e' l a' :
  (K -> e' <> e) -> preserves (G K) (notify recur e' l a').
Proof.
  intros Hne. induction l as [|c l IH]; cbn [notify]; keep.
  apply preserves_observe. intros w Hw. apply kept_obs; [|done].
  intros HK. cbn. by rewrite decide_False by auto.
Qed.

Local Hint Resolve run_prog_kept : kept.

Lemma Event_set_kept_ne (K : Prop) e' a' :
  (K -> e' <> e) -> preserves (G K) (Event_set recur e' a').
Proof.
  intros Hne. unfold Event_set. keep; [|by apply notify_kept].
  apply preserves_update_event. intros w ev' Hw Hev. eapply kept_event; [done| |done].
  intros HK ->. by destruct (Hne HK).
Qed.

Lemma Event_set_kept K e' a' : preserves (G K) (Event_set recur e' a').
Proof.
  intros w HG.
  destruct HG as (l & Hl & [Hclear|(HK & Hn & Hf)]).
  - assert (HF : G False w) by (exists l; auto).
    pose proof (Event_set_kept_ne False e' a' (fun H => match H with end) w HF) as H.
    destruct (Event_set recur e' a' w) as [[v|x|] w']; by apply kept_mono.
  - assert (HG : G K w) by (exists l; auto).
    destruct (decide (e' = e)) as [->|Hne].
    + destruct Hf as (ev & Hev & Hfl & Hval).
      unfold Event_set, bind, get_event. rewrite Hev, Hfl. exact HG.
    + by apply (Event_set_kept_ne K e' a' (fun _ => Hne) w).
Qed.

Lemma Event_clear_kept K e' : preserves (G K) (Event_clear e').
Proof.
  intros w HG. unfold Event_clear, bind, update_event, get_event, observe, modify, bind.
  destruct (events w !! e') as [ev|] eqn:Hev; cbn; [|done].
  destruct (decide (e' = e)) as [->|Hne].
  - by apply kept_clear.
  - apply kept_obs; [intros; cbn; done|].
    eapply kept_event; [done| |done]. intros _ ->. done.
Qed.

Lemma Event_add_callback_kept K e' c : preserves (G K) (Event_add_callback recur e' c).
Proof. unfold Event_add_callback. keep. Qed.

Local Hint Resolve Event_set_kept Event_clear_kept Event_add_callback_kept : kept.

Lemma wrapper_finally_kept K t leave :
  preserves (G K) leave -> preserves (G K) (wrapper_finally recur t leave).
Proof. intros Hl. unfold wrapper_finally. keep. Qed.

Local Hint Resolve wrapper_finally_kept : kept.

Lemma wrapper_exit_kept K t st : preserves (G K) (wrapper_exit recur t st).
Proof. unfold wrapper_exit. keep. Qed.

Local Hint Resolve wrapper_exit_kept : kept.

Lemma coro_resume_kept K t k i : preserves (G K) (coro_resume recur t k i).
Proof. unfold coro_resume. keep. Qed.

Lemma coro_throw_kept K t k : preserves (G K) (coro_throw recur t k).
Proof. unfold coro_throw. keep. Qed.

Local Hint Resolve coro_resume_kept coro_throw_kept : kept.

Lemma coro_send_kept K t v : preserves (G K) (coro_send recur t v).
Proof. unfold coro_send. keep. Qed.

Lemma coro_close_kept K t : preserves (G K) (coro_close recur t).
Proof. unfold coro_close. keep. Qed.

Local Hint Resolve coro_send_kept coro_close_kept : kept.

Lemma _actual_cancel_kept K t : preserves (G K) (_actual_cancel recur t).
Proof. unfold _actual_cancel. keep. Qed.

Local Hint Resolve _actual_cancel_kept : kept.

Lemma cancel_check_kept K t : preserves (G K) (cancel_check recur t).
Proof. unfold cancel_check. keep. Qed.

Lemma Task_cancel_kept K t : preserves (G K) (Task_cancel recur t).
Proof. unfold Task_cancel. keep. Qed.

Lemma register_kept K r c : preserves (G K) (register recur r c).
Proof. unfold register. keep. Qed.

Local Hint Resolve cancel_check_kept Task_cancel_kept register_kept : kept.

Lemma drive_kept K t v : preserves (G K) (drive recur t v).
Proof. unfold drive. keep. Qed.

Local Hint Resolve drive_kept : kept.

Lemma Task_step_coro_kept K t a' : preserves (G K) (Task_step_coro recur t a').
Proof. unfold Task_step_coro. keep. Qed.

Lemma call_fn_kept K f a' : preserves (G K) (call_fn fn_body recur f a').
Proof. unfold call_fn. keep. Qed.

Lemma start_task_kept K t : preserves (G K) (start py_repr py_str recur (TaskObj t)).
Proof. unfold start. keep. Qed.

Local Hint Resolve Task_step_coro_kept call_fn_kept start_task_kept : kept.

Lemma dispatch_kept K c : preserves (G K) (dispatch py_repr py_str fn_body recur c).
Proof. unfold dispatch. keep. Qed.

End EventHelpers.

Lemma exec_kept K fuel c : preserves (G K) (exec py_repr py_str fn_body fuel c).
Proof.
  revert K c. induction fuel as [|fuel IH]; intros K c; cbn [exec].
  - apply preserves_abort.
  - by apply dispatch_kept.
Qed.

End EventFrame.

(** ** Running the monad by hand *)

Lemma bind_assoc {A B C} (m : M A) (k1 : A -> M B) (k2 : B -> M C) w :
  bind (bind m k1) k2 w = bind m (fun a => bind (k1 a) k2) w.
Proof. unfold bind. by destruct (m w) as [[a|x|] w']. Qed.

Lemma bind_ret {A B} (a : A) (k : A -> M B) w : bind (ret a) k w = k a w.
Proof. done. Qed.

Lemma bind_raise {A B} x (k : A -> M B) w : bind (raise x) k w = (Exc x, w).
Proof. done. Qed.

Lemma bind_get_task {B} t T (k : Task -> M B) w :
  tasks w !! t = Some T -> bind (get_task t) k w = k T w.
Proof. intros H. unfold bind, get_task. by rewrite H. Qed.

Lemma bind_get_event {B} e ev (k : Event -> M B) w :
  events w !! e = Some ev -> bind (get_event e) k w = k ev w.
Proof. intros H. unfold bind, get_event. by rewrite H. Qed.

Lemma bind_update_task {B} t T f (k : unit -> M B) w :
  tasks w !! t = Some T ->
  bind (update_task t f) k w = k tt (set_tasks (<[t := f T]> (tasks w)) w).
Proof. intros H. unfold update_task, bind, get_task, modify. by rewrite H. Qed.

Lemma bind_update_event {B} e ev f (k : unit -> M B) w :
  events w !! e = Some ev ->
  bind (update_event e f) k w = k tt (set_events (<[e := f ev]> (events w)) w).
Proof. intros H. unfold update_event, bind, get_event, modify. by rewrite H. Qed.

Lemma bind_observe {B} o (k : unit -> M B) w :
  bind (observe o) k w = k tt (add_trace o w).
Proof. done. Qed.

Lemma bind_write_state {B} t T s (k : unit -> M B) w :
  tasks w !! t = Some T ->
  bind (write_state t s) k w
  = k tt (add_trace (ObsState t s) (set_tasks (<[t := set_state s T]> (tasks w)) w)).
Proof.
  intros H. unfold write_state. rewrite bind_assoc.
  rewrite (bind_update_task _ _ _ _ _ H). done.
Qed.

Lemma ret_eq {A} (a : A) w : ret a w = (Ok a, w).
Proof. done. Qed.

Lemma raise_eq {A} x w : @raise A x w = (Exc x, w).
Proof. done. Qed.

Lemma lookup_task_same t T m (w : world) : tasks (set_tasks (<[t := T]> m) w) !! t = Some T.
Proof. apply lookup_insert_eq. Qed.

Lemma lookup_task_trace t o (w : world) : tasks (add_trace o w) !! t = tasks w !! t.
Proof. done. Qed.

Lemma lookup_task_events t m (w : world) : tasks (set_events m w) !! t = tasks w !! t.
Proof. done. Qed.

Lemma lookup_event_same e ev m (w : world) :
  events (set_events (<[e := ev]> m) w) !! e = Some ev.
Proof. apply lookup_insert_eq. Qed.

Lemma lookup_event_trace e o (w : world) : events (add_trace o w) !! e = events w !! e.
Proof. done. Qed.

Lemma lookup_event_tasks e m (w : world) : events (set_tasks m w) !! e = events w !! e.
Proof. done. Qed.

(** Solve a lookup in a store that is written as a stack of updates. *)
Ltac lookup :=
  repeat first
    [ eassumption
    | apply lookup_task_same
    | apply lookup_event_same
    | rewrite lookup_task_trace
    | rewrite lookup_task_events
    | rewrite lookup_event_trace
    | rewrite lookup_event_tasks ].

(** Run the next statement of a computation whose store is known. *)
Ltac mstep :=
  first
    [ rewrite bind_assoc
    | rewrite bind_ret
    | rewrite bind_raise
    | rewrite bind_observe
    | erewrite bind_get_task by lookup
    | erewrite bind_get_event by lookup
    | erewrite bind_update_task by lookup
    | erewrite bind_update_event by lookup
    | erewrite bind_write_state by lookup
    | rewrite ret_eq
    | rewrite raise_eq ].

Ltac mrun := repeat (mstep; cbn beta iota).

Lemma bind_attempt {A B} (m : M A) (k : A + exn -> M B) w :
  bind (attempt m) k w
  = match m w with
    | (Ok a, w') => k (inl a) w'
    | (Exc x, w') => k (inr x) w'
    | (Abort, w') => (Abort, w')
    end.
Proof. unfold bind, attempt. by destruct (m w) as [[a|x|] w']. Qed.

Lemma preserves_snd {A} (I : world -> Prop) (m : M A) w :
  preserves I m -> I w -> I (snd (m w)).
Proof. intros H Hw. specialize (H w Hw). by destruct (m w) as [[a|x|] w']. Qed.

(** ** The stores the driver can bring about *)

Section Reach.

Variable py_repr : string -> string.
Variable py_str : value -> string.
Variable fn_body : nat -> arguments -> code.

Local Abbreviation reachable' := (reachable py_repr py_str fn_body).
Local Abbreviation run_op' := (run_op py_repr py_str fn_body).
Local Abbreviation exec' := (exec py_repr py_str fn_body).

Lemma run_op_from w fuel o : wf w -> steps w (snd (run_op' fuel o w)).
Proof.
  intros Hwf. pose proof (run_op_steps py_repr py_str fn_body w Hwf fuel o w) as H.
  specialize (H (rtc_refl _ _)).
  by destruct (run_op' fuel o w) as [[v|x|] w'].
Qed.

Lemma exec_from w fuel c : wf w -> steps w (snd (exec' fuel c w)).
Proof. intros Hwf. apply (run_op_from w fuel (OCall c) Hwf). Qed.

Lemma reachable_wf w : reachable' w -> wf w.
Proof.
  induction 1 as [|w fuel o _ IH]; [apply wf_empty|].
  eapply steps_wf; [by apply run_op_from|done].
Qed.

Lemma trace_ok_empty : trace_ok empty_world.
Proof. intros t. cbn. rewrite lookup_empty. done. Qed.

Lemma reachable_trace_ok w : reachable' w -> trace_ok w.
Proof.
  induction 1 as [|w fuel o Hr IH]; [apply trace_ok_empty|].
  eapply steps_trace_ok; [apply run_op_from| |]; eauto using reachable_wf.
Qed.


Lemma walk_ended s l s' : walk s l s' -> ENDED s = true -> s' = s /\ l = [].
Proof. destruct 1 as [|? ? ? ? []]; done. Qed.

(** C1: the state of every task only moves forward along Created -> Started
    -> Done or Cancelled.  In every store the driver can bring about, with
    any computations and any sequence of operations, the assignments that
    were made to [t._state] start from Created, each one moves along one of
    these three arrows (so none goes backward, none skips Started, none
    leaves Done or Cancelled), and the last one is the current state.  Any
    further operation only extends that history: from a terminal state the
    state does not change. *)
Theorem state_moves_forward w t T :
  reachable' w -> tasks w !! t = Some T ->
  walk CREATED (history t (trace w)) (_state T)
  /\ forall fuel o,
       exists T' l,
         tasks (snd (run_op' fuel o w)) !! t = Some T'
         /\ history t (trace (snd (run_op' fuel o w))) = history t (trace w) ++ l
         /\ walk (_state T) l (_state T')
         /\ (ENDED (_state T) = true -> _state T' = _state T /\ l = []).
Proof.
  intros Hr HT.
  assert (Hnow : walk CREATED (history t (trace w)) (_state T)).
  { pose proof (reachable_trace_ok w Hr t) as H. rewrite HT in H. tauto. }
  split; [done|]. intros fuel o.
  pose proof (reachable_wf w Hr) as Hwf.
  pose proof (run_op_from w fuel o Hwf) as Hsteps.
  destruct (steps_task _ _ _ _ Hsteps Hwf HT) as (T' & HT' & _).
  destruct (steps_trace _ _ Hsteps) as (l & Hl).
  pose proof (reachable_trace_ok _ (reachable_step _ _ _ w fuel o Hr) t) as H.
  rewrite HT', Hl, history_app in H. destruct H as [H _].
  apply walk_app_inv in H as (s1 & H1 & H2).
  rewrite (walk_functional _ _ _ _ Hnow H1).
  exists T', (history t l). rewrite Hl, history_app.
  split; [done|]. split; [done|]. split; [done|].
  intros He. by eapply walk_ended.
Qed.

Lemma length_append s1 s2 :
  String.length (s1 +:+ s2) = (String.length s1 + String.length s2)%nat.
Proof. induction s1 as [|c s1 IH]; simpl; [done|]. by f_equal. Qed.

(** C4: reading [task.result] returns the stored value exactly when the state
    is Done; in state Cancelled it raises InvalidStateError with the
    "was cancelled" message, and in states Created and Started it raises
    InvalidStateError with the different "is not ready" message. *)
Theorem result_by_state w t T fuel :
  wf w -> tasks w !! t = Some T ->
  exec' (S fuel) (CResult t) w = (Task_result py_repr T, w)
  /\ match _state T with
     | DONE => exists v, _result T = Some v /\ Task_result py_repr T = Ok v
     | CANCELLED =>
         Task_result py_repr T
         = Exc (InvalidStateError (Task_str py_repr T +:+ " was cancelled"))
     | CREATED | STARTED =>
         Task_result py_repr T
         = Exc (InvalidStateError ("Result of " +:+ Task_str py_repr T +:+ " is not ready"))
     end
  /\ ((exists v, Task_result py_repr T = Ok v) <-> _state T = DONE)
  /\ Task_str py_repr T +:+ " was cancelled"
     <> "Result of " +:+ Task_str py_repr T +:+ " is not ready".
Proof.
  intros Hwf HT. pose proof (wf_tasks _ Hwf _ _ HT) as Hok.
  split; [|split; [|split]].
  - cbn. unfold bind, get_task. by rewrite HT.
  - unfold Task_result. destruct (_state T) eqn:Hs; try done.
    destruct (ok_result _ _ _ Hok Hs) as [v Hv]. rewrite Hv. eauto.
  - unfold Task_result. split.
    + intros [v Hv]. by destruct (_state T).
    + intros Hs. rewrite Hs. destruct (ok_result _ _ _ Hok Hs) as [v ->]. eauto.
  - intros Heq. apply (f_equal String.length) in Heq.
    rewrite !length_append in Heq. cbn in Heq. lia.
Qed.

(** Starting a task that is not in state Created raises ValueError and
    changes nothing. *)
Lemma start_not_created recur w t T :
  tasks w !! t = Some T -> _state T <> CREATED ->
  start py_repr py_str recur (TaskObj t) w
  = (Exc (ValueError (Task_str py_repr T +:+ " was already started")), w).
Proof.
  intros HT Hs. unfold start, bind, get_task. rewrite HT. by destruct (_state T).
Qed.

Lemma rtc_forward_not_created s s' : rtc forward s s' -> s <> CREATED -> s' <> CREATED.
Proof. induction 1 as [|? ? ? []]; auto. Qed.

(** Once [start] has entered a task, its state is not Created any more. *)
Lemma start_leaves_created fuel w t T p :
  wf w -> tasks w !! t = Some T -> _root_coro T = CoroCreated p ->
  exists T', tasks (snd (run_op' fuel (OStart (TaskObj t)) w)) !! t = Some T'
             /\ _state T' <> CREATED.
Proof.
  intros Hwf HT Hc. cbn [run_op].
  pose proof (ok_created _ _ _ (wf_tasks _ Hwf _ _ HT) _ Hc) as Hs.
  set (T1 := set_root_coro CoroRunning T).
  set (wA := set_tasks (<[t := T1]> (tasks w)) w).
  set (wB := add_trace (ObsState t STARTED)
               (set_tasks (<[t := set_state STARTED T1]> (tasks wA)) wA)).
  assert (HwA : step w wA).
  { apply step_coro; [done|]. unfold coro_move. by rewrite Hc. }
  assert (HwB : step wA wB).
  { eapply step_state; [apply lookup_task_same|done|cbn; rewrite Hs; constructor|done]. }
  assert (HwfB : wf wB) by eauto using step_wf.
  assert (Hrun : running_as t STARTED wB).
  { exists (set_state STARTED T1). split; [apply lookup_task_same|done]. }
  assert (Hgoal : forall w', steps wB w' ->
            exists T', tasks w' !! t = Some T' /\ _state T' <> CREATED).
  { intros w' Hsteps.
    destruct (steps_task _ _ t _ Hsteps HwfB (lookup_task_same _ _ _ _))
      as (T' & HT' & Hrtc).
    exists T'. split; [done|]. by eapply rtc_forward_not_created. }
  assert (Hrec : forall c, preserves (steps wB) (exec' fuel c))
    by (intros c; by apply exec_steps).
  assert (HrecR : forall t phi, soft_stable phi ->
            forall c, preserves (running_sat t phi) (exec' fuel c))
    by (intros t' phi Hphi c; by apply exec_running).
  unfold start, drive, coro_send, coro_resume.
  mrun. rewrite Hs. mrun. rewrite Hc. mrun. fold T1 wA. mrun. fold wB.
  match goal with
  | |- exists T', tasks (snd (?m wB)) !! t = _ /\ _ =>
      assert (Hrest : hoare (fun w' => steps wB w' /\ running_as t STARTED w') m
                (fun _ => steps wB) (steps wB));
      [|specialize (Hrest wB (conj (rtc_refl _ _) Hrun));
        destruct (m wB) as [[v|x|] w']; by apply Hgoal]
  end.
  eapply (hoare_bind _ _ _ (fun _ w' => steps wB w' /\ running_as t STARTED w')).
  { eapply hoare_conseq; [apply (with_frame (steps wB) t STARTED)|..];
      [by apply run_prog_steps|apply run_prog_running; auto|cbn; tauto..]. }
  intros st. eapply (hoare_bind _ _ _ (fun _ => steps wB)).
  { by eapply wrapper_exit_steps. }
  intros [r|v].
  - apply preserves_bind; [|intros ?; apply preserves_ret].
    apply preserves_bind; [by apply register_steps|].
    intros ?. by eapply cancel_check_steps.
  - apply preserves_bind; [apply preserves_ret|intros ?; apply preserves_ret].
Qed.

(** C3, as the code has it: [start] on a Task whose state is not Created
    raises ValueError (the class that [start] raises for an argument that is
    neither a Task nor awaitable; it is not InvalidStateError) and changes
    nothing.  This is what the second of two [start] calls on the same Task
    does: whatever the first call did, it left the state other than
    Created. *)
Theorem start_started_task_raises_ValueError w t T :
  wf w -> tasks w !! t = Some T ->
  (_state T <> CREATED ->
   forall fuel,
     run_op' fuel (OStart (TaskObj t)) w
     = (Exc (ValueError (Task_str py_repr T +:+ " was already started")), w)
     /\ exec' (S fuel) (CStart t) w
        = (Exc (ValueError (Task_str py_repr T +:+ " was already started")), w))
  /\ (forall p, _root_coro T = CoroCreated p ->
      forall fuel fuel',
        let w1 := snd (run_op' fuel (OStart (TaskObj t)) w) in
        exists T1,
          tasks w1 !! t = Some T1
          /\ run_op' fuel' (OStart (TaskObj t)) w1
             = (Exc (ValueError (Task_str py_repr T1 +:+ " was already started")), w1)).
Proof.
  intros Hr HT. split.
  - intros Hs fuel. split; by apply start_not_created.
  - intros p Hc fuel fuel' w1.
    destruct (start_leaves_created fuel w t T p Hr HT Hc)
      as (T1 & HT1 & Hs1).
    exists T1. split; [done|]. by apply start_not_created.
Qed.

End Reach.

(** ** Cancelling before the start and after the end *)

Section Cancel.

Variable py_repr : string -> string.
Variable py_str : value -> string.
Variable fn_body : nat -> arguments -> code.

Local Abbreviation reachable' := (reachable py_repr py_str fn_body).
Local Abbreviation run_op' := (run_op py_repr py_str fn_body).
Local Abbreviation exec' := (exec py_repr py_str fn_body).

(** C2, as the code has it: [cancel] on a task in state Created with
    protection depth 0 closes the coroutine without running any of it and
    returns.  No assignment to [_state] is made, so the task stays in state
    Created and never reaches Cancelled, and the completion event is not set:
    the events are unchanged and the only thing recorded is the close. *)
Theorem cancel_created_task fuel w t T p :
  tasks w !! t = Some T -> _state T = CREATED -> _root_coro T = CoroCreated p ->
  _cancel_protection T = 0 ->
  let r := exec' (S fuel) (CCancel t) w in
  fst r = Ok VNone
  /\ events (snd r) = events w
  /\ trace (snd r) = trace w ++ [ObsClose t]
  /\ tasks (snd r) !! t = Some (set_root_coro CoroClosed (set_cancel_called true T))
  /\ exists T', tasks (snd r) !! t = Some T' /\ _state T' = CREATED
       /\ getcoroutinestate (_root_coro T') = CORO_CLOSED /\ _cancel_called T' = true.
Proof.
  intros HT Hs Hc Hd r. subst r. cbn [exec dispatch]. unfold Task_cancel. mrun.
  unfold _is_cancellable. cbn. rewrite Hd, Hc. cbn.
  unfold _actual_cancel, coro_close. mrun. cbn. rewrite Hc. mrun. cbn.
  rewrite lookup_insert_eq. split; [done|]. split; [done|]. split; [done|].
  split; [done|]. eexists. split; [done|]. done.
Qed.

(** C10: [cancel] on a task in state Done is a no-op on what can be observed.
    It returns normally; the task keeps its state Done and its result, which
    [task.result] still returns; no event changes, so the completion event
    does not fire again and no waiter is called; the only changes are the
    [_cancel_called] flag and, when the task is unprotected, the (empty) call
    of [close] on the finished coroutine. *)
Theorem cancel_done_task fuel w t T :
  wf w -> tasks w !! t = Some T -> _state T = DONE ->
  let r := exec' (S fuel) (CCancel t) w in
  fst r = Ok VNone
  /\ tasks (snd r) = <[t := set_cancel_called true T]> (tasks w)
  /\ events (snd r) = events w
  /\ (trace (snd r) = trace w \/ trace (snd r) = trace w ++ [ObsClose t])
  /\ exists T' v,
       tasks (snd r) !! t = Some T' /\ _state T' = DONE /\ _result T' = Some v
       /\ _result T = Some v /\ Task_result py_repr T' = Ok v.
Proof.
  intros Hr HT Hs r. subst r.
  pose proof (wf_tasks _ Hr _ _ HT) as Hok.
  destruct (ok_result _ _ _ Hok Hs) as [v Hv].
  assert (Hres : exists T' v0,
            <[t := set_cancel_called true T]> (tasks w) !! t = Some T'
            /\ _state T' = DONE /\ _result T' = Some v0
            /\ _result T = Some v0 /\ Task_result py_repr T' = Ok v0).
  { exists (set_cancel_called true T), v. rewrite lookup_insert_eq.
    unfold Task_result. cbn. rewrite Hs, Hv. done. }
  cbn [exec dispatch]. unfold Task_cancel. mrun.
  destruct (_is_cancellable (set_cancel_called true T)) eqn:Hcan.
  - unfold _actual_cancel, coro_close, coro_throw. mrun. cbn.
    unfold _is_cancellable in Hcan. cbn in Hcan.
    destruct (_root_coro T) as [p| |k|] eqn:Hc.
    + pose proof (ok_created _ _ _ Hok _ Hc). congruence.
    + by rewrite andb_false_r in Hcan.
    + pose proof (ok_suspended _ _ _ Hok _ Hc). congruence.
    + cbn. split; [done|]. split; [done|]. split; [done|]. split; [by right|done].
  - cbn. split; [done|]. split; [done|]. split; [done|]. split; [by left|done].
Qed.

End Cancel.

(** ** Cancelling a suspended task *)

Section Close.

Variable py_repr : string -> string.
Variable py_str : value -> string.
Variable fn_body : nat -> arguments -> code.

Local Abbreviation reachable' := (reachable py_repr py_str fn_body).
Local Abbreviation run_op' := (run_op py_repr py_str fn_body).
Local Abbreviation exec' := (exec py_repr py_str fn_body).

Lemma cancel_suspended fuel w t T k :
  tasks w !! t = Some T -> _root_coro T = CoroSuspended k ->
  k (Thrown GeneratorExit) = Raise GeneratorExit -> _cancel_protection T = 0 ->
  let r := exec' (S fuel) (CCancel t) w in
  (exists T', tasks (snd r) !! t = Some T' /\ _state T' = CANCELLED
     /\ _exception T' = _exception T
     /\ (fst r <> Abort -> _root_coro T' = CoroClosed)).
Proof.
  intros HT Hc Hk Hd r. subst r. cbn [exec dispatch]. unfold Task_cancel. mrun.
  unfold _is_cancellable. cbn. rewrite Hd, Hc. cbn.
  unfold _actual_cancel, coro_close, coro_throw. mrun. cbn. rewrite Hc. mrun.
  rewrite bind_attempt. rewrite Hk. cbn [run_prog]. mrun.
  cbn [close_signal wrapper_exit is_Exception]. mrun. unfold wrapper_finally. mrun.
  rewrite bind_attempt.
  match goal with |- context [Event_set ?r ?e ?a ?w0] => set (wC := w0); set (ev := e) end.
  set (phi := fun T' => _state T' = CANCELLED /\ _exception T' = _exception T).
  assert (Hphi : soft_stable phi) by (intros T' [H1 H2]; repeat split; done).
  assert (HC : running_sat t phi wC).
  { eexists. split; [apply lookup_task_same|]. unfold phi. cbn. auto. }
  assert (H2 : running_sat t phi (snd (Event_set (exec' fuel) ev ([VTask t], []) wC))).
  { apply preserves_snd; [|done]. apply Event_set_running.
    intros c. by apply exec_running. }
  destruct (Event_set (exec' fuel) ev ([VTask t], []) wC) as [[v|x|] w2]; cbn in H2;
    destruct H2 as (T2 & HT2 & Hc2 & Hs2 & Hx2).
  - mrun. cbn. eexists. split; [apply lookup_insert_eq|]. done.
  - mrun. cbn. destruct x; cbn; (eexists; split; [apply lookup_insert_eq|]; done).
  - cbn. exists T2. done.
Qed.

(** With no waiter on the completion event, [cancel] returns. *)
Lemma cancel_suspended_returns fuel w t T k ev :
  tasks w !! t = Some T -> _root_coro T = CoroSuspended k ->
  k (Thrown GeneratorExit) = Raise GeneratorExit -> _cancel_protection T = 0 ->
  events w !! _event T = Some ev -> _step_coro_list ev = [] ->
  fst (exec' (S fuel) (CCancel t) w) = Ok VNone.
Proof.
  intros HT Hc Hk Hd Hev Hl. cbn [exec dispatch]. unfold Task_cancel. mrun.
  unfold _is_cancellable. cbn. rewrite Hd, Hc. cbn.
  unfold _actual_cancel, coro_close, coro_throw. mrun. cbn. rewrite Hc. mrun.
  rewrite bind_attempt. rewrite Hk. cbn [run_prog]. mrun.
  cbn [close_signal wrapper_exit is_Exception]. mrun. unfold wrapper_finally. mrun.
  rewrite bind_attempt. unfold Event_set. cbn [_event set_state set_root_coro
    set_cancel_called]. mrun.
  destruct (_flag ev); mrun; [done|]. rewrite Hl. cbn [notify]. mrun. done.
Qed.

End Close.

(** ** How calls end *)


Lemma triple_ret {A} (P : world -> Prop) (a : A) (Q : A -> world -> Prop) X :
  (forall w, P w -> Q a w) -> triple P (ret a) Q X.
Proof. intros H w Hw. cbn. auto. Qed.

Lemma triple_raise {A} (P : world -> Prop) x (Q : A -> world -> Prop)
    (X : exn -> world -> Prop) :
  (forall w, P w -> X x w) -> triple P (raise x) Q X.
Proof. intros H w Hw. cbn. auto. Qed.

Lemma triple_bind {A B} (R : A -> world -> Prop) (P : world -> Prop) (m : M A)
    (k : A -> M B) Q X :
  triple P m R X -> (forall a, triple (R a) (k a) Q X) -> triple P (bind m k) Q X.
Proof.
  intros Hm Hk w Hw. unfold bind. specialize (Hm w Hw).
  destruct (m w) as [[a|x|] w']; auto. apply (Hk a w' Hm).
Qed.

Lemma triple_conseq {A} (P P' : world -> Prop) (m : M A) (Q Q' : A -> world -> Prop)
    (X X' : exn -> world -> Prop) :
  triple P' m Q' X' -> (forall w, P w -> P' w) -> (forall a w, Q' a w -> Q a w) ->
  (forall x w, X' x w -> X x w) -> triple P m Q X.
Proof.
  intros H HP HQ HX w Hw. specialize (H w (HP w Hw)).
  destruct (m w) as [[a|x|] w']; auto.
Qed.

Lemma triple_attempt {A} (P : world -> Prop) (m : M A) (Q : A + exn -> world -> Prop)
    (X : exn -> world -> Prop) :
  triple P m (fun a => Q (inl a)) (fun x => Q (inr x)) -> triple P (attempt m) Q X.
Proof.
  intros H w Hw. unfold attempt. specialize (H w Hw).
  by destruct (m w) as [[a|x|] w'].
Qed.

Lemma triple_get_task {B} (P : world -> Prop) t (k : Task -> M B) Q X :
  (forall T, triple (fun w => P w /\ tasks w !! t = Some T) (k T) Q X) ->
  triple P (bind (get_task t) k) Q X.
Proof.
  intros H w Hw. unfold bind, get_task.
  destruct (tasks w !! t) as [T|] eqn:HT; [|done]. by apply (H T).
Qed.

Lemma triple_update_task (P : world -> Prop) t f (Q : unit -> world -> Prop) X :
  (forall w T, P w -> tasks w !! t = Some T ->
     Q tt (set_tasks (<[t := f T]> (tasks w)) w)) ->
  triple P (update_task t f) Q X.
Proof.
  intros H w Hw. unfold update_task, bind, get_task, modify.
  destruct (tasks w !! t) as [T|] eqn:HT; cbn; auto.
Qed.

Lemma triple_observe (P : world -> Prop) o (Q : unit -> world -> Prop) X :
  (forall w, P w -> Q tt (add_trace o w)) -> triple P (observe o) Q X.
Proof. intros H w Hw. cbn. auto. Qed.


Section Idle.

Variable recur : call -> M value.












End Idle.

(** ** Sleeping tasks and the protection scope *)

Section Await.

Variable recur : call -> M value.



End Await.

Section Protect.

Variable py_repr : string -> string.
Variable py_str : value -> string.
Variable fn_body : nat -> arguments -> code.

Local Abbreviation reachable' := (reachable py_repr py_str fn_body).
Local Abbreviation run_op' := (run_op py_repr py_str fn_body).
Local Abbreviation exec' := (exec py_repr py_str fn_body).

(** The scenario: [B = Task(sleep_forever()); start(B)] leaves [B] started,
    sleeping and unprotected, with nobody waiting for it to end. *)
Lemma start_sleep_forever fuel w nm ud :
  let B := _uid_iter w in
  let w1 := snd (run_op' fuel (OTask (Awaitable sleep_forever) nm ud) w) in
  let r := run_op' fuel (OStart (TaskObj B)) w1 in
  fst r = Ok (VTask B)
  /\ exists T ev, tasks (snd r) !! B = Some T /\ sleeping T /\ _state T = STARTED
       /\ _cancel_protection T = 0
       /\ events (snd r) !! _event T = Some ev /\ _step_coro_list ev = [].
Proof.
  intros B w1 r.
  set (T0 := mkTask nm B (CoroCreated sleep_forever) CREATED None (next_event w) false ud
               None false 0).
  assert (Hev : events w1 !! next_event w = Some (mkEvent None false []))
    by apply lookup_insert_eq.
  assert (HB : tasks w1 !! B = Some T0) by apply lookup_insert_eq.
  clearbody w1. subst r. cbn [run_op]. unfold start. mrun. cbn [_state T0]. mrun.
  unfold drive, coro_send. mrun. cbn [_root_coro T0]. mrun.
  unfold sleep_forever. cbn [run_prog]. mrun. cbn [wrapper_exit]. mrun.
  cbn [register]. mrun. unfold cancel_check. mrun.
  cbn [_cancel_called set_root_coro set_state andb T0]. mrun.
  split; [done|]. eexists _, _. split; [apply lookup_task_same|].
  split; [done|]. split; [done|]. split; [done|]. split; [cbn; exact Hev|done].
Qed.

(** C5: [cancel] on a started task that sleeps in [sleep_forever] with no
    protection in effect closes the computation at once: in the store that
    [cancel] leaves, however it ends, the state of the task is Cancelled, and
    the coroutine is closed; [cancel] returns when nobody waits for the task
    to end. *)
Theorem cancel_sleeping_task fuel w t T :
  tasks w !! t = Some T -> sleeping T -> _cancel_protection T = 0 ->
  let r := exec' (S fuel) (CCancel t) w in
  (exists T', tasks (snd r) !! t = Some T' /\ _state T' = CANCELLED
     /\ (fst r <> Abort -> _root_coro T' = CoroClosed))
  /\ (forall ev, events w !! _event T = Some ev -> _step_coro_list ev = [] ->
        fst r = Ok VNone).
Proof.
  intros HT Hs Hd r. subst r. split.
  - destruct (cancel_suspended py_repr py_str fn_body fuel w t T _ HT Hs eq_refl Hd)
      as (T' & HT' & Hst & _ & Hc).
    exists T'. done.
  - intros ev Hev Hl.
    by apply (cancel_suspended_returns py_repr py_str fn_body fuel w t T _ ev HT Hs).
Qed.






(** One way in and one way out bring the depth back to what it was. *)
Lemma protect_restores t T w T' :
  tasks (protect t 1 T w) !! t = Some T' ->
  tasks (protect t (-1) T' (protect t 1 T w)) !! t
  = Some (set_cancel_protection (_cancel_protection T) T').
Proof.
  unfold protect at 1. cbn. rewrite lookup_insert_eq. intros [= <-].
  unfold protect. cbn. rewrite lookup_insert_eq. f_equal.
  unfold set_cancel_protection. cbn. f_equal. lia.
Qed.




End Protect.

(** ** What the wrapper does with an exception *)

Section Signal.

Variable py_repr : string -> string.
Variable py_str : value -> string.
Variable fn_body : nat -> arguments -> code.

Local Abbreviation reachable' := (reachable py_repr py_str fn_body).
Local Abbreviation run_op' := (run_op py_repr py_str fn_body).
Local Abbreviation exec' := (exec py_repr py_str fn_body).

(** The [finally] clause of the wrapper, run while the task [t] is in its
    final state: the outcome is [leave] unless a waiter raises. *)
Lemma wrapper_finally_outcome fuel t T (phi : Task -> Prop) leave w :
  soft_stable phi -> (forall c T', phi T' -> phi (set_root_coro c T')) ->
  tasks w !! t = Some T -> _root_coro T = CoroRunning -> phi T ->
  (forall w', leave w' = (fst (leave w), w')) ->
  let r := wrapper_finally (exec' fuel) t leave w in
  let n := Event_set (exec' fuel) (_event T) ([VTask t], []) w in
  (exists T', tasks (snd r) !! t = Some T' /\ phi T')
  /\ fst r = match fst n with
             | Ok _ => fst (leave w)
             | Exc x => Exc x
             | Abort => Abort
             end.
Proof.
  intros Hphi Hco HT Hc HT' Hleave r n. subst r n. unfold wrapper_finally. mrun.
  rewrite bind_attempt.
  assert (H0 : running_sat t phi w) by (by exists T).
  assert (H2 : running_sat t phi (snd (Event_set (exec' fuel) (_event T) ([VTask t], []) w))).
  { apply preserves_snd; [|done]. apply Event_set_running.
    intros c. by apply exec_running. }
  destruct (Event_set (exec' fuel) (_event T) ([VTask t], []) w) as [[v|x|] w2];
    cbn in H2; destruct H2 as (T2 & HT2 & Hc2 & Hp2).
  - mrun. rewrite Hleave. cbn. split; [|done].
    eexists. split; [apply lookup_insert_eq|]. by apply Hco.
  - mrun. cbn. split; [|done]. eexists. split; [apply lookup_insert_eq|]. by apply Hco.
  - cbn. split; [|done]. by exists T2.
Qed.






End Signal.

(** ** Setting an event twice *)

Section Once.

Variable py_repr : string -> string.
Variable py_str : value -> string.
Variable fn_body : nat -> arguments -> code.

Local Abbreviation exec' := (exec py_repr py_str fn_body).

Lemma set_so_far_call E a tr0 n fuel c :
  preserves (set_so_far E a tr0 n) (exec' fuel c).
Proof.
  intros w (d & Hd & [Hcl|[Hn Hf]]).
  - assert (HK : kept E a tr0 False w) by (exists d; auto).
    pose proof (exec_kept py_repr py_str fn_body E a tr0 False fuel c w HK) as H.
    destruct (exec' fuel c w) as [[v|x|] w'];
      destruct H as (d' & Hd' & [H|[[] _]]); exists d'; auto.
  - assert (HK : kept E a (trace w) True w).
    { exists []. rewrite app_nil_r. split; [done|]. right. done. }
    pose proof (exec_kept py_repr py_str fn_body E a (trace w) True fuel c w HK) as H.
    assert (Hgo : forall w', kept E a (trace w) True w' -> set_so_far E a tr0 n w').
    { intros w' (d2 & Hd2 & H2). exists (d ++ d2). rewrite Hd2, Hd, app_assoc.
      split; [done|]. destruct H2 as [H2|(_ & Hn2 & Hf2)].
      - left. apply elem_of_app. auto.
      - right. rewrite notified_app, Hn2, app_nil_r. done. }
    destruct (exec' fuel c w) as [[v|x|] w']; by apply Hgo.
Qed.

(** The loop of [Event.set] calls the waiters it was given, one after the
    other, and stops at the first that does not return; the calls that
    [set] of this event made meanwhile are these and no other. *)
Lemma notify_calls E a tr0 fuel l n w :
  set_so_far E a tr0 n w ->
  let r := notify (exec' fuel) E l a w in
  exists cs rest,
    l = cs ++ rest
    /\ called_in_order (exec' fuel) E a l w (fst r) (snd r) cs
    /\ (forall v, fst r = Ok v -> rest = [])
    /\ set_so_far E a tr0 (n ++ map (fun c => (c, a)) cs) (snd r).
Proof.
  revert n w. induction l as [|c l IH]; intros n w Hw; cbn [notify].
  - exists [], []. cbn. rewrite app_nil_r. split; [done|]. split; [apply called_none|]. done.
  - rewrite bind_observe.
    assert (H1 : set_so_far E a tr0 (n ++ [(c, a)]) (add_trace (ObsNotify E c a) w)).
    { destruct Hw as (d & Hd & H). exists (d ++ [ObsNotify E c a]).
      cbn. rewrite Hd, app_assoc. split; [done|]. destruct H as [H|[Hn Hf]].
      - left. apply elem_of_app. auto.
      - right. split; [|exact Hf]. rewrite notified_app, Hn. unfold notified. cbn.
        by rewrite decide_True. }
    pose proof (set_so_far_call E a tr0 _ fuel (CCall c a) _ H1) as H2.
    unfold bind.
    destruct (exec' fuel (CCall c a) (add_trace (ObsNotify E c a) w)) as [[v|x|] w1] eqn:Hc.
    + destruct (IH (n ++ [(c, a)]) w1 H2) as (cs & rest & Hl & Hcs & Hrest & Hso).
      exists (c :: cs), rest. split; [by rewrite Hl|]. split; [by econstructor|].
      split; [done|]. cbn [map]. by rewrite <- app_assoc in Hso.
    + exists [c], l. split; [done|]. split; [by apply called_last|]. done.
    + exists [c], l. split; [done|]. split; [by apply called_last|]. done.
Qed.

(** [set] on an event that is not set marks it, takes the waiters away and
    calls them in order until one does not return; unless the event was
    cleared meanwhile it is set with the payload then, and no other call
    was made by a [set] of this event. *)
Lemma Event_set_calls fuel w E ev a :
  events w !! E = Some ev -> _flag ev = false ->
  let r := Event_set (exec' fuel) E a w in
  exists cs rest d,
    _step_coro_list ev = cs ++ rest
    /\ called_in_order (exec' fuel) E a (_step_coro_list ev) (fire E a w) (fst r) (snd r) cs
    /\ (forall v, fst r = Ok v -> rest = [])
    /\ trace (snd r) = trace w ++ d
    /\ (ObsClear E ∉ d ->
          fired E a (snd r) /\ notified E d = map (fun c => (c, a)) cs).
Proof.
  intros Hev Hfl r. subst r. unfold Event_set.
  erewrite bind_get_event by lookup. rewrite Hfl.
  erewrite bind_update_event by lookup. fold (fire E a w).
  assert (H1 : set_so_far E a (trace w) [] (fire E a w)).
  { exists []. rewrite app_nil_r. split; [done|]. right. split; [done|].
    eexists. split; [apply lookup_event_same|]. done. }
  destruct (notify_calls E a (trace w) fuel (_step_coro_list ev) [] _ H1)
    as (cs & rest & Hl & Hcs & Hrest & d & Hd & H).
  exists cs, rest, d. split; [done|]. split; [done|]. split; [done|]. split; [done|].
  intros Hcl. destruct H as [H|[Hn Hf]]; done.
Qed.

(** [set] on a fired event does nothing. *)
Lemma Event_set_fired recur E a b w :
  fired E a w -> Event_set recur E b w = (Ok VNone, w).
Proof. intros (ev & Hev & Hfl & _). unfold Event_set. mrun. by rewrite Hfl. Qed.

(** C8, as the code has it: for an event [E] that is not set, [E.set(a)]
    marks [E] as set with the payload [a], takes the waiters away, and calls
    the waiters that were registered with the arguments [a], in the order of
    registration, until one of them does not return: [cs] are the waiters
    called and [rest] those that were not, and [rest] is empty when [set]
    returns.  Unless [E.clear()] was called meanwhile, [E] is set with
    payload [a] then, [set] has called no waiter but [cs], each once; and a
    second [E.set(b)] returns without changing anything: the payload is
    still [a] and nobody is called, also not the waiters in [rest]. *)
Theorem Event_set_idempotent fuel1 fuel2 w E ev a b :
  events w !! E = Some ev -> _flag ev = false ->
  let r1 := exec' (S fuel1) (CEventSet E a) w in
  exists cs rest d,
    _step_coro_list ev = cs ++ rest
    /\ called_in_order (exec' fuel1) E a (_step_coro_list ev) (fire E a w)
         (fst r1) (snd r1) cs
    /\ (forall v, fst r1 = Ok v -> rest = [])
    /\ trace (snd r1) = trace w ++ d
    /\ (ObsClear E ∉ d ->
          fired E a (snd r1)
          /\ notified E d = map (fun c => (c, a)) cs
          /\ exec' (S fuel2) (CEventSet E b) (snd r1) = (Ok VNone, snd r1)).
Proof.
  intros Hev Hfl r1. subst r1. cbn [exec dispatch].
  destruct (Event_set_calls fuel1 w E ev a Hev Hfl)
    as (cs & rest & d & Hl & Hcs & Hrest & Hd & H).
  exists cs, rest, d. split; [done|]. split; [done|]. split; [done|]. split; [done|].
  intros Hcl. destruct (H Hcl) as [Hf Hn]. split; [done|]. split; [done|].
  by apply (Event_set_fired _ E a).
Qed.

End Once.

(** ** Waiting for an event that is fired *)

Section Late.

Variable py_repr : string -> string.
Variable py_str : value -> string.
Variable fn_body : nat -> arguments -> code.

Local Abbreviation reachable' := (reachable py_repr py_str fn_body).
Local Abbreviation run_op' := (run_op py_repr py_str fn_body).
Local Abbreviation exec' := (exec py_repr py_str fn_body).

(** [add_callback] on a fired event calls the callback with the payload. *)
Lemma add_callback_fired fuel w E p c :
  fired E p w ->
  exec' (S fuel) (CEventAddCallback E c) w
  = (let* _ := exec' fuel (CCall c p) in ret VNone) w.
Proof.
  intros (ev & Hev & Hfl & Hval). cbn [exec dispatch]. unfold Event_add_callback.
  mrun. by rewrite Hfl, Hval.
Qed.

Lemma bind_run_do {Y B} recur c (k : result -> prog Y) (K : stop Y -> M B) w :
  bind (run_prog recur (Do c k)) K w
  = match recur c w with
    | (Ok v, w') => bind (run_prog recur (k (Val v))) K w'
    | (Exc e, w') => bind (run_prog recur (k (Err e))) K w'
    | (Abort, w') => (Abort, w')
    end.
Proof. unfold bind. cbn [run_prog]. by destruct (recur c w) as [[v|e|] w']. Qed.

Lemma exec_is_set fuel w E ev :
  events w !! E = Some ev ->
  exec' (S fuel) (CEventIsSet E) w = (Ok (VBool (_flag ev)), w).
Proof. intros Hev. cbn [exec dispatch]. by mrun. Qed.

Lemma exec_value fuel w E ev :
  events w !! E = Some ev ->
  exec' (S fuel) (CEventValue E) w
  = (Ok (match _value ev with Some a => pair_of a | None => VNone end), w).
Proof. intros Hev. cbn [exec dispatch]. by mrun. Qed.

Lemma exec_step_coro fuel t a :
  exec' (S fuel) (CCall (StepCoro t) a) = Task_step_coro (exec' fuel) t a.
Proof. done. Qed.

(** [Task(E.wait())] started on a fired event: the wait yields a request to
    be resumed at once, the resumed wait reads the payload, and the task is
    done with it when [start] returns. *)
Lemma wait_fired fuel w E p :
  fired E p w -> E <> next_event w ->
  let t := _uid_iter w in
  exists w',
    run_op' (S (S fuel)) (OStart (Awaitable (Event_wait E))) w = (Ok (VTask t), w')
    /\ trace w' = trace w ++ [ObsState t STARTED; ObsState t DONE]
    /\ exists T, tasks w' !! t = Some T /\ _state T = DONE
         /\ _result T = Some (pair_of p).
Proof.
  intros (ev & Hev & Hfl & Hval) Hne t. subst t.
  cbn [run_op]. unfold start. cbn [Task_init]. unfold bind at 1.
  set (T0 := mkTask "" (_uid_iter w) (CoroCreated (Event_wait E)) CREATED None
               (next_event w) false VNone None false 0).
  set (w1 := mkWorld (<[_uid_iter w := T0]> (tasks w))
               (<[next_event w := mkEvent None false []]> (events w))
               (S (_uid_iter w)) (S (next_event w)) (trace w)).
  assert (Hn : events w1 !! next_event w = Some (mkEvent None false []))
    by apply lookup_insert_eq.
  assert (HE : events w1 !! E = Some ev).
  { unfold w1. cbn. by rewrite lookup_insert_ne. }
  assert (HB : tasks w1 !! _uid_iter w = Some T0) by apply lookup_insert_eq.
  assert (Htr : trace w1 = trace w) by done.
  rewrite <- Htr. clearbody w1. clear Htr.
  set (t := _uid_iter w) in *. clearbody t.
  eexists. split.
  { unfold drive at 1, coro_send at 1. mrun. cbn [_root_coro T0]. mrun.
    unfold Event_wait at 1. rewrite bind_run_do.
    erewrite exec_is_set by lookup. rewrite Hfl.
    cbn [propagate run_prog]. mrun. cbn [wrapper_exit]. mrun. cbn [register].
    rewrite exec_step_coro. unfold Task_step_coro. mrun.
    cbn [_root_coro set_root_coro getcoroutinestate].
    unfold drive, coro_send. mrun. cbn [_root_coro set_root_coro]. unfold coro_resume.
    mrun. cbn [pair_of no_arguments fst snd resumed]. rewrite bind_run_do.
    erewrite exec_value by lookup.
    rewrite Hval. cbn [propagate run_prog]. mrun. cbn [wrapper_exit]. mrun.
    unfold wrapper_finally. mrun. rewrite bind_attempt.
    cbn [_event set_state set_result set_root_coro T0]. unfold Event_set. mrun.
    cbn [_flag _step_coro_list notify]. mrun.
    unfold cancel_check. mrun.
    cbn [_cancel_called set_state set_result set_root_coro T0 andb]. mrun.
    reflexivity. }
  split.
  { cbn. by rewrite <- app_assoc. }
  eexists. split; [apply lookup_task_same|]. done.
Qed.

(** C9: on an event [E] that is fired with payload [p], a callback given to
    [E.add_callback] is called with [p] in that very call, and a computation
    that waits with [E.wait()] gets [p] without being suspended for longer
    than the call that runs it; [E.set] is not called. *)
Theorem late_waiter_gets_payload w E p :
  wf w -> fired E p w ->
  (forall fuel c,
     exec' (S fuel) (CEventAddCallback E c) w
     = (let* _ := exec' fuel (CCall c p) in ret VNone) w)
  /\ (forall fuel,
        let t := _uid_iter w in
        let r := run_op' (S (S fuel)) (OStart (Awaitable (Event_wait E))) w in
        fst r = Ok (VTask t)
        /\ trace (snd r) = trace w ++ [ObsState t STARTED; ObsState t DONE]
        /\ exists T, tasks (snd r) !! t = Some T /\ _state T = DONE
             /\ _result T = Some (pair_of p)).
Proof.
  intros Hr Hf. split.
  - intros fuel c. by apply add_callback_fired.
  - intros fuel t r.
    assert (Hne : E <> next_event w).
    { destruct Hf as (ev & Hev & _).
      pose proof (ok_event_fresh _ _ _ (wf_events _ Hr _ _ Hev)).
      lia. }
    destruct (wait_fired fuel w E p Hf Hne) as (w' & Hrun & Htr & HT).
    subst r t. rewrite Hrun. done.
Qed.

End Late.

(** ** The properties on the concrete program *)

Abbreviation ex_exec := (exec example_repr example_str example_fn).
Abbreviation ex_run := (run_op example_repr example_str example_fn).
Abbreviation ex_reachable := (reachable example_repr example_str example_fn).

(** What the driver of the concrete program brings about is reachable. *)
Lemma run_ops_reachable fuel l w : ex_reachable w -> ex_reachable (run_ops fuel l w).
Proof.
  revert w. induction l as [|o l IH]; intros w Hw; [done|].
  apply IH. by apply reachable_step.
Qed.

Lemma run_ops_wf fuel l w : ex_reachable w -> wf (run_ops fuel l w).
Proof. intros Hw. eapply reachable_wf, run_ops_reachable, Hw. Qed.

(** After [B = Task(sleep_forever(), name='B'); start(B)] the history of
    [B._state] is a walk from Created to Started. *)
Lemma state_moves_forward_example :
  walk CREATED (history 0 (trace sleeping_world)) STARTED.
Proof.
  refine (proj1 (state_moves_forward example_repr example_str example_fn
                   sleeping_world 0%nat sleeper _ _)).
  - repeat apply run_ops_reachable. apply reachable_empty.
  - vm_compute. reflexivity.
Defined.

(** [B = Task(sleep_forever(), name='B'); B.cancel()] *)
Lemma cancel_created_task_example :
  let r := ex_exec 1 (CCancel 0) created_world in
  fst r = Ok VNone
  /\ events (snd r) = events created_world
  /\ trace (snd r) = trace created_world ++ [ObsClose 0]
  /\ tasks (snd r) !! 0%nat = Some (set_root_coro CoroClosed (set_cancel_called true newborn))
  /\ exists T', tasks (snd r) !! 0%nat = Some T' /\ _state T' = CREATED
       /\ getcoroutinestate (_root_coro T') = CORO_CLOSED /\ _cancel_called T' = true.
Proof.
  apply (cancel_created_task example_repr example_str example_fn 0 created_world 0%nat
           newborn sleep_forever).
  - vm_compute. reflexivity.
  - reflexivity.
  - reflexivity.
  - reflexivity.
Defined.

(** After [B = Task(sleep_forever()); B.cancel()] the state is still Created,
    the completion event is not set, and [start(B)] fails inside the closed
    coroutine. *)
Example cancel_then_start :
  let r := ex_run 4 (OCall (CCancel 0)) created_world in
  fst r = Ok VNone
  /\ (_state <$> tasks (snd r) !! 0%nat) = Some CREATED
  /\ (_flag <$> events (snd r) !! 0%nat) = Some false
  /\ fst (ex_run 4 (OStart (TaskObj 0)) (snd r))
     = Exc (RuntimeError "cannot reuse already awaited coroutine")
  /\ (_state <$> tasks (snd (ex_run 4 (OStart (TaskObj 0)) (snd r))) !! 0%nat)
     = Some CREATED.
Proof. vm_compute. repeat split. Qed.

(** [start(B)] on the started task [B]. *)
Lemma start_started_task_example :
  ex_run 4 (OStart (TaskObj 0)) sleeping_world
  = (Exc (ValueError (Task_str example_repr sleeper +:+ " was already started")),
     sleeping_world).
Proof.
  refine (proj1 (proj1 (start_started_task_raises_ValueError example_repr example_str
                          example_fn sleeping_world 0%nat sleeper _ _) _ 4%nat)).
  - apply run_ops_wf. repeat apply run_ops_reachable. apply reachable_empty.
  - vm_compute. reflexivity.
  - discriminate.
Defined.

(** The second [start] of a started task raises ValueError, which is not
    InvalidStateError. *)
Lemma start_twice_is_not_InvalidStateError :
  fst (ex_run 4 (OStart (TaskObj 0)) sleeping_world)
  = Exc (ValueError "Task(uid=0, name='B') was already started")
  /\ forall msg,
       fst (ex_run 4 (OStart (TaskObj 0)) sleeping_world) <> Exc (InvalidStateError msg).
Proof. split; [vm_compute; reflexivity|]. intros msg. vm_compute. discriminate. Qed.

(** [task.result] of the finished task. *)
Lemma result_by_state_example :
  ex_exec 1 (CResult 0) done_world = (Ok (VInt 42), done_world).
Proof.
  refine (proj1 (result_by_state example_repr example_str example_fn done_world 0%nat
                   finished 0 _ _)).
  - apply run_ops_wf. repeat apply run_ops_reachable. apply reachable_empty.
  - vm_compute. reflexivity.
Defined.

(** [B.cancel()] on the sleeping task [B]. *)
Lemma cancel_sleeping_task_example :
  let r := ex_exec 1 (CCancel 0) sleeping_world in
  (exists T', tasks (snd r) !! 0%nat = Some T' /\ _state T' = CANCELLED
     /\ (fst r <> Abort -> _root_coro T' = CoroClosed))
  /\ (forall ev, events sleeping_world !! 0%nat = Some ev -> _step_coro_list ev = [] ->
        fst r = Ok VNone).
Proof.
  apply (cancel_sleeping_task example_repr example_str example_fn 0 sleeping_world 0%nat
           sleeper).
  - vm_compute. reflexivity.
  - reflexivity.
  - reflexivity.
Defined.


(** The scenario of the protection scope: [cancel] inside the scope leaves
    the task started with the request recorded; the step that leaves the
    scope and reaches the next sleep closes it. *)
Example deferred_cancel :
  let r := ex_run 4 (OCall (CCancel 0)) protected_world in
  fst r = Ok VNone
  /\ ((fun T => (_state T, _cancel_called T, _cancel_protection T))
        <$> tasks (snd r) !! 0%nat) = Some (STARTED, true, 1)
  /\ trace (snd r) = [ObsState 0 STARTED; ObsProtection 0 1]
  /\ ((fun T => (_state T, _cancel_protection T, getcoroutinestate (_root_coro T)))
        <$> tasks deferred_world !! 0%nat) = Some (CANCELLED, 0, CORO_CLOSED)
  /\ trace deferred_world
     = [ObsState 0 STARTED; ObsProtection 0 1; ObsProtection 0 0; ObsClose 0;
        ObsState 0 CANCELLED].
Proof. vm_compute. repeat split. Qed.




(** A computation that returns, or yields again, when it is closed: the
    task is Cancelled all the same, and has no result; to yield again makes
    [cancel] raise [RuntimeError]. *)
Example close_overrides_the_computation :
  let w1 := run_ops 4 [OStart (Awaitable returns_on_close)] empty_world in
  let r1 := ex_run 4 (OCall (CCancel 0)) w1 in
  let w2 := run_ops 4 [OStart (Awaitable yields_on_close)] empty_world in
  let r2 := ex_run 4 (OCall (CCancel 0)) w2 in
  fst r1 = Ok VNone
  /\ ((fun T => (_state T, _result T, getcoroutinestate (_root_coro T)))
        <$> tasks (snd r1) !! 0%nat) = Some (CANCELLED, None, CORO_CLOSED)
  /\ history 0 (trace (snd r1)) = [STARTED; CANCELLED]
  /\ fst r2 = Exc (RuntimeError "generator ignored GeneratorExit")
  /\ ((fun T => (_state T, _result T, getcoroutinestate (_root_coro T)))
        <$> tasks (snd r2) !! 0%nat) = Some (CANCELLED, None, CORO_CLOSED).
Proof. vm_compute. repeat split. Qed.

(** [E.set(1); E.set(2)] on the event with the waiters [f0] and [f2]. *)
Lemma Event_set_idempotent_example :
  let a : arguments := ([VInt 1], []) in
  let b : arguments := ([VInt 2], []) in
  let r1 := ex_exec 2 (CEventSet 0 a) event_world in
  exists cs rest d,
    [Fn 0; Fn 2] = cs ++ rest
    /\ called_in_order (ex_exec 1) 0 a [Fn 0; Fn 2] (fire 0 a event_world)
         (fst r1) (snd r1) cs
    /\ (forall v, fst r1 = Ok v -> rest = [])
    /\ trace (snd r1) = trace event_world ++ d
    /\ (ObsClear 0 ∉ d ->
          fired 0 a (snd r1)
          /\ notified 0 d = map (fun c => (c, a)) cs
          /\ ex_exec 1 (CEventSet 0 b) (snd r1) = (Ok VNone, snd r1)).
Proof.
  apply (Event_set_idempotent example_repr example_str example_fn 1 0 event_world 0%nat
           (mkEvent None false [Fn 0; Fn 2]) ([VInt 1], []) ([VInt 2], [])).
  - vm_compute. reflexivity.
  - reflexivity.
Defined.

(** A waiter that raises: [E.set(1)] on the event with the waiters [f1] and
    [f2] calls [f1] and raises what [f1] raises; [f2] is never called, not
    by [E.set(2)] either, which does nothing, and [f2] is no longer among
    the waiters. *)
Lemma raising_waiter_stops_notification :
  let a : arguments := ([VInt 1], []) in
  let r1 := ex_run 4 (OCall (CEventSet 0 a)) failing_event_world in
  let r2 := ex_run 4 (OCall (CEventSet 0 ([VInt 2], []))) (snd r1) in
  (_step_coro_list <$> events failing_event_world !! 0%nat) = Some [Fn 1; Fn 2]
  /\ fst r1 = Exc (UserError 7)
  /\ r2 = (Ok VNone, snd r1)
  /\ trace (snd r2) = [ObsNotify 0 (Fn 1) a; ObsCalled 1 a]
  /\ notified 0 (trace (snd r2)) <> map (fun c => (c, a)) [Fn 1; Fn 2]
  /\ ((fun ev => (_value ev, _flag ev, _step_coro_list ev)) <$> events (snd r2) !! 0%nat)
     = Some (Some a, true, []).
Proof. vm_compute. repeat split. discriminate. Qed.

(** The calls that [E.set(1)] makes, and [E.set(2)] after it. *)
Example set_twice :
  let a : arguments := ([VInt 1], []) in
  let r1 := ex_run 4 (OCall (CEventSet 0 a)) event_world in
  let r2 := ex_run 4 (OCall (CEventSet 0 ([VInt 2], []))) (snd r1) in
  trace (snd r1)
  = [ObsNotify 0 (Fn 0) a; ObsCalled 0 a; ObsNotify 0 (Fn 2) a; ObsCalled 2 a]
  /\ r2 = (Ok VNone, snd r1)
  /\ (_value <$> events (snd r2) !! 0%nat) = Some (Some a).
Proof. vm_compute. repeat split. Qed.

(** [start(E.wait())] on the fired event: the task is done with the payload. *)
Lemma late_waiter_gets_payload_example :
  exists T,
    tasks (snd (ex_run 2 (OStart (Awaitable (Event_wait 0))) fired_world)) !! 0%nat = Some T
    /\ _state T = DONE /\ _result T = Some (VPair [VInt 1] []).
Proof.
  refine (proj2 (proj2 (proj2 (late_waiter_gets_payload example_repr example_str
                                 example_fn fired_world 0%nat ([VInt 1], []) _ _)
                          0%nat))).
  - apply run_ops_wf. repeat apply run_ops_reachable. apply reachable_empty.
  - exists (mkEvent (Some ([VInt 1], [])) true []). split; [|split; reflexivity].
    vm_compute. reflexivity.
Defined.

(** [E.add_callback(f2)] on the fired event calls [f2] with the payload. *)
Example late_callback :
  trace (snd (ex_run 4 (OCall (CEventAddCallback 0 (Fn 2))) fired_world))
  = trace fired_world ++ [ObsCalled 2 ([VInt 1], [])].
Proof. vm_compute. reflexivity. Qed.

(** [cancel] on the finished task. *)
Lemma cancel_done_task_example :
  let r := ex_exec 1 (CCancel 0) done_world in
  fst r = Ok VNone
  /\ tasks (snd r) = <[0%nat := set_cancel_called true finished]> (tasks done_world)
  /\ events (snd r) = events done_world
  /\ (trace (snd r) = trace done_world \/ trace (snd r) = trace done_world ++ [ObsClose 0])
  /\ exists T' v,
       tasks (snd r) !! 0%nat = Some T' /\ _state T' = DONE /\ _result T' = Some v
       /\ _result finished = Some v /\ Task_result example_repr T' = Ok v.
Proof.
  apply (cancel_done_task example_repr example_str example_fn 0 done_world 0%nat finished).
  - apply run_ops_wf. repeat apply run_ops_reachable. apply reachable_empty.
  - vm_compute. reflexivity.
  - reflexivity.
Defined.

(** * Further properties of the module *)

(** ** Tasks: identity, states, and the edges of [start], [cancel] and [_step_coro] *)

Section Edges.

Variable py_repr : string -> string.
Variable py_str : value -> string.
Variable fn_body : nat -> arguments -> code.

Local Abbreviation reachable' := (reachable py_repr py_str fn_body).
Local Abbreviation run_op' := (run_op py_repr py_str fn_body).
Local Abbreviation exec' := (exec py_repr py_str fn_body).

(** X1: [Task._uid_iter] gives every task a uid of its own.  In a store that
    a run passes through, two tasks with the same [uid] are the same task;
    [Task(awaitable)] returns a task in state Created whose uid no task had
    before, and leaves every task there was as it was. *)
Theorem task_uids_are_unique w :
  wf w ->
  (forall t1 t2 T1 T2,
     tasks w !! t1 = Some T1 -> tasks w !! t2 = Some T2 -> _uid T1 = _uid T2 -> t1 = t2)
  /\ (forall fuel p nm ud,
        let r := run_op' fuel (OTask (Awaitable p) nm ud) w in
        exists u T,
          fst r = Ok (VTask u) /\ tasks (snd r) !! u = Some T
          /\ _uid T = u /\ _state T = CREATED /\ name T = nm /\ userdata T = ud
          /\ forall t T0, tasks w !! t = Some T0 ->
               _uid T0 <> u /\ tasks (snd r) !! t = Some T0).
Proof.
  intros Hwf. split.
  - intros t1 t2 T1 T2 H1 H2 Hu.
    pose proof (ok_uid _ _ _ (wf_tasks _ Hwf _ _ H1)).
    pose proof (ok_uid _ _ _ (wf_tasks _ Hwf _ _ H2)). congruence.
  - intros fuel p nm ud r. subst r. cbn.
    eexists _, _. split; [done|]. split; [apply lookup_insert_eq|].
    cbn. repeat (split; [done|]). intros t T0 HT0.
    pose proof (wf_tasks _ Hwf _ _ HT0) as Hok.
    pose proof (ok_uid _ _ _ Hok). pose proof (ok_fresh _ _ _ Hok).
    split; [lia|]. rewrite lookup_insert_ne by lia. done.
Qed.

(** X2: the state of a task and the state of its coroutine agree as the
    docstrings of [TaskState] say, in every store the driver can bring
    about: a coroutine that was not entered belongs to a Created task and a
    suspended one to a Started task; a Started task has a running or
    suspended coroutine, and a Done or Cancelled task a closed one, or one
    that is still running the [finally] clause of the wrapper. *)
Theorem state_agrees_with_coroutine w t T :
  reachable' w -> tasks w !! t = Some T ->
  match getcoroutinestate (_root_coro T) with
  | CORO_CREATED => _state T = CREATED
  | CORO_SUSPENDED => _state T = STARTED
  | CORO_CLOSED => _state T <> STARTED
  | CORO_RUNNING => True
  end
  /\ (_state T = STARTED ->
      getcoroutinestate (_root_coro T) = CORO_RUNNING
      \/ getcoroutinestate (_root_coro T) = CORO_SUSPENDED)
  /\ (ENDED (_state T) = true ->
      getcoroutinestate (_root_coro T) = CORO_RUNNING
      \/ getcoroutinestate (_root_coro T) = CORO_CLOSED).
Proof.
  intros Hr HT.
  pose proof (wf_tasks _ (reachable_wf _ _ _ _ Hr) _ _ HT) as Hok.
  destruct (_root_coro T) as [p| |k|] eqn:Hc; cbn.
  - rewrite (ok_created _ _ _ Hok _ Hc). repeat split; intros; first [done|auto].
  - auto.
  - rewrite (ok_suspended _ _ _ Hok _ Hc). repeat split; intros; first [done|auto].
  - pose proof (ok_closed _ _ _ Hok Hc). repeat split; intros; first [done|auto].
Qed.

(** X3: an event that is set has a payload: [_value] is [None] only before
    the first [set].  So [add_callback] on a set event never fails to unpack
    [self._value]; it calls the callback with the payload, and that is all it
    does. *)
Theorem set_event_has_payload w E ev :
  reachable' w -> events w !! E = Some ev -> _flag ev = true ->
  exists a,
    _value ev = Some a
    /\ forall fuel c,
         exec' (S fuel) (CEventAddCallback E c) w
         = (let* _ := exec' fuel (CCall c a) in ret VNone) w.
Proof.
  intros Hr Hev Hfl.
  pose proof (wf_events _ (reachable_wf _ _ _ _ Hr) _ _ Hev) as Hok.
  destruct (ok_payload _ _ _ Hok Hfl) as [a Ha]. exists a. split; [done|].
  intros fuel c. cbn [exec dispatch]. unfold Event_add_callback. mrun.
  by rewrite Hfl, Ha.
Qed.

(** X4: [cancel] on a Cancelled task does nothing that can be observed: it
    returns, the task stays Cancelled with what it had in [_result] and
    [_exception], no event changes and nobody is called; only
    [_cancel_called] is set.  So [cancel] may be called any number of
    times. *)
Theorem cancel_cancelled_task fuel w t T :
  wf w -> tasks w !! t = Some T -> _state T = CANCELLED ->
  let r := exec' (S fuel) (CCancel t) w in
  fst r = Ok VNone
  /\ tasks (snd r) = <[t := set_cancel_called true T]> (tasks w)
  /\ events (snd r) = events w
  /\ (trace (snd r) = trace w \/ trace (snd r) = trace w ++ [ObsClose t])
  /\ Task_result py_repr (set_cancel_called true T)
     = Exc (InvalidStateError (Task_str py_repr T +:+ " was cancelled")).
Proof.
  intros Hwf HT Hs r. subst r.
  pose proof (wf_tasks _ Hwf _ _ HT) as Hok.
  assert (Hres : Task_result py_repr (set_cancel_called true T)
                 = Exc (InvalidStateError (Task_str py_repr T +:+ " was cancelled"))).
  { unfold Task_result. cbn. by rewrite Hs. }
  cbn [exec dispatch]. unfold Task_cancel. mrun.
  destruct (_is_cancellable (set_cancel_called true T)) eqn:Hcan.
  - unfold _actual_cancel, coro_close, coro_throw. mrun. cbn.
    unfold _is_cancellable in Hcan. cbn in Hcan.
    destruct (_root_coro T) as [p| |k|] eqn:Hc.
    + pose proof (ok_created _ _ _ Hok _ Hc). congruence.
    + by rewrite andb_false_r in Hcan.
    + pose proof (ok_suspended _ _ _ Hok _ Hc). congruence.
    + cbn. split; [done|]. split; [done|]. split; [done|]. split; [by right|done].
  - cbn. split; [done|]. split; [done|]. split; [done|]. split; [by left|done].
Qed.

(** X5: the resume callback of a task whose coroutine is closed does nothing:
    [_step_coro] returns without raising, whatever it is called with, and no
    task and no event changes.  An event may safely call the callback of a
    waiter that has ended meanwhile. *)
Theorem step_coro_of_closed_task fuel w t T a :
  tasks w !! t = Some T -> getcoroutinestate (_root_coro T) = CORO_CLOSED ->
  let r := exec' (S fuel) (CCall (StepCoro t) a) w in
  fst r = Ok VNone /\ tasks (snd r) = tasks w /\ events (snd r) = events w
  /\ (trace (snd r) = trace w \/ trace (snd r) = trace w ++ [ObsClose t]).
Proof.
  intros HT Hst r. subst r.
  assert (Hc : _root_coro T = CoroClosed) by (by destruct (_root_coro T)).
  cbn [exec dispatch]. unfold Task_step_coro. mrun.
  rewrite Hc. cbn [getcoroutinestate]. unfold cancel_check. mrun.
  destruct (_cancel_called T && _is_cancellable T).
  - unfold _actual_cancel, coro_close. mrun. rewrite Hc. mrun. cbn. auto.
  - cbn. auto.
Qed.

(** X6: a coroutine that is executing cannot be resumed: [_step_coro] of a
    task called while that task runs (by the task itself, or by somebody the
    task has called) raises ValueError out of [coro.send] and changes
    nothing. *)
Theorem step_coro_of_running_task fuel w t T a :
  tasks w !! t = Some T -> getcoroutinestate (_root_coro T) = CORO_RUNNING ->
  exec' (S fuel) (CCall (StepCoro t) a) w
  = (Exc (ValueError "coroutine already executing"), w).
Proof.
  intros HT Hst.
  assert (Hc : _root_coro T = CoroRunning) by (by destruct (_root_coro T)).
  cbn [exec dispatch]. unfold Task_step_coro. mrun.
  rewrite Hc. cbn [getcoroutinestate]. unfold drive, coro_send. mrun.
  rewrite Hc. by mrun.
Qed.

(** [coro.send] into a coroutine that is executing or closed raises. *)
Lemma drive_not_startable recur w t T v :
  tasks w !! t = Some T ->
  _root_coro T = CoroRunning \/ _root_coro T = CoroClosed ->
  exists e, drive recur t v w = (Exc e, w).
Proof.
  intros HT [Hc|Hc]; unfold drive, coro_send; mrun; rewrite Hc; mrun; eauto.
Qed.

(** [start(awaitable)] is [start(Task(awaitable))]. *)
Lemma start_awaitable fuel w p :
  run_op' fuel (OStart (Awaitable p)) w
  = run_op' fuel (OStart (TaskObj (_uid_iter w)))
      (snd (run_op' fuel (OTask (Awaitable p) "" VNone) w)).
Proof.
  cbn [run_op]. unfold start. unfold bind at 1. cbn [Task_init].
  symmetry. unfold bind at 1. unfold bind at 1, get_task. cbn.
  by rewrite lookup_insert_eq.
Qed.

(** X12: when [start] returns, it returns the task it was given, or the new
    task it made for an awaitable (whose uid is the next one); and that task
    is not in state Created any more: it is Started, Done or Cancelled. *)
Theorem start_returns_its_task fuel w x v :
  wf w ->
  fst (run_op' fuel (OStart x) w) = Ok v ->
  exists t T',
    v = VTask t
    /\ match x with
       | TaskObj t0 => t = t0
       | Awaitable _ => t = _uid_iter w /\ tasks w !! t = None
       | Other _ => False
       end
    /\ tasks (snd (run_op' fuel (OStart x) w)) !! t = Some T'
    /\ _state T' <> CREATED.
Proof.
  intros Hwf Hok. destruct x as [p|t|u].
  - assert (Hv : v = VTask (_uid_iter w)).
    { cbn [run_op] in Hok. unfold start in Hok. unfold bind at 1 in Hok.
      cbn [Task_init] in Hok. unfold bind at 1 in Hok.
      destruct (drive _ _ _ _) as [[u|e|] w2]; cbn in Hok; congruence. }
    assert (Hnew : tasks w !! _uid_iter w = None).
    { destruct (tasks w !! _uid_iter w) as [T0|] eqn:HT0; [|done].
      pose proof (ok_fresh _ _ _ (wf_tasks _ Hwf _ _ HT0)). lia. }
    rewrite start_awaitable.
    set (w1 := snd (run_op' fuel (OTask (Awaitable p) "" VNone) w)).
    assert (Hwf1 : wf w1) by (eapply steps_wf; [by apply run_op_from|done]).
    destruct (start_leaves_created py_repr py_str fn_body fuel w1 (_uid_iter w)
                (mkTask "" (_uid_iter w) (CoroCreated p) CREATED None (next_event w)
                   false VNone None false 0) p Hwf1)
      as (T' & HT' & Hs); [apply lookup_insert_eq|done|].
    exists (_uid_iter w), T'. done.
  - assert (Hv : v = VTask t /\ exists T p, tasks w !! t = Some T
                                      /\ _root_coro T = CoroCreated p).
    { cbn [run_op] in Hok. unfold start in Hok. unfold bind at 1 in Hok.
      unfold bind at 1, get_task in Hok.
      destruct (tasks w !! t) as [T|] eqn:HT; [|done].
      pose proof (wf_tasks _ Hwf _ _ HT) as HTok.
      destruct (_state T) eqn:Hs; try done. cbn in Hok.
      destruct (_root_coro T) as [p| |k|] eqn:Hc.
      - unfold bind at 1 in Hok.
        destruct (drive _ _ _ _) as [[u|e|] w2]; cbn in Hok; [|done..].
        split; [congruence|]. eauto.
      - destruct (drive_not_startable (exec' fuel) w t T VNone HT) as [e He]; [auto|].
        unfold bind at 1 in Hok. by rewrite He in Hok.
      - pose proof (ok_suspended _ _ _ HTok _ Hc). congruence.
      - destruct (drive_not_startable (exec' fuel) w t T VNone HT) as [e He]; [auto|].
        unfold bind at 1 in Hok. by rewrite He in Hok. }
    destruct Hv as (-> & T & p & HT & Hc).
    destruct (start_leaves_created py_repr py_str fn_body fuel w t T p Hwf HT Hc)
      as (T' & HT' & Hs).
    exists t, T'. done.
  - cbn [run_op] in Hok. unfold start in Hok. by unfold bind at 1 in Hok.
Qed.

(** X13: what is neither a task nor awaitable is refused before anything is
    done: [Task(x)] and [start(x)] raise ValueError and leave the store as it
    was, so no uid is used up; and a Task is not awaitable, [Task(task)]
    raises as well. *)
Theorem not_awaitable_is_refused fuel w nm ud :
  (forall v,
     run_op' fuel (OTask (Other v) nm ud) w
     = (Exc (ValueError (py_str v +:+ " is not awaitable.")), w)
     /\ run_op' fuel (OStart (Other v)) w
        = (Exc (ValueError "Argument must be either of a Task or an awaitable."), w))
  /\ (forall t T, tasks w !! t = Some T ->
        run_op' fuel (OTask (TaskObj t) nm ud) w
        = (Exc (ValueError (Task_str py_repr T +:+ " is not awaitable.")), w)).
Proof.
  split.
  - intros v. split; [done|]. cbn [run_op]. unfold start. by mrun.
  - intros t T HT. cbn [run_op Task_init]. by mrun.
Qed.

End Edges.

(** ** Events and the completion of a task *)

Section Notify.

Variable py_repr : string -> string.
Variable py_str : value -> string.
Variable fn_body : nat -> arguments -> code.

Local Abbreviation reachable' := (reachable py_repr py_str fn_body).
Local Abbreviation run_op' := (run_op py_repr py_str fn_body).
Local Abbreviation exec' := (exec py_repr py_str fn_body).

(** The [finally] clause of the wrapper changes the trace and the events as
    [self._event.set(self)] does. *)
Lemma wrapper_finally_store recur t T leave w :
  tasks w !! t = Some T ->
  (forall w', snd (leave w') = w') ->
  let r := wrapper_finally recur t leave w in
  let n := Event_set recur (_event T) ([VTask t], []) w in
  trace (snd r) = trace (snd n) /\ events (snd r) = events (snd n).
Proof.
  intros HT Hleave r n. subst r n. unfold wrapper_finally. mrun. rewrite bind_attempt.
  destruct (Event_set recur (_event T) ([VTask t], []) w) as [[v|x|] w2]; [| |done].
  - unfold update_task, bind, get_task, modify.
    destruct (tasks w2 !! t); [|done]. by rewrite Hleave.
  - unfold update_task, bind, get_task, modify.
    destruct (tasks w2 !! t); done.
Qed.

(** X7: when the computation of a task returns [v], the wrapper stores [v] in
    [_result] and sets the state to Done, and only then sets the completion
    event: the waiters of the completion event are called with the task as
    the argument, in the order of registration, each in the store that the
    one before left, until one does not return ([cs] are those called, and
    they are all when the coroutine ends normally); an exception of a
    waiter comes out of the coroutine.  Unless somebody cleared the event
    meanwhile, it is set with the task as payload, and [set] has called
    nobody else.  Whatever the waiters do, the task is Done with result [v]
    afterwards. *)
Theorem finished_task_notifies_waiters fuel w t T v ev :
  tasks w !! t = Some T -> _root_coro T = CoroRunning ->
  events w !! _event T = Some ev -> _flag ev = false ->
  let a : arguments := ([VTask t], []) in
  let r := wrapper_exit (exec' fuel) t (Returned v) w in
  (exists T', tasks (snd r) !! t = Some T' /\ _state T' = DONE /\ _result T' = Some v)
  /\ exists cs rest o wn d,
       _step_coro_list ev = cs ++ rest
       /\ called_in_order (exec' fuel) (_event T) a (_step_coro_list ev)
            (fire (_event T) a (else_clause t T v w)) o wn cs
       /\ fst r = match o with
                  | Ok _ => Ok (StopIteration VNone)
                  | Exc x => Exc x
                  | Abort => Abort
                  end
       /\ (forall s, fst r = Ok s -> rest = [])
       /\ trace (snd r) = trace wn /\ events (snd r) = events wn
       /\ trace wn = trace w ++ ObsState t DONE :: d
       /\ (ObsClear (_event T) ∉ d ->
             notified (_event T) d = map (fun c => (c, a)) cs
             /\ fired (_event T) a (snd r)).
Proof.
  intros HT Hc Hev Hfl a r. subst r a. cbn [wrapper_exit]. mrun.
  set (T1 := set_state DONE (set_result v T)).
  fold (else_clause t T v w).
  match goal with |- context [wrapper_finally _ _ ?l ?w0] =>
    set (w1 := w0); set (leave := l) end.
  set (phi := fun T' : Task => _state T' = DONE /\ _result T' = Some v).
  assert (Hphi : soft_stable phi) by (intros T' [H1 H2]; repeat split; done).
  assert (Hco : forall c T', phi T' -> phi (set_root_coro c T')) by (by intros c T' H).
  assert (HT1 : tasks w1 !! t = Some T1) by (unfold w1, else_clause; lookup).
  assert (Hev1 : events w1 !! _event T = Some ev) by (unfold w1, else_clause; cbn; lookup).
  destruct (wrapper_finally_outcome py_repr py_str fn_body fuel t T1 phi leave w1
              Hphi Hco HT1 Hc (conj eq_refl eq_refl) (fun _ => eq_refl))
    as [(T' & HT' & Hs' & Hr') Hout].
  destruct (wrapper_finally_store (exec' fuel) t T1 leave w1 HT1 (fun _ => eq_refl))
    as [Htr Hevs].
  change (_event T1) with (_event T) in *.
  set (a := ([VTask t], []) : arguments) in *.
  destruct (Event_set_calls py_repr py_str fn_body fuel w1 (_event T) ev a Hev1 Hfl)
    as (cs & rest & d & Hl & Hcs & Hrest & Hd & Hlog).
  split; [by exists T'|].
  exists cs, rest, (fst (Event_set (exec' fuel) (_event T) a w1)),
    (snd (Event_set (exec' fuel) (_event T) a w1)), d.
  split; [done|]. split; [done|]. split; [done|]. split.
  { intros s Hs. rewrite Hout in Hs.
    destruct (fst (Event_set (exec' fuel) (_event T) a w1)) as [u| |] eqn:Hn; [|done..].
    by apply (Hrest u). }
  split; [done|]. split; [done|]. split.
  { rewrite Hd. unfold w1, else_clause. cbn. by rewrite <- app_assoc. }
  intros Hcl. destruct (Hlog Hcl) as [(ev' & Hev' & Hfl' & Hval') Hnot].
  split; [done|]. exists ev'. by rewrite Hevs.
Qed.

(** X8: [clear] makes a set event not set again and keeps its payload and
    its waiters: after [clear], [is_set()] is False, and the next [set(b)]
    is not a no-op: it calls the waiters with [b], in the order of
    registration, until one does not return ([cs] are those called, all of
    them when [set] returns), and unless the event was cleared meanwhile
    the payload is [b] then and [set] has called nobody else. *)
Theorem clear_rearms_event fuel w E ev :
  events w !! E = Some ev ->
  let r := exec' (S fuel) (CEventClear E) w in
  fst r = Ok VNone
  /\ tasks (snd r) = tasks w
  /\ events (snd r) = <[E := mkEvent (_value ev) false (_step_coro_list ev)]> (events w)
  /\ exec' (S fuel) (CEventIsSet E) (snd r) = (Ok (VBool false), snd r)
  /\ forall fuel' b,
       let r2 := exec' (S fuel') (CEventSet E b) (snd r) in
       exists cs rest d,
         _step_coro_list ev = cs ++ rest
         /\ called_in_order (exec' fuel') E b (_step_coro_list ev) (fire E b (snd r))
              (fst r2) (snd r2) cs
         /\ (forall v, fst r2 = Ok v -> rest = [])
         /\ trace (snd r2) = trace (snd r) ++ d
         /\ (ObsClear E ∉ d ->
               fired E b (snd r2) /\ notified E d = map (fun c => (c, b)) cs).
Proof.
  intros Hev r. subst r. cbn [exec dispatch]. unfold Event_clear. mrun. cbn [fst snd].
  split; [done|]. split; [done|]. split; [done|]. split.
  { mrun. done. }
  intros fuel' b. cbn zeta.
  apply (Event_set_calls py_repr py_str fn_body fuel' _ E
           (mkEvent (_value ev) false (_step_coro_list ev)) b); [lookup|done].
Qed.

(** X9: [add_callback] on an event that is not set calls nobody: it puts the
    callback at the end of the waiters.  The next [set(a)] calls the earlier
    waiters and then the callback with [a], in this order, until one does
    not return ([cs] are those called, all of them when [set] returns);
    unless the event was cleared meanwhile, [set] has called nobody else. *)
Theorem callback_waits_for_set fuel w E ev c :
  events w !! E = Some ev -> _flag ev = false ->
  let r := exec' (S fuel) (CEventAddCallback E c) w in
  r = (Ok VNone,
       set_events (<[E := mkEvent (_value ev) false (_step_coro_list ev ++ [c])]> (events w)) w)
  /\ forall fuel' a,
       let r2 := exec' (S fuel') (CEventSet E a) (snd r) in
       exists cs rest d,
         _step_coro_list ev ++ [c] = cs ++ rest
         /\ called_in_order (exec' fuel') E a (_step_coro_list ev ++ [c]) (fire E a (snd r))
              (fst r2) (snd r2) cs
         /\ (forall v, fst r2 = Ok v -> rest = [])
         /\ trace (snd r2) = trace w ++ d
         /\ (ObsClear E ∉ d ->
               fired E a (snd r2) /\ notified E d = map (fun c' => (c', a)) cs).
Proof.
  intros Hev Hfl r.
  assert (Hr : r = (Ok VNone,
       set_events (<[E := mkEvent (_value ev) false (_step_coro_list ev ++ [c])]> (events w)) w)).
  { subst r. cbn [exec dispatch]. unfold Event_add_callback. mrun. rewrite Hfl. mrun.
    by rewrite Hfl. }
  split; [done|]. rewrite Hr. intros fuel' a. cbn zeta. cbn [snd].
  set (ev' := mkEvent (_value ev) false (_step_coro_list ev ++ [c])).
  destruct (Event_set_calls py_repr py_str fn_body fuel'
              (set_events (<[E := ev']> (events w)) w) E ev' a
              (lookup_event_same _ _ _ _) eq_refl)
    as (cs & rest & d & H1 & H2 & H3 & H4 & H5).
  exists cs, rest, d. split; [exact H1|]. split; [exact H2|]. split; [exact H3|].
  split; [exact H4|exact H5].
Qed.

End Notify.

(** ** Waiting, and asking for the current task *)

Section Waiting.

Variable py_repr : string -> string.
Variable py_str : value -> string.
Variable fn_body : nat -> arguments -> code.

Local Abbreviation reachable' := (reachable py_repr py_str fn_body).
Local Abbreviation run_op' := (run_op py_repr py_str fn_body).
Local Abbreviation exec' := (exec py_repr py_str fn_body).

(** [start(E.wait())] on an event that is not set: the new task is suspended
    and its resume callback is the last waiter of the event. *)
Lemma wait_unfired fuel w E ev :
  events w !! E = Some ev -> _flag ev = false -> E <> next_event w ->
  let t := _uid_iter w in
  let T := mkTask "" t (CoroSuspended (resumed Ret)) STARTED None (next_event w) false
             VNone None false 0 in
  exists w',
    run_op' (S fuel) (OStart (Awaitable (Event_wait E))) w = (Ok (VTask t), w')
    /\ tasks w' !! t = Some T
    /\ events w' !! E = Some (mkEvent (_value ev) false (_step_coro_list ev ++ [StepCoro t]))
    /\ events w' !! next_event w = Some (mkEvent None false [])
    /\ trace w' = trace w ++ [ObsState t STARTED].
Proof.
  intros Hev Hfl Hne t T. subst t T.
  cbn [run_op]. unfold start. cbn [Task_init]. unfold bind at 1.
  set (T0 := mkTask "" (_uid_iter w) (CoroCreated (Event_wait E)) CREATED None
               (next_event w) false VNone None false 0).
  set (w1 := mkWorld (<[_uid_iter w := T0]> (tasks w))
               (<[next_event w := mkEvent None false []]> (events w))
               (S (_uid_iter w)) (S (next_event w)) (trace w)).
  assert (Hn : events w1 !! next_event w = Some (mkEvent None false []))
    by apply lookup_insert_eq.
  assert (HE : events w1 !! E = Some ev).
  { unfold w1. cbn. by rewrite lookup_insert_ne. }
  assert (HB : tasks w1 !! _uid_iter w = Some T0) by apply lookup_insert_eq.
  assert (Htr : trace w1 = trace w) by done.
  rewrite <- Htr. clearbody w1. clear Htr.
  set (t := _uid_iter w) in *. clearbody t.
  eexists. split.
  { unfold drive at 1, coro_send at 1. mrun. cbn [_root_coro T0]. mrun.
    unfold Event_wait at 1. rewrite bind_run_do.
    erewrite exec_is_set by lookup. rewrite Hfl.
    cbn [propagate run_prog]. mrun. cbn [wrapper_exit]. mrun. cbn [register]. mrun.
    unfold cancel_check. mrun.
    cbn [_cancel_called set_state set_root_coro T0 andb]. mrun.
    reflexivity. }
  split; [by lookup|]. split.
  { cbn. rewrite lookup_insert_eq. by rewrite Hfl. }
  split; [|done]. cbn. rewrite lookup_insert_ne by done. exact Hn.
Qed.

(** X10: a task that waits with [E.wait()] for an event that is not set is
    suspended until [E.set(a)]: [set] resumes it with the arguments, [wait]
    returns them as the pair [(args, kwargs)], and for [Task(E.wait())] the
    task is Done with that pair as its result when [set] returns. *)
Theorem waiting_task_gets_arguments fuel w E ev a :
  wf w -> events w !! E = Some ev -> _flag ev = false -> _step_coro_list ev = [] ->
  let t := _uid_iter w in
  let r1 := run_op' (S fuel) (OStart (Awaitable (Event_wait E))) w in
  let r2 := run_op' (S (S fuel)) (OCall (CEventSet E a)) (snd r1) in
  fst r1 = Ok (VTask t)
  /\ (exists T1, tasks (snd r1) !! t = Some T1 /\ _state T1 = STARTED
        /\ getcoroutinestate (_root_coro T1) = CORO_SUSPENDED)
  /\ fst r2 = Ok VNone
  /\ (exists T2, tasks (snd r2) !! t = Some T2 /\ _state T2 = DONE
        /\ _result T2 = Some (pair_of a))
  /\ fired E a (snd r2).
Proof.
  intros Hwf Hev Hfl Hl t r1 r2.
  assert (Hne : E <> next_event w).
  { pose proof (ok_event_fresh _ _ _ (wf_events _ Hwf _ _ Hev)). lia. }
  destruct (wait_unfired fuel w E ev Hev Hfl Hne) as (w' & Hrun & HT & HE & Hown & Htr).
  subst r1 r2 t. rewrite Hrun. cbn [fst snd]. clear Hrun.
  cbn zeta in HT, HE, Htr. rewrite Hl in HE. cbn [app] in HE.
  set (t := _uid_iter w) in *.
  set (T1 := mkTask "" t (CoroSuspended (resumed Ret)) STARTED None (next_event w) false
               VNone None false 0) in *.
  clearbody t.
  split; [done|]. split; [by exists T1|].
  assert (Hset : exists w2,
            run_op' (S (S fuel)) (OCall (CEventSet E a)) w' = (Ok VNone, w2)
            /\ (exists T2, tasks w2 !! t = Some T2 /\ _state T2 = DONE
                  /\ _result T2 = Some (pair_of a))
            /\ fired E a w2).
  { eexists. split.
    { cbn [run_op].
      change (exec' (S (S fuel)) (CEventSet E a)) with (Event_set (exec' (S fuel)) E a).
      unfold Event_set at 1. mrun.
      cbn [_flag _step_coro_list notify]. mrun.
      rewrite exec_step_coro. unfold Task_step_coro. mrun. cbn [_root_coro T1 getcoroutinestate].
      unfold drive, coro_send. mrun. cbn [_root_coro T1]. unfold coro_resume. mrun.
      cbn [resumed run_prog]. mrun. cbn [wrapper_exit]. mrun.
      unfold wrapper_finally. mrun. rewrite bind_attempt.
      cbn [_event set_state set_result set_root_coro T1]. unfold Event_set.
      assert (Hne' : E <> next_event w) by done.
      erewrite bind_get_event
        by (repeat first [rewrite lookup_event_trace|rewrite lookup_event_tasks];
            cbn; rewrite lookup_insert_ne by done; exact Hown).
      cbn [_flag].
      erewrite bind_update_event
        by (repeat first [rewrite lookup_event_trace|rewrite lookup_event_tasks];
            cbn; rewrite lookup_insert_ne by done; exact Hown).
      cbn [_step_coro_list notify]. mrun.
      reflexivity. }
    split.
    - eexists. split; [by lookup|]. done.
    - assert (Hne' : next_event w <> E) by done.
      eexists. split; [cbn; rewrite lookup_insert_ne by done; apply lookup_insert_eq|done]. }
  destruct Hset as (w2 & -> & H2 & H3). done.
Qed.

(** X11: [get_step_coro] and [get_current_task] ask the driver for the resume
    callback, which is [task._step_coro] of the running task, and for its
    [__self__]: awaited in a task, they give that task's callback and that
    task, at once and without changing anything else.  [Task(get_current_task())]
    is Done with itself as the result when [start] returns. *)
Theorem current_task_is_the_running_task fuel w :
  (forall (k : value -> coro), exists K,
     await get_current_task k = Yield RegSelf K
     /\ (forall t, K (Sent (pair_of ([VCallable (StepCoro t)], []))) = k (VTask t))
     /\ (forall f, K (Sent (pair_of ([VCallable (Fn f)], []))) = k VNone)
     /\ (forall e, K (Thrown e) = Raise e))
  /\ (forall (k : value -> coro), exists K,
        await get_step_coro k = Yield RegSelf K
        /\ (forall c, K (Sent (pair_of ([VCallable c], []))) = k (VCallable c))
        /\ (forall e, K (Thrown e) = Raise e))
  /\ (let t := _uid_iter w in
      exists w',
        run_op' (S fuel) (OStart (Awaitable get_current_task)) w = (Ok (VTask t), w')
        /\ trace w' = trace w ++ [ObsState t STARTED; ObsState t DONE]
        /\ exists T, tasks w' !! t = Some T /\ _state T = DONE
             /\ _result T = Some (VTask t)).
Proof.
  split; [|split].
  - intros k. eexists. split; [reflexivity|]. done.
  - intros k. eexists. split; [reflexivity|]. done.
  - intros t. subst t.
    cbn [run_op]. unfold start. cbn [Task_init]. unfold bind at 1.
    set (T0 := mkTask "" (_uid_iter w) (CoroCreated get_current_task) CREATED None
                 (next_event w) false VNone None false 0).
    set (w1 := mkWorld (<[_uid_iter w := T0]> (tasks w))
                 (<[next_event w := mkEvent None false []]> (events w))
                 (S (_uid_iter w)) (S (next_event w)) (trace w)).
    assert (Hn : events w1 !! next_event w = Some (mkEvent None false []))
      by apply lookup_insert_eq.
    assert (HB : tasks w1 !! _uid_iter w = Some T0) by apply lookup_insert_eq.
    assert (Htr : trace w1 = trace w) by done.
    rewrite <- Htr. clearbody w1. clear Htr.
    set (t := _uid_iter w) in *. clearbody t.
    eexists. split.
    { unfold drive at 1, coro_send at 1. mrun. cbn [_root_coro T0]. mrun.
      unfold get_current_task at 1, get_step_coro. cbn [await run_prog]. mrun.
      cbn [wrapper_exit]. mrun. cbn [register].
      rewrite exec_step_coro. unfold Task_step_coro. mrun.
      cbn [_root_coro set_root_coro getcoroutinestate].
      unfold drive, coro_send. mrun. cbn [_root_coro set_root_coro]. unfold coro_resume.
      mrun. cbn [pair_of fst snd resumed first_argument await getattr_self run_prog]. mrun.
      cbn [wrapper_exit]. mrun.
      unfold wrapper_finally. mrun. rewrite bind_attempt.
      cbn [_event set_state set_result set_root_coro T0]. unfold Event_set. mrun.
      cbn [_flag _step_coro_list notify]. mrun.
      unfold cancel_check. mrun.
      cbn [_cancel_called set_state set_result set_root_coro T0 andb]. mrun.
      reflexivity. }
    split.
    { cbn. by rewrite <- app_assoc. }
    eexists. split; [apply lookup_task_same|]. done.
Qed.

End Waiting.

(** ** More edges, and [aclosing] *)

Section More.

Variable py_repr : string -> string.
Variable py_str : value -> string.
Variable fn_body : nat -> arguments -> code.

Local Abbreviation reachable' := (reachable py_repr py_str fn_body).
Local Abbreviation run_op' := (run_op py_repr py_str fn_body).
Local Abbreviation exec' := (exec py_repr py_str fn_body).

(** X14: [cancel] never closes a coroutine that is executing.  When a task
    cancels itself, or is cancelled by somebody it has called (a waiter that
    its completion event is calling, say), [cancel] sets [_cancel_called] and
    does nothing else, whatever the protection depth. *)
Theorem cancel_running_task fuel w t T :
  tasks w !! t = Some T -> getcoroutinestate (_root_coro T) = CORO_RUNNING ->
  exec' (S fuel) (CCancel t) w
  = (Ok VNone, set_tasks (<[t := set_cancel_called true T]> (tasks w)) w).
Proof.
  intros HT Hst.
  assert (Hc : _root_coro T = CoroRunning) by (by destruct (_root_coro T)).
  cbn [exec dispatch]. unfold Task_cancel. mrun.
  unfold _is_cancellable. cbn. rewrite Hc. cbn. by rewrite andb_false_r.
Qed.

(** X15: a task that was cancelled before it was started cannot be started:
    its state is still Created, so [start] goes on to [coro.send], which
    raises RuntimeError for the closed coroutine; nothing changes, and the
    task stays in state Created. *)
Theorem start_of_closed_task fuel w t T :
  tasks w !! t = Some T -> _state T = CREATED ->
  getcoroutinestate (_root_coro T) = CORO_CLOSED ->
  run_op' fuel (OStart (TaskObj t)) w
  = (Exc (RuntimeError "cannot reuse already awaited coroutine"), w).
Proof.
  intros HT Hs Hst.
  assert (Hc : _root_coro T = CoroClosed) by (by destruct (_root_coro T)).
  cbn [run_op]. unfold start. mrun. rewrite Hs. mrun.
  unfold drive, coro_send. mrun. rewrite Hc. by mrun.
Qed.


End More.

(** ** A closed task is final *)

Lemma step_keeps_task w w' t T :
  step w w' -> wf w -> tasks w !! t = Some T ->
  exists T', tasks w' !! t = Some T' /\ same_task T T'
    /\ (_root_coro T = CoroClosed -> settled T T').
Proof.
  intros Hstep Hwf HT.
  assert (Hsame : exists T', tasks w !! t = Some T' /\ same_task T T'
                    /\ (_root_coro T = CoroClosed -> settled T T')).
  { exists T. split; [done|]. split; [done|]. intros Hc. done. }
  destruct Hstep; cbn; try exact Hsame;
    try (destruct (decide (t0 = t)) as [->|Hne];
         [rewrite lookup_insert_eq; simplify_eq; eexists; split; [done|];
          split; [done|]; intros Hc; unfold settled, coro_move in *; cbn;
          try rewrite Hc in *; by try congruence
         |rewrite lookup_insert_ne by done; exact Hsame]).
  destruct (decide (_uid_iter w = t)) as [<-|Hne].
  - apply (wf_tasks _ Hwf) in HT as []. lia.
  - rewrite lookup_insert_ne by done. exact Hsame.
Qed.

Lemma steps_keep_task w w' t T :
  steps w w' -> wf w -> tasks w !! t = Some T ->
  exists T', tasks w' !! t = Some T' /\ same_task T T'
    /\ (_root_coro T = CoroClosed -> settled T T').
Proof.
  intros Hsteps. revert T. induction Hsteps as [w|w w1 w2 H1 H2 IH]; intros T Hwf HT.
  - exists T. split; [done|]. split; [done|]. intros Hc. done.
  - destruct (step_keeps_task _ _ _ _ H1 Hwf HT) as (T1 & HT1 & Hs1 & Hc1).
    destruct (IH T1 (step_wf _ _ H1 Hwf) HT1) as (T2 & HT2 & Hs2 & Hc2).
    exists T2. split; [done|]. split.
    + destruct Hs1 as (? & ? & ? & ?), Hs2 as (? & ? & ? & ?).
      repeat split; congruence.
    + intros Hc. destruct (Hc1 Hc) as (Hcl & ? & ? & ?).
      destruct (Hc2 Hcl) as (? & ? & ? & ?). repeat split; congruence.
Qed.

Section Final.

Variable py_repr : string -> string.
Variable py_str : value -> string.
Variable fn_body : nat -> arguments -> code.

Local Abbreviation run_op' := (run_op py_repr py_str fn_body).

(** X17: no operation removes a task or changes its uid, name, userdata or
    completion event; and once the coroutine of a task is closed, the task is
    final: whatever is done afterwards, by the driver or by any computation
    or callback it sets off, the coroutine stays closed and [_state],
    [_result] and [_exception] keep their values.  In particular the result
    of a Done task never changes. *)
Theorem closed_task_is_final fuel o w t T :
  wf w -> tasks w !! t = Some T ->
  exists T',
    tasks (snd (run_op' fuel o w)) !! t = Some T'
    /\ same_task T T'
    /\ (_root_coro T = CoroClosed -> settled T T').
Proof.
  intros Hwf HT. eapply steps_keep_task; [|done..]. by apply run_op_from.
Qed.

End Final.

(** ** No coroutine is left executing *)

Lemma keeps_ret {A} (I : world -> Prop) (a : A) : keeps I (ret a).
Proof. by apply triple_ret. Qed.

Lemma keeps_raise {A} (I : world -> Prop) e : keeps I (@raise A e).
Proof. by apply triple_raise. Qed.

Lemma keeps_abort {A} (I : world -> Prop) : keeps I (@abort A).
Proof. intros w Hw. done. Qed.

Lemma keeps_lift {A} (I : world -> Prop) (o : outcome A) : keeps I (lift o).
Proof. intros w Hw. unfold lift. by destruct o. Qed.

Lemma keeps_bind {A B} (I : world -> Prop) (m : M A) (k : A -> M B) :
  keeps I m -> (forall a, keeps I (k a)) -> keeps I (bind m k).
Proof. intros Hm Hk. eapply triple_bind; [exact Hm|exact Hk]. Qed.

Lemma keeps_attempt {A} (I : world -> Prop) (m : M A) : keeps I m -> keeps I (attempt m).
Proof. intros Hm. by apply triple_attempt. Qed.

Lemma keeps_get_task {B} (I : world -> Prop) t (k : Task -> M B) :
  (forall T, triple (fun w => I w /\ tasks w !! t = Some T) (k T) (fun _ => I) (fun _ => I)) ->
  keeps I (bind (get_task t) k).
Proof. intros H. by apply triple_get_task. Qed.

Lemma keeps_weaken {A} (I P : world -> Prop) (m : M A) :
  keeps I m -> (forall w, P w -> I w) -> triple P m (fun _ => I) (fun _ => I).
Proof. intros H HP. eapply triple_conseq; [exact H|done..]. Qed.

Lemma keeps_get_event {B} (I : world -> Prop) e (k : Event -> M B) :
  (forall ev, keeps I (k ev)) -> keeps I (bind (get_event e) k).
Proof.
  intros H w Hw. unfold bind, get_event. destruct (events w !! e) as [ev|]; [|done].
  by apply (H ev).
Qed.

Lemma keeps_update_event (I : world -> Prop) e f :
  (forall w m, I w -> I (set_events m w)) -> keeps I (update_event e f).
Proof.
  intros H w Hw. unfold update_event, bind, get_event, modify.
  destruct (events w !! e) as [ev|]; cbn; auto.
Qed.

Lemma keeps_observe (I : world -> Prop) o :
  (forall w, I w -> I (add_trace o w)) -> keeps I (observe o).
Proof. intros H. by apply triple_observe. Qed.

Lemma triple_pure {A} (phi : Prop) (P : world -> Prop) (m : M A) Q X :
  (forall w, P w -> phi) -> (phi -> triple P m Q X) -> triple P m Q X.
Proof. intros Hphi H w Hw. exact (H (Hphi w Hw) w Hw). Qed.

Lemma runs_trace R o w : runs R w -> runs R (add_trace o w).
Proof. intros H. exact H. Qed.

Lemma runs_events R m w : runs R w -> runs R (set_events m w).
Proof. intros H. exact H. Qed.

Lemma is_running_insert w t T' x :
  is_running (set_tasks (<[t := T']> (tasks w)) w) x
  <-> (x = t /\ _root_coro T' = CoroRunning) \/ (x <> t /\ is_running w x).
Proof.
  unfold is_running. cbn. destruct (decide (x = t)) as [->|Hne].
  - rewrite lookup_insert_eq. split.
    + intros (T & [= <-] & Hc). auto.
    + intros [[_ Hc]|[? _]]; [eauto|done].
  - rewrite lookup_insert_ne by done. split; [auto|]. intros [[? _]|[_ H]]; done.
Qed.

Lemma runs_insert R R' w t T T' :
  tasks w !! t = Some T -> runs R w ->
  (forall x, ((x = t /\ _root_coro T' = CoroRunning) \/ (x <> t /\ R x)) <-> R' x) ->
  runs R' (set_tasks (<[t := T']> (tasks w)) w).
Proof.
  intros HT [Hfresh HR] HR'. split.
  - intros x X. cbn. destruct (decide (x = t)) as [->|Hne].
    + intros _. by eapply Hfresh.
    + rewrite lookup_insert_ne by done. apply Hfresh.
  - intros x. rewrite is_running_insert, <- HR'.
    split; (intros [H|[H1 H2]]; [by left|right; split; [done|by apply HR]]).
Qed.

(** Changing a task without changing whether its coroutine is executing. *)
Lemma runs_same R w t T T' :
  tasks w !! t = Some T -> runs R w ->
  (_root_coro T' = CoroRunning <-> _root_coro T = CoroRunning) ->
  runs R (set_tasks (<[t := T']> (tasks w)) w).
Proof.
  intros HT HR Hc. eapply runs_insert; [done..|]. intros x.
  destruct HR as [_ HR]. rewrite <- HR. unfold is_running.
  destruct (decide (x = t)) as [->|Hne].
  - rewrite HT. split.
    + intros [[_ H]|[? _]]; [|done]. exists T. split; [done|]. by apply Hc.
    + intros (T0 & [= <-] & H). left. split; [done|]. by apply Hc.
  - split; [intros [[? _]|[_ H]]; done|]. intros H. by right.
Qed.

Lemma runs_not_running R w t T :
  runs R w -> tasks w !! t = Some T -> _root_coro T <> CoroRunning -> ~ R t.
Proof.
  intros [_ HR] HT Hc Ht. apply HR in Ht as (T0 & HT0 & Hc0). congruence.
Qed.

Lemma runs_enter R w t T T' :
  tasks w !! t = Some T -> runs R w -> _root_coro T' = CoroRunning ->
  runs (fun x => x = t \/ R x) (set_tasks (<[t := T']> (tasks w)) w).
Proof.
  intros HT HR Hc. eapply runs_insert; [done..|]. intros x.
  destruct (decide (x = t)); split; intros H; tauto.
Qed.

Lemma runs_leave R w t T T' :
  tasks w !! t = Some T -> runs (fun x => x = t \/ R x) w -> ~ R t ->
  _root_coro T' <> CoroRunning ->
  runs R (set_tasks (<[t := T']> (tasks w)) w).
Proof.
  intros HT HR Ht Hc. eapply runs_insert; [done..|]. intros x.
  destruct (decide (x = t)) as [->|Hne]; split; intros H; tauto.
Qed.

Create HintDb quiet.

#[global] Hint Resolve keeps_ret keeps_raise keeps_abort : quiet.

Section Quiet.

Variable py_repr : string -> string.
Variable py_str : value -> string.
Variable fn_body : nat -> arguments -> code.

Local Ltac still :=
  repeat
    lazymatch goal with
    | |- keeps _ (ret _) => apply keeps_ret
    | |- keeps _ (raise _) => apply keeps_raise
    | |- keeps _ abort => apply keeps_abort
    | |- keeps _ (lift _) => apply keeps_lift
    | |- keeps _ (observe _) => apply keeps_observe; intros ? ?; by apply runs_trace
    | |- keeps _ (update_event _ _) =>
        apply keeps_update_event; intros ? ? ?; by apply runs_events
    | |- keeps _ (update_task _ _) =>
        apply triple_update_task; intros ? ? ? ?; by eapply runs_same
    | |- keeps _ (attempt _) => apply keeps_attempt
    | |- keeps _ (bind (get_event _) _) => apply keeps_get_event; intros ?
    | |- keeps _ (bind _ _) => apply keeps_bind; [|intros ?]
    | |- keeps _ (match ?x with _ => _ end) => destruct x eqn:?
    | |- keeps _ _ => solve [eauto with quiet]
    end.

(** An assignment to [_state] does not raise. *)
Lemma write_state_enters R t s X :
  triple (runs R) (write_state t s) (fun _ => runs R) X.
Proof.
  unfold write_state. eapply (triple_bind (fun _ => runs R)).
  - apply triple_update_task. intros w T Hw HT. by eapply runs_same.
  - intros ?. apply triple_observe. intros w Hw. by apply runs_trace.
Qed.

Lemma write_state_runs R t s : keeps (runs R) (write_state t s).
Proof. apply write_state_enters. Qed.

Local Hint Resolve write_state_runs : quiet.

Section QuietHelpers.

Variable recur : call -> M value.
Hypothesis Hrec : forall R c, keeps (runs R) (recur c).

(** Running code does not raise: an exception is how the code stops. *)
Lemma run_prog_enters R {Y} (p : prog Y) X :
  triple (runs R) (run_prog recur p) (fun _ => runs R) X.
Proof.
  induction p as [v|x|c k IH|y k IH]; cbn [run_prog]; try by apply triple_ret.
  intros w Hw. specialize (Hrec R c w Hw).
  destruct (recur c w) as [[v|x|] w']; [apply IH|apply IH|]; done.
Qed.

Lemma run_prog_runs R {Y} (p : prog Y) : keeps (runs R) (run_prog recur p).
Proof. apply run_prog_enters. Qed.

Lemma notify_runs R e l a : keeps (runs R) (notify recur e l a).
Proof. induction l as [|c l IH]; cbn [notify]; still. Qed.

Local Hint Resolve run_prog_runs notify_runs : quiet.

Lemma Event_set_runs R e a : keeps (runs R) (Event_set recur e a).
Proof. unfold Event_set. still. Qed.

Lemma Event_clear_runs R e : keeps (runs R) (Event_clear e).
Proof. unfold Event_clear. still. Qed.

Lemma Event_add_callback_runs R e c : keeps (runs R) (Event_add_callback recur e c).
Proof. unfold Event_add_callback. still. Qed.

Local Hint Resolve Event_set_runs Event_clear_runs Event_add_callback_runs : quiet.

(** The wrapper leaves with its coroutine closed. *)
Lemma wrapper_finally_runs R t (leave : M sent) :
  ~ R t -> keeps (runs R) leave ->
  triple (runs (fun x => x = t \/ R x)) (wrapper_finally recur t leave)
    (fun _ => runs R) (fun _ => runs R).
Proof.
  intros Ht Hleave. unfold wrapper_finally.
  apply triple_get_task. intros T.
  eapply (triple_bind (fun _ => runs (fun x => x = t \/ R x))).
  { apply triple_attempt.
    apply keeps_weaken with (I := runs (fun x => x = t \/ R x)); [|tauto].
    apply Event_set_runs. }
  intros r.
  eapply (triple_bind (fun _ => runs R)).
  { apply triple_update_task. intros w T' Hw HT'. by eapply runs_leave. }
  intros ?. destruct r as [s|e]; [exact Hleave|apply keeps_raise].
Qed.

(** When the computation stops, the coroutine is suspended or closed. *)
Lemma wrapper_exit_runs R t st :
  ~ R t ->
  triple (runs (fun x => x = t \/ R x)) (wrapper_exit recur t st)
    (fun _ => runs R) (fun _ => runs R).
Proof.
  intros Ht.
  assert (Hws : forall s, triple (runs (fun x => x = t \/ R x)) (write_state t s)
                        (fun _ => runs (fun x => x = t \/ R x)) (fun _ => runs R))
    by (intros s; apply write_state_enters).
  destruct st as [v|e|r k]; cbn [wrapper_exit].
  - eapply (triple_bind (fun _ => runs (fun x => x = t \/ R x))).
    { apply triple_update_task. intros w T Hw HT. by eapply runs_same. }
    intros ?. eapply triple_bind; [apply Hws|]. intros ?.
    apply wrapper_finally_runs; [done|apply keeps_ret].
  - destruct (is_Exception e).
    + eapply triple_bind; [apply Hws|]. intros ?.
      apply triple_get_task. intros T. destruct (_suppresses_exception T).
      * eapply (triple_bind (fun _ => runs (fun x => x = t \/ R x))).
        { apply triple_update_task. intros w T' [Hw _] HT'. by eapply runs_same. }
        intros ?. apply wrapper_finally_runs; [done|apply keeps_ret].
      * eapply triple_conseq;
          [apply wrapper_finally_runs; [done|apply keeps_raise]|tauto|done..].
    + eapply triple_bind; [apply Hws|]. intros ?.
      apply wrapper_finally_runs; [done|apply keeps_raise].
  - eapply (triple_bind (fun _ => runs R)); [|intros ?; apply keeps_ret].
    apply triple_update_task. intros w T Hw HT. by eapply runs_leave.
Qed.

Lemma coro_resume_runs R t T k i :
  _root_coro T <> CoroRunning ->
  triple (fun w => runs R w /\ tasks w !! t = Some T) (coro_resume recur t k i)
    (fun _ => runs R) (fun _ => runs R).
Proof.
  intros Hc. unfold coro_resume.
  apply (triple_pure (~ R t)).
  { intros w [Hw HT]. by eapply runs_not_running. }
  intros Ht.
  eapply (triple_bind (fun _ => runs (fun x => x = t \/ R x))).
  { apply triple_update_task. intros w T' [Hw _] HT'. by eapply runs_enter. }
  intros ?. eapply triple_bind; [apply run_prog_enters|]. intros st.
  by apply wrapper_exit_runs.
Qed.

Lemma coro_throw_runs R t T k :
  _root_coro T <> CoroRunning ->
  triple (fun w => runs R w /\ tasks w !! t = Some T) (coro_throw recur t k)
    (fun _ => runs R) (fun _ => runs R).
Proof.
  intros Hc. unfold coro_throw.
  apply (triple_pure (~ R t)).
  { intros w [Hw HT]. by eapply runs_not_running. }
  intros Ht.
  eapply (triple_bind (fun _ => runs (fun x => x = t \/ R x))).
  { apply triple_update_task. intros w T' [Hw _] HT'. by eapply runs_enter. }
  intros ?. eapply triple_bind; [apply run_prog_enters|]. intros st.
  by apply wrapper_exit_runs.
Qed.

Lemma coro_send_runs R t v : keeps (runs R) (coro_send recur t v).
Proof.
  unfold coro_send. apply keeps_get_task. intros T.
  destruct (_root_coro T) as [p| |k|] eqn:Hc.
  - destruct v; try (by apply triple_raise; tauto).
    apply (triple_pure (~ R t)).
    { intros w [Hw HT]. eapply runs_not_running; [done..|]. by rewrite Hc. }
    intros Ht.
    eapply (triple_bind (fun _ => runs (fun x => x = t \/ R x))).
    { apply triple_update_task. intros w T' [Hw _] HT'. by eapply runs_enter. }
    intros ?. eapply triple_bind; [apply write_state_enters|]. intros ?.
    eapply triple_bind; [apply run_prog_enters|]. intros st.
    by apply wrapper_exit_runs.
  - apply triple_raise. tauto.
  - apply coro_resume_runs. by rewrite Hc.
  - apply triple_raise. tauto.
Qed.

Lemma coro_close_runs R t : keeps (runs R) (coro_close recur t).
Proof.
  unfold coro_close. apply keeps_get_task. intros T.
  destruct (_root_coro T) as [p| |k|] eqn:Hc.
  - eapply (triple_bind (fun _ => runs R)); [|intros ?; apply keeps_ret].
    apply triple_update_task. intros w T' [Hw HT] HT'.
    assert (T' = T) as -> by congruence.
    eapply runs_same; [done..|]. cbn. split; [done|]. intros H. congruence.
  - apply triple_raise. tauto.
  - eapply (triple_bind (fun _ => runs R)).
    { apply triple_attempt. apply coro_throw_runs. by rewrite Hc. }
    intros [[r|v]|e]; [apply keeps_raise|apply keeps_ret|].
    destruct e; first [apply keeps_raise|apply keeps_ret].
  - apply triple_ret. tauto.
Qed.

Local Hint Resolve coro_send_runs coro_close_runs : quiet.

Lemma _actual_cancel_runs R t : keeps (runs R) (_actual_cancel recur t).
Proof. unfold _actual_cancel. still. Qed.

Local Hint Resolve _actual_cancel_runs : quiet.

Lemma cancel_check_runs R t : keeps (runs R) (cancel_check recur t).
Proof.
  unfold cancel_check. apply keeps_get_task. intros T.
  apply keeps_weaken with (I := runs R); [|tauto].
  destruct (_cancel_called T && _is_cancellable T); still.
Qed.

Lemma Task_cancel_runs R t : keeps (runs R) (Task_cancel recur t).
Proof.
  unfold Task_cancel. apply keeps_bind; [still|]. intros ?.
  apply keeps_get_task. intros T.
  apply keeps_weaken with (I := runs R); [|tauto].
  destruct (_is_cancellable T); still.
Qed.

Lemma register_runs R r c : keeps (runs R) (register recur r c).
Proof. unfold register. still. Qed.

Local Hint Resolve cancel_check_runs Task_cancel_runs register_runs : quiet.

Lemma drive_runs R t v : keeps (runs R) (drive recur t v).
Proof. unfold drive. still. Qed.

Local Hint Resolve drive_runs : quiet.

Lemma Task_step_coro_runs R t a : keeps (runs R) (Task_step_coro recur t a).
Proof.
  unfold Task_step_coro. apply keeps_get_task. intros T.
  apply keeps_weaken with (I := runs R); [|tauto].
  destruct (getcoroutinestate (_root_coro T)); still.
Qed.

Lemma call_fn_runs R f a : keeps (runs R) (call_fn fn_body recur f a).
Proof. unfold call_fn. still. Qed.

(** A new task is not executing. *)
Lemma Task_init_runs R x nm ud : keeps (runs R) (Task_init py_repr py_str x nm ud).
Proof.
  destruct x as [p|t|v]; cbn [Task_init].
  - intros w [Hfresh HR]. cbn. split.
    + intros x X. cbn. destruct (decide (x = _uid_iter w)) as [->|Hne]; [lia|].
      rewrite lookup_insert_ne by done. intros HX. apply Hfresh in HX. lia.
    + intros x. rewrite <- HR. unfold is_running. cbn.
      destruct (decide (x = _uid_iter w)) as [->|Hne].
      * rewrite lookup_insert_eq. split.
        -- intros (T & [= <-] & Hc). done.
        -- intros (T & HT & _). apply Hfresh in HT. lia.
      * by rewrite lookup_insert_ne.
  - apply keeps_get_task. intros T. apply triple_raise. tauto.
  - apply keeps_raise.
Qed.

Lemma start_runs R x : keeps (runs R) (start py_repr py_str recur x).
Proof.
  unfold start. apply keeps_bind; [|intros t; still].
  destruct x as [p|t|v].
  - apply Task_init_runs.
  - apply keeps_get_task. intros T.
    apply keeps_weaken with (I := runs R); [|tauto].
    destruct (_state T); still.
  - apply keeps_raise.
Qed.

Local Hint Resolve Task_step_coro_runs call_fn_runs start_runs : quiet.

Lemma dispatch_runs R c : keeps (runs R) (dispatch py_repr py_str fn_body recur c).
Proof.
  destruct c as [t|t|[t|f] a|t|t|t d|t b|e a|e|e|e|e c]; cbn [dispatch]; try by still.
  - apply keeps_get_task. intros T. apply keeps_weaken with (I := runs R); [|tauto]. still.
  - apply keeps_get_task. intros T. apply keeps_weaken with (I := runs R); [|tauto]. still.
  - apply keeps_get_task. intros T. apply keeps_weaken with (I := runs R); [|tauto]. still.
Qed.

End QuietHelpers.

Lemma exec_runs R fuel c : keeps (runs R) (exec py_repr py_str fn_body fuel c).
Proof.
  revert R c. induction fuel as [|fuel IH]; intros R c; cbn [exec].
  - apply keeps_abort.
  - by apply dispatch_runs.
Qed.

Lemma run_op_runs R fuel o : keeps (runs R) (run_op py_repr py_str fn_body fuel o).
Proof.
  destruct o as [x nm ud|x| |c]; cbn [run_op].
  - apply keeps_bind; [apply Task_init_runs|intros ?; apply keeps_ret].
  - apply start_runs. intros R' c. apply exec_runs.
  - apply keeps_bind; [|intros ?; apply keeps_ret].
    intros w Hw. exact Hw.
  - apply exec_runs.
Qed.

Lemma completed_reachable w :
  completed py_repr py_str fn_body w -> reachable py_repr py_str fn_body w.
Proof. induction 1; [apply reachable_empty|by apply reachable_step]. Qed.

Lemma completed_runs w :
  completed py_repr py_str fn_body w -> runs (fun _ => False) w.
Proof.
  induction 1 as [|w fuel o Hw IH Hok].
  - split; [intros t T; cbn; by rewrite lookup_empty|].
    intros t. split; [|done]. intros (T & HT & _). cbn in HT. by rewrite lookup_empty in HT.
  - pose proof (run_op_runs (fun _ => False) fuel o w IH) as H.
    destruct (run_op py_repr py_str fn_body fuel o w) as [[v|e|] w'] eqn:Hrun; done.
Qed.

(** X18: between the operations of the driver no coroutine is executing:
    every operation that comes to an end, by returning or by raising, leaves
    every coroutine it entered suspended or closed.  So, between operations,
    a Started task is suspended, a Done or Cancelled task is closed, and a
    Created task has not been entered (or was closed by [cancel] before it
    was started). *)
Theorem no_coroutine_left_running w t T :
  completed py_repr py_str fn_body w -> tasks w !! t = Some T ->
  getcoroutinestate (_root_coro T) <> CORO_RUNNING
  /\ match _state T with
     | CREATED =>
         getcoroutinestate (_root_coro T) = CORO_CREATED
         \/ getcoroutinestate (_root_coro T) = CORO_CLOSED
     | STARTED => getcoroutinestate (_root_coro T) = CORO_SUSPENDED
     | DONE | CANCELLED => getcoroutinestate (_root_coro T) = CORO_CLOSED
     end.
Proof.
  intros Hc HT.
  pose proof (wf_tasks _ (reachable_wf _ _ _ _ (completed_reachable w Hc)) _ _ HT) as Hok.
  destruct (completed_runs w Hc) as [_ HR].
  assert (Hnr : _root_coro T <> CoroRunning).
  { intros Hrun. apply (HR t). by exists T. }
  destruct (_root_coro T) as [p| |k|] eqn:Hco; cbn.
  - rewrite (ok_created _ _ _ Hok _ Hco). split; [done|]. by left.
  - done.
  - rewrite (ok_suspended _ _ _ Hok _ Hco). done.
  - pose proof (ok_closed _ _ _ Hok Hco). split; [done|].
    destruct (_state T); first [done|by right].
Qed.

End Quiet.

(** ** The further properties on the concrete program *)

(** A second task gets the uid 1. *)
Lemma task_uids_are_unique_example :
  let r := ex_run 4 (OTask (Awaitable sleep_forever) "C" VNone) sleeping_world in
  exists u T,
    fst r = Ok (VTask u) /\ tasks (snd r) !! u = Some T
    /\ _uid T = u /\ _state T = CREATED /\ name T = "C" /\ userdata T = VNone
    /\ forall t T0, tasks sleeping_world !! t = Some T0 ->
         _uid T0 <> u /\ tasks (snd r) !! t = Some T0.
Proof.
  refine (proj2 (task_uids_are_unique example_repr example_str example_fn
                   sleeping_world _) 4%nat sleep_forever "C" VNone).
  apply run_ops_wf. repeat apply run_ops_reachable. apply reachable_empty.
Defined.

(** The sleeping task is Started and its coroutine is suspended. *)
Lemma state_agrees_with_coroutine_example :
  _state sleeper = STARTED.
Proof.
  refine (proj1 (state_agrees_with_coroutine example_repr example_str example_fn
                   sleeping_world 0%nat sleeper _ _)).
  - repeat apply run_ops_reachable. apply reachable_empty.
  - vm_compute. reflexivity.
Defined.

(** The event that was set with 1 has the payload [((1,), {})]. *)
Lemma set_event_has_payload_example :
  exists a,
    _value (mkEvent (Some ([VInt 1], [])) true []) = Some a
    /\ forall fuel c,
         ex_exec (S fuel) (CEventAddCallback 0 c) fired_world
         = (let* _ := ex_exec fuel (CCall c a) in ret VNone) fired_world.
Proof.
  apply (set_event_has_payload example_repr example_str example_fn fired_world 0%nat).
  - repeat apply run_ops_reachable. apply reachable_empty.
  - vm_compute. reflexivity.
  - reflexivity.
Defined.

(** A second [B.cancel()]. *)
Lemma cancel_cancelled_task_example :
  let r := ex_exec 1 (CCancel 0) cancelled_world in
  fst r = Ok VNone
  /\ tasks (snd r) = <[0%nat := set_cancel_called true cancelled_sleeper]> (tasks cancelled_world)
  /\ events (snd r) = events cancelled_world
  /\ (trace (snd r) = trace cancelled_world
      \/ trace (snd r) = trace cancelled_world ++ [ObsClose 0])
  /\ Task_result example_repr (set_cancel_called true cancelled_sleeper)
     = Exc (InvalidStateError (Task_str example_repr cancelled_sleeper +:+ " was cancelled")).
Proof.
  apply (cancel_cancelled_task example_repr example_str example_fn 0 cancelled_world 0%nat
           cancelled_sleeper).
  - apply run_ops_wf. repeat apply run_ops_reachable. apply reachable_empty.
  - vm_compute. reflexivity.
  - reflexivity.
Defined.

(** The resume callback of the cancelled task is called: nothing happens. *)
Lemma step_coro_of_closed_task_example :
  let r := ex_exec 1 (CCall (StepCoro 0) ([VInt 1], [])) cancelled_world in
  fst r = Ok VNone /\ tasks (snd r) = tasks cancelled_world
  /\ events (snd r) = events cancelled_world
  /\ (trace (snd r) = trace cancelled_world
      \/ trace (snd r) = trace cancelled_world ++ [ObsClose 0]).
Proof.
  apply (step_coro_of_closed_task example_repr example_str example_fn 0 cancelled_world
           0%nat cancelled_sleeper).
  - vm_compute. reflexivity.
  - reflexivity.
Defined.

(** The resume callback of [B] is called while [B] runs. *)
Lemma step_coro_of_running_task_example :
  ex_exec 1 (CCall (StepCoro 0) no_arguments) running_world
  = (Exc (ValueError "coroutine already executing"), running_world).
Proof.
  apply (step_coro_of_running_task example_repr example_str example_fn 0 running_world
           0%nat (set_root_coro CoroRunning sleeper)).
  - vm_compute. reflexivity.
  - reflexivity.
Defined.

(** The computation of [B] returns 1 while [f2] waits for [B] to end: [f2]
    is called with [B]. *)
Lemma finished_task_notifies_waiters_example :
  let a : arguments := ([VTask 0], []) in
  let T := set_root_coro CoroRunning sleeper in
  let r := wrapper_exit (ex_exec 1) 0 (Returned (VInt 1)) observed_running_world in
  (exists T', tasks (snd r) !! 0%nat = Some T' /\ _state T' = DONE
              /\ _result T' = Some (VInt 1))
  /\ exists cs rest o wn d,
       [Fn 2] = cs ++ rest
       /\ called_in_order (ex_exec 1) 0 a [Fn 2]
            (fire 0 a (else_clause 0 T (VInt 1) observed_running_world)) o wn cs
       /\ fst r = match o with
                  | Ok _ => Ok (StopIteration VNone)
                  | Exc x => Exc x
                  | Abort => Abort
                  end
       /\ (forall s, fst r = Ok s -> rest = [])
       /\ trace (snd r) = trace wn /\ events (snd r) = events wn
       /\ trace wn = trace observed_running_world ++ ObsState 0 DONE :: d
       /\ (ObsClear 0 ∉ d ->
             notified 0 d = map (fun c => (c, a)) cs /\ fired 0 a (snd r)).
Proof.
  apply (finished_task_notifies_waiters example_repr example_str example_fn 1
           observed_running_world 0%nat (set_root_coro CoroRunning sleeper) (VInt 1)
           (mkEvent None false [Fn 2])).
  - vm_compute. reflexivity.
  - reflexivity.
  - vm_compute. reflexivity.
  - reflexivity.
Defined.

(** What the trace has of it: [f2] was called with [B], after the state was
    set to Done. *)
Example finished_task_calls_waiter :
  let r := wrapper_exit (ex_exec 1) 0 (Returned (VInt 1)) observed_running_world in
  fst r = Ok (StopIteration VNone)
  /\ trace (snd r)
     = [ObsState 0 STARTED; ObsState 0 DONE; ObsNotify 0 (Fn 2) ([VTask 0], []);
        ObsCalled 2 ([VTask 0], [])].
Proof. vm_compute. repeat split. Qed.

(** [E.clear()] after [E.set(1)]: [E.is_set()] is False, and [E.set(2)]
    sets the event again. *)
Lemma clear_rearms_event_example :
  let r := ex_exec 1 (CEventClear 0) fired_world in
  fst r = Ok VNone
  /\ tasks (snd r) = tasks fired_world
  /\ events (snd r) = <[0%nat := mkEvent (Some ([VInt 1], [])) false []]> (events fired_world)
  /\ ex_exec 1 (CEventIsSet 0) (snd r) = (Ok (VBool false), snd r)
  /\ forall fuel' b,
       let r2 := ex_exec (S fuel') (CEventSet 0 b) (snd r) in
       exists cs rest d,
         [] = cs ++ rest
         /\ called_in_order (ex_exec fuel') 0 b [] (fire 0 b (snd r)) (fst r2) (snd r2) cs
         /\ (forall v, fst r2 = Ok v -> rest = [])
         /\ trace (snd r2) = trace (snd r) ++ d
         /\ (ObsClear 0 ∉ d ->
               fired 0 b (snd r2) /\ notified 0 d = map (fun c => (c, b)) cs).
Proof.
  apply (clear_rearms_event example_repr example_str example_fn 0 fired_world 0%nat
           (mkEvent (Some ([VInt 1], [])) true [])).
  vm_compute. reflexivity.
Defined.

(** [E.add_callback(f0); E.set(1); E.clear(); E.add_callback(f2); E.set(2)]:
    [f0] is called with 1 and, after the [clear], [f2] with 2. *)
Example set_clear_set :
  let w := run_ops 4 [OEvent; OCall (CEventAddCallback 0 (Fn 0));
                      OCall (CEventSet 0 ([VInt 1], [])); OCall (CEventClear 0);
                      OCall (CEventAddCallback 0 (Fn 2));
                      OCall (CEventSet 0 ([VInt 2], []))] empty_world in
  trace w
  = [ObsNotify 0 (Fn 0) ([VInt 1], []); ObsCalled 0 ([VInt 1], []); ObsClear 0;
     ObsNotify 0 (Fn 2) ([VInt 2], []); ObsCalled 2 ([VInt 2], [])]
  /\ ((fun ev => (_value ev, _flag ev, _step_coro_list ev)) <$> events w !! 0%nat)
     = Some (Some ([VInt 2], []), true, []).
Proof. vm_compute. repeat split. Qed.

(** [E.add_callback(f0)] on the event with the waiters [f0] and [f2], and
    the [E.set(a)] that follows. *)
Lemma callback_waits_for_set_example :
  let r := ex_exec 1 (CEventAddCallback 0 (Fn 0)) event_world in
  r = (Ok VNone,
       set_events (<[0%nat := mkEvent None false ([Fn 0; Fn 2] ++ [Fn 0])]>
                     (events event_world)) event_world)
  /\ forall fuel' a,
       let r2 := ex_exec (S fuel') (CEventSet 0 a) (snd r) in
       exists cs rest d,
         [Fn 0; Fn 2] ++ [Fn 0] = cs ++ rest
         /\ called_in_order (ex_exec fuel') 0 a ([Fn 0; Fn 2] ++ [Fn 0]) (fire 0 a (snd r))
              (fst r2) (snd r2) cs
         /\ (forall v, fst r2 = Ok v -> rest = [])
         /\ trace (snd r2) = trace event_world ++ d
         /\ (ObsClear 0 ∉ d ->
               fired 0 a (snd r2) /\ notified 0 d = map (fun c' => (c', a)) cs).
Proof.
  apply (callback_waits_for_set example_repr example_str example_fn 0 event_world
           0%nat (mkEvent None false [Fn 0; Fn 2]) (Fn 0)).
  - vm_compute. reflexivity.
  - reflexivity.
Defined.

(** [E = Event(); t = start(E.wait()); E.set(1)]: the task is Done with
    [((1,), {})]. *)
Lemma waiting_task_gets_arguments_example :
  let r1 := ex_run 1 (OStart (Awaitable (Event_wait 0))) one_event_world in
  let r2 := ex_run 2 (OCall (CEventSet 0 ([VInt 1], []))) (snd r1) in
  exists T2, tasks (snd r2) !! 0%nat = Some T2 /\ _state T2 = DONE
             /\ _result T2 = Some (VPair [VInt 1] []).
Proof.
  refine (proj1 (proj2 (proj2 (proj2
            (waiting_task_gets_arguments example_repr example_str example_fn 0
               one_event_world 0%nat (mkEvent None false []) ([VInt 1], []) _ _ _ _))))).
  - apply run_ops_wf. apply reachable_empty.
  - vm_compute. reflexivity.
  - reflexivity.
  - reflexivity.
Defined.

(** [start(B)] returns [B]. *)
Lemma start_returns_its_task_example :
  exists t T',
    VTask 0 = VTask t /\ t = 0%nat
    /\ tasks (snd (ex_run 4 (OStart (TaskObj 0)) created_world)) !! t = Some T'
    /\ _state T' <> CREATED.
Proof.
  apply (start_returns_its_task example_repr example_str example_fn 4 created_world
           (TaskObj 0) (VTask 0)).
  - apply run_ops_wf. apply reachable_empty.
  - vm_compute. reflexivity.
Defined.

(** [B.cancel()] while [B] runs. *)
Lemma cancel_running_task_example :
  ex_exec 1 (CCancel 0) running_world
  = (Ok VNone,
     set_tasks (<[0%nat := set_cancel_called true (set_root_coro CoroRunning sleeper)]>
                  (tasks running_world)) running_world).
Proof.
  apply (cancel_running_task example_repr example_str example_fn 0 running_world 0%nat
           (set_root_coro CoroRunning sleeper)).
  - vm_compute. reflexivity.
  - reflexivity.
Defined.

(** [B = Task(sleep_forever()); B.cancel(); start(B)] *)
Lemma start_of_closed_task_example :
  ex_run 4 (OStart (TaskObj 0)) closed_created_world
  = (Exc (RuntimeError "cannot reuse already awaited coroutine"), closed_created_world).
Proof.
  apply (start_of_closed_task example_repr example_str example_fn 4 closed_created_world
           0%nat (set_root_coro CoroClosed (set_cancel_called true newborn))).
  - vm_compute. reflexivity.
  - reflexivity.
  - reflexivity.
Defined.

(** The waiter of a cancelled task is skipped: after
    [t = start(E.wait()); t.cancel(); E.set(1)] the [set] has returned and
    the task is still Cancelled. *)
Example cancelled_waiter_is_skipped :
  let w := run_ops 4 [OStart (Awaitable (Event_wait 0)); OCall (CCancel 0)] one_event_world in
  let r := ex_run 4 (OCall (CEventSet 0 ([VInt 1], []))) w in
  fst r = Ok VNone
  /\ (_state <$> tasks (snd r) !! 0%nat) = Some CANCELLED
  /\ (_result <$> tasks (snd r) !! 0%nat) = Some None.
Proof. vm_compute. repeat split. Qed.

(** The cancelled task [B] after its resume callback was called once more. *)
Lemma closed_task_is_final_example :
  exists T',
    tasks (snd (ex_run 4 (OCall (CCall (StepCoro 0) no_arguments)) cancelled_world)) !! 0%nat
    = Some T'
    /\ same_task cancelled_sleeper T'
    /\ (_root_coro cancelled_sleeper = CoroClosed -> settled cancelled_sleeper T').
Proof.
  apply (closed_task_is_final example_repr example_str example_fn 4
           (OCall (CCall (StepCoro 0) no_arguments)) cancelled_world 0%nat cancelled_sleeper).
  - apply run_ops_wf. repeat apply run_ops_reachable. apply reachable_empty.
  - vm_compute. reflexivity.
Defined.

(** After [B = Task(sleep_forever(), name='B'); start(B)] the coroutine of [B]
    is suspended. *)
Lemma no_coroutine_left_running_example :
  getcoroutinestate (_root_coro sleeper) <> CORO_RUNNING
  /\ getcoroutinestate (_root_coro sleeper) = CORO_SUSPENDED.
Proof.
  refine (no_coroutine_left_running example_repr example_str example_fn sleeping_world
            0%nat sleeper _ _).
  - change sleeping_world
      with (snd (ex_run 4 (OStart (TaskObj 0))
                   (snd (ex_run 4 (OTask (Awaitable sleep_forever) "B" VNone) empty_world)))).
    apply completed_step; [apply completed_step; [apply completed_empty|]|];
      vm_compute; discriminate.
  - vm_compute. reflexivity.
Defined.
